(** * mapviewer: the lines renderer worker

    A shallow embedding of [src/views/map/worker-linesrenderer.ts] and the
    properties of its topology ingestion, spacing, colour ordering,
    clipping and connection stitching.

    Conventions of the embedding.
    - JavaScript numbers that hold arc references, arc indices and loop
      counters are integers ([Z], [nat]).  Widths, zooms, spacings,
      distances and coordinates are IEEE 754 doubles, the primitive
      [float] of the kernel: sums, products, quotients and comparisons are
      those of the hardware, [NaN] and the infinities included.  The
      luminosity of a colour is a real number, and [None] where the code
      computes [NaN].
    - What ECMAScript leaves to the engine is a field of the class
      [JS.Engine]: the value of [**] outside its special cases, and the
      order in which [sort] leaves an array when the comparison function
      is not consistent.
    - JavaScript strings are [string]; [undefined] is [None].
    - A [Map] whose iteration order is observed is an association list in
      insertion order ([JsMap]); the endpoint registry, which is only ever
      looked up by key, is a [gmap].
    - A thrown exception is the [Throw] completion.
    - The functions imported from [@turf/*] and [to-smooth] are not part of
      the repository.  The two constructors of [@turf/helpers] that check
      their argument are defined with their checks; the other functions
      are the fields of the class [turf.API], and those that can refuse
      their arguments return a completion. *)

From Stdlib Require Import Reals Lra Ascii ZArith Floats Uint63.
From stdpp Require Import gmap strings list pretty sorting.

Local Open Scope string_scope.
Local Open Scope list_scope.
Set Warnings "-inexact-float".

(** ** The JavaScript runtime, as far as the worker uses it *)

Module JS.

Inductive Fault : Type :=
| TypeError (message : string)
| Error (message : string).

(** How a call completes: with a value, or by throwing. *)
Inductive completion (A : Type) : Type :=
| Normal (value : A)
| Throw (fault : Fault).
Arguments Normal {A} value.
Arguments Throw {A} fault.

Definition bind {A B} (c : completion A) (k : A → completion B) : completion B :=
  match c with
  | Normal a => k a
  | Throw e => Throw e
  end.

(** [String(n)] for an integer [n]: its decimal digits, [-] in front of a
    negative one (JavaScript changes to exponent notation from 10^21 on,
    far above any arc index). *)
Definition Number_toString (n : Z) : string := pretty n.

(** [parts.join(sep)] on an array of strings. *)
Fixpoint Array_join (sep : string) (parts : list string) : string :=
  match parts with
  | [] => ""
  | [p] => p
  | p :: rest => p +:+ sep +:+ Array_join sep rest
  end.

(** [arr.includes(x)]. *)
Definition Array_includes {A} `{EqDecision A} (arr : list A) (x : A) : bool :=
  bool_decide (x ∈ arr).

(** [arr[i]] for a numeric index: [undefined] outside the array. *)
Definition Array_at {A} (arr : list A) (i : Z) : option A :=
  if bool_decide (i < 0)%Z then None else arr !! Z.to_nat i.

(** [arr.reduce(callback)] with no initial value.  The callback also
    threads the state [S] it mutates.  On an empty array the call throws;
    on a one-element array the callback is not called. *)
Definition Array_reduce {A S} (callback : A → A → S → A * S)
    (arr : list A) (st : S) : completion (A * S) :=
  match arr with
  | [] => Throw (TypeError "Reduce of empty array with no initial value")
  | first :: rest =>
      Normal (foldl (λ acc cur, callback acc.1 cur acc.2) (first, st) rest)
  end.

(** [new Set(arr)] spread back into an array: first occurrences, in
    order. *)
Definition add_unseen {A} `{EqDecision A} (seen : list A) (x : A) : list A :=
  if decide (x ∈ seen) then seen else seen ++ [x].

Definition Set_of {A} `{EqDecision A} (arr : list A) : list A :=
  foldl add_unseen [] arr.

(** [s.substring(start, end)]: both indices are clamped to the length of
    the string and swapped when [start > end]. *)
Definition String_substring (s : string) (start end_ : nat) : string :=
  let len := String.length s in
  let finalStart := start `min` len in
  let finalEnd := end_ `min` len in
  let from := finalStart `min` finalEnd in
  let to := finalStart `max` finalEnd in
  String.substring from (to - from) s.

Definition hex_digit (c : ascii) : option Z :=
  let n := Z.of_N (Ascii.N_of_ascii c) in
  if bool_decide (48 ≤ n ≤ 57)%Z then Some (n - 48)%Z
  else if bool_decide (97 ≤ n ≤ 102)%Z then Some (n - 87)%Z
  else if bool_decide (65 ≤ n ≤ 70)%Z then Some (n - 55)%Z
  else None.

(** The value of the longest prefix of hexadecimal digits; [acc] is the
    value read so far, [None] before the first digit. *)
Fixpoint hex_prefix (s : string) (acc : option Z) : option Z :=
  match s with
  | EmptyString => acc
  | String c rest =>
      match hex_digit c with
      | Some d => hex_prefix rest (Some (16 * default 0 acc + d))%Z
      | None => acc
      end
  end.

Definition is_whitespace (c : ascii) : bool :=
  let n := Ascii.N_of_ascii c in
  bool_decide (n = 32 ∨ 9 ≤ n ≤ 13)%N.

Fixpoint trim_start (s : string) : string :=
  match s with
  | String c rest => if is_whitespace c then trim_start rest else s
  | EmptyString => s
  end.

Definition strip_0x (s : string) : string :=
  match s with
  | String "0" (String "x" rest) => rest
  | String "0" (String "X" rest) => rest
  | _ => s
  end.

(** [parseInt(s, 16)]: leading white space, a sign and a [0x] prefix are
    skipped, then the longest prefix of hexadecimal digits is read;
    [None] is [NaN], the result when there is no digit. *)
Definition parseInt16 (s : string) : option Z :=
  match trim_start s with
  | String "-" rest => Z.opp <$> hex_prefix (strip_0x rest) None
  | String "+" rest => hex_prefix (strip_0x rest) None
  | rest => hex_prefix (strip_0x rest) None
  end.

Global Instance Rlt_decision (x y : R) : Decision (x < y)%R := Rlt_dec x y.
Global Instance Rle_decision (x y : R) : Decision (x <= y)%R := Rle_dec x y.
Global Instance Rgt_decision (x y : R) : Decision (x > y)%R := Rgt_dec x y.
Global Instance Req_decision : EqDecision R := Req_dec_T.

(** [Math.pow(x, y)] on the luminosity scale, for the calls the colour
    order makes: a positive base, or the base [0] with a positive
    exponent. *)
Definition Math_pow (x y : R) : R :=
  if decide (x = 0)%R then 0%R else Rpower x y.

(** *** Numbers *)

Section numbers.
Local Open Scope float_scope.

(** The double of an integer; exact below 2^53. *)
Definition Number_of_Z (n : Z) : float :=
  if bool_decide (n < 0)%Z then - of_uint63 (Uint63.of_Z (- n))
  else of_uint63 (Uint63.of_Z n).

Definition Number_of_nat (n : nat) : float := Number_of_Z (Z.of_nat n).

Definition is_positive_zero (x : float) : bool :=
  match classify x with PZero => true | _ => false end.

Definition is_negative_zero (x : float) : bool :=
  match classify x with NZero => true | _ => false end.

(** One round of the loop of [Math.max] for a [number] that is not
    [NaN]: "if number is +0 and highest is -0, set highest to +0; if
    number > highest, set highest to number". *)
Definition max_step (highest number : float) : float :=
  let highest :=
    if is_positive_zero number && is_negative_zero highest then PrimFloat.zero else highest in
  if highest <? number then number else highest.

(** [Math.max(x, y)]: [NaN] when an argument is [NaN]. *)
Definition Math_max (x y : float) : float :=
  if PrimFloat.is_nan x || PrimFloat.is_nan y then PrimFloat.nan else foldl max_step PrimFloat.neg_infinity [x; y].

Definition min_step (lowest number : float) : float :=
  let lowest :=
    if is_negative_zero number && is_positive_zero lowest then PrimFloat.neg_zero else lowest in
  if number <? lowest then number else lowest.

(** [Math.min(x, y)]: [NaN] when an argument is [NaN]. *)
Definition Math_min (x y : float) : float :=
  if PrimFloat.is_nan x || PrimFloat.is_nan y then PrimFloat.nan else foldl min_step PrimFloat.infinity [x; y].

(** [Math.round(n)]: [n] itself when it is not finite or is integral;
    otherwise the integer closest to [n], the one towards +∞ on a tie,
    which is the floor of [n + 1/2] computed exactly; a result of zero
    keeps the sign of [n]. *)
Definition Math_round (n : float) : float :=
  match Prim2SF n with
  | S754_finite s m e =>
      if bool_decide (0 ≤ e)%Z then n
      else
        let numerator := if s then Z.neg m else Z.pos m in
        let r := ((2 * numerator + 2 ^ (- e)) `div` 2 ^ (1 - e))%Z in
        if bool_decide (r = 0)%Z then (if s then PrimFloat.neg_zero else PrimFloat.zero)
        else Number_of_Z r
  | _ => n
  end.

End numbers.

(** *** Sorting *)

(** What [sort] reads of a call of the comparison function: "if v is
    NaN, return +0". *)
Definition SortCompare {A} (comparefn : A → A → option R) (x y : A) : R :=
  default 0%R (comparefn x y).

(** Insertion in front of the first element that compares greater. *)
Fixpoint sort_insert {A} (compare : A → A → R) (x : A) (sorted : list A) : list A :=
  match sorted with
  | [] => [x]
  | y :: rest =>
      if decide (compare y x > 0)%R then x :: y :: rest
      else y :: sort_insert compare x rest
  end.

(** The stable sort: elements are inserted one by one from the left. *)
Definition sort_stable {A} (comparefn : A → A → option R) (arr : list A) : list A :=
  foldl (λ sorted x, sort_insert (SortCompare comparefn) x sorted) [] arr.

(** "A consistent comparison function for a set of values S": for all
    [a], [b], [c] in S the result is a number and not [NaN], [a =CF a],
    [=CF] is symmetric, and [=CF], [<CF] and [>CF] are transitive. *)
Definition consistent {A} (comparefn : A → A → option R) (S : list A) : Prop :=
  let v := SortCompare comparefn in
  Forall (λ a,
    v a a = 0%R
    ∧ Forall (λ b,
        is_Some (comparefn a b)
        ∧ (v a b = 0 → v b a = 0)%R
        ∧ Forall (λ c,
            (v a b = 0 → v b c = 0 → v a c = 0)%R
            ∧ (v a b < 0 → v b c < 0 → v a c < 0)%R
            ∧ (v a b > 0 → v b c > 0 → v a c > 0)%R) S) S) S.

Global Instance consistent_dec {A} (comparefn : A → A → option R) (S : list A) :
  Decision (consistent comparefn S).
Proof. unfold consistent. apply _. Defined.

(** What ECMAScript leaves to the implementation. *)
Class Engine : Type := {
  (** Steps 4 to 13 of [Number::exponentiate]: the results on infinities
      and zeros, and otherwise "an implementation-approximated Number
      value representing the result of raising base to the exponent
      power". *)
  exponentiate_approximated : float → float → float;
  (** The array [sort] leaves when the comparison function is not
      consistent: "the sort order is implementation-defined".  The
      elements are moved, never made or lost. *)
  sort_implementation_defined : ∀ A : Type, (A → A → option R) → list A → list A;
  sort_implementation_defined_Permutation A comparefn arr :
    sort_implementation_defined A comparefn arr ≡ₚ arr
}.

Section engine.
Context `{Engine}.

(** [base ** exponent]: the first three steps of [Number::exponentiate]
    are fixed, the rest is the engine's. *)
Definition Number_exponentiate (base exponent : float) : float :=
  if PrimFloat.is_nan exponent then PrimFloat.nan
  else if PrimFloat.is_zero exponent then 1%float
  else if PrimFloat.is_nan base then PrimFloat.nan
  else exponentiate_approximated base exponent.

(** [arr.sort(comparefn)]: the stable sort when [comparefn] is a
    consistent comparison function for the elements, the order of the
    engine otherwise. *)
Definition Array_sort {A} (comparefn : A → A → option R) (arr : list A) : list A :=
  if decide (consistent comparefn arr) then sort_stable comparefn arr
  else sort_implementation_defined A comparefn arr.

End engine.

End JS.

Global Instance completion_ret : MRet JS.completion := @JS.Normal.
Global Instance completion_bind : MBind JS.completion := λ A B k c, JS.bind c k.

(** A [Map] with string keys, in insertion order. *)
Module JsMap.

Definition t (V : Type) : Type := list (string * V).

Definition empty {V} : t V := [].

Fixpoint get {V} (m : t V) (key : string) : option V :=
  match m with
  | [] => None
  | (k, v) :: rest => if decide (k = key) then Some v else get rest key
  end.

Definition has {V} (m : t V) (key : string) : bool :=
  bool_decide (is_Some (get m key)).

(** [m.set(key, v)]: a present key keeps its place, a new one goes last. *)
Fixpoint set {V} (m : t V) (key : string) (v : V) : t V :=
  match m with
  | [] => [(key, v)]
  | (k, v') :: rest =>
      if decide (k = key) then (k, v) :: rest else (k, v') :: set rest key v
  end.

Definition entries {V} (m : t V) : list (string * V) := m.

End JsMap.

(** ** The data model *)

Definition coordpair : Type := float * float.

Record LineProperties : Type := {
  stroke : string;
  title : string;
  agency : string
}.

(** One element of [objects.lines.geometries]. *)
Record TopoLine : Type := {
  line_arcs : list Z;
  properties : LineProperties
}.

Record topojsonExport : Type := {
  geometries : list TopoLine;
  arcs : list (list coordpair);
  bbox : float * float * float * float;
  upperBounds : coordpair
}.

Record LineSegment : Type := {
  geometry : list coordpair;
  top : option coordpair;
  bottom : option coordpair;
  colors : list string
}.

Record LineConnection : Type := {
  from : Z * string;
  to : Z * string;
  color : string
}.

Global Instance LineConnection_eq_dec : EqDecision LineConnection.
Proof. solve_decision. Defined.

(** ** Topology ingestion *)

Section extractLineConnections.

Definition fromId (prev : Z) : Z :=
  if bool_decide (prev < 0)%Z then (prev * -1 - 1)%Z else prev.
Definition fromPart (prev : Z) : string :=
  if bool_decide (prev < 0)%Z then "top" else "bottom".
Definition toId (cur : Z) : Z :=
  if bool_decide (cur < 0)%Z then (cur * -1 - 1)%Z else cur.
Definition toPart (cur : Z) : string :=
  if bool_decide (cur < 0)%Z then "bottom" else "top".

Definition DedupeString (line : TopoLine) (prev cur : Z) : string :=
  JS.Array_join ":"
    [stroke (properties line);
     JS.Number_toString (fromId prev); fromPart prev;
     JS.Number_toString (toId cur); toPart cur].

Definition connection_of (line : TopoLine) (prev cur : Z) : LineConnection :=
  {| from := (fromId prev, fromPart prev);
     to := (toId cur, toPart cur);
     color := stroke (properties line) |}.

(** The callback of [line.arcs.reduce]; the state is the pair
    [(Connections, ConnectionsDedupe)]. *)
Definition reduce_callback (line : TopoLine) (prev cur : Z)
    (st : list LineConnection * list string) : Z * (list LineConnection * list string) :=
  let '(Connections, ConnectionsDedupe) := st in
  if negb (JS.Array_includes ConnectionsDedupe (DedupeString line prev cur))
  then (cur, (Connections ++ [connection_of line prev cur],
              ConnectionsDedupe ++ [DedupeString line prev cur]))
  else (cur, st).

Fixpoint extract_lines (lines : list TopoLine)
    (st : list LineConnection * list string)
    : JS.completion (list LineConnection * list string) :=
  match lines with
  | [] => JS.Normal st
  | line :: rest =>
      r ← JS.Array_reduce (reduce_callback line) (line_arcs line) st;
      extract_lines rest r.2
  end.

Definition extractLineConnections (TopoJsonLines : topojsonExport)
    : JS.completion (list LineConnection) :=
  st ← extract_lines (geometries TopoJsonLines) ([], []);
  mret st.1.

End extractLineConnections.

Section ExtractLineSegments.

(** [line.properties.stroke || '#000000']. *)
Definition stroke_or_black (line : TopoLine) : string :=
  if decide (stroke (properties line) = "") then "#000000"
  else stroke (properties line).

(** What the [map] callback returns for [line] at arc index [i]:
    [undefined] when the test fails. *)
Definition color_if_on_arc (i : Z) (line : TopoLine) : option string :=
  if (if bool_decide (i < 0)%Z
      then JS.Array_includes (line_arcs line) (i * -1 - 1)%Z
      else JS.Array_includes (line_arcs line) i)
  then Some (stroke_or_black line)
  else None.

Definition colorsInSegment (TopoJsonLines : topojsonExport) (i : Z) : list (option string) :=
  JS.Set_of (color_if_on_arc i <$> geometries TopoJsonLines).

Definition segment_key (i : Z) : string := "Segment:" +:+ JS.Number_toString i.

Definition segment_of_arc (TopoJsonLines : topojsonExport) (i : nat) : LineSegment :=
  let arc := default [] (arcs TopoJsonLines !! i) in
  {| geometry := arc;
     top := JS.Array_at arc 0;
     bottom := JS.Array_at arc (Z.of_nat (length arc) - 1);
     (* [filter((e) => e != null)] *)
     colors := omap (λ e, e) (colorsInSegment TopoJsonLines (Z.of_nat i)) |}.

Definition ExtractLineSegments (TopoJsonLines : topojsonExport) : JsMap.t LineSegment :=
  foldl (λ Segments i,
          JsMap.set Segments (segment_key (Z.of_nat i)) (segment_of_arc TopoJsonLines i))
        JsMap.empty
        (seq 0 (length (arcs TopoJsonLines))).

End ExtractLineSegments.

(** ** The imported geometry library *)

Module turf.

Definition Position : Type := coordpair.

(** A [Feature<LineString>].  All of them come out of [lineString], which
    refuses fewer than two positions: the first two are fields. *)
Record LineString : Type := {
  first_position : Position;
  second_position : Position;
  other_positions : list Position
}.

(** [line.geometry.coordinates]. *)
Definition coordinates (line : LineString) : list Position :=
  first_position line :: second_position line :: other_positions line.

(** [lineString(coordinates)] of [@turf/helpers]. *)
Definition lineString (coordinates : list Position) : JS.completion LineString :=
  match coordinates with
  | first :: second :: others =>
      JS.Normal {| first_position := first; second_position := second;
                   other_positions := others |}
  | _ => JS.Throw (JS.Error "coordinates must be an array of two or more positions")
  end.

Record Polygon : Type := { rings : list (list Position) }.

(** [a !== b] on the two numbers of a position. *)
Definition differ (a b : Position) : bool :=
  negb (a.1 =? b.1)%float || negb (a.2 =? b.2)%float.

(** The checks of [polygon] on one ring: at least 4 positions, the last
    one equal to the first. *)
Definition check_ring (ring : list Position) : JS.completion unit :=
  if bool_decide (length ring < 4)
  then JS.Throw (JS.Error "Each LinearRing of a Polygon must have 4 or more Positions.")
  else
    match head ring, last ring with
    | Some first, Some last_ =>
        if differ last_ first
        then JS.Throw (JS.Error "First and last Position are not equivalent.")
        else JS.Normal ()
    | _, _ => JS.Normal ()
    end.

Fixpoint check_rings (coordinates : list (list Position)) : JS.completion unit :=
  match coordinates with
  | [] => JS.Normal ()
  | ring :: others => check_ring ring;; check_rings others
  end.

(** [polygon(coordinates)] of [@turf/helpers]. *)
Definition polygon (coordinates : list (list Position)) : JS.completion Polygon :=
  check_rings coordinates;; JS.Normal {| rings := coordinates |}.

(** [multiLineString(coordinates, { id, stroke })]. *)
Record MultiLineString : Type := multiLineString {
  lines : list (list Position);
  feature_id : string;
  feature_stroke : string
}.

Record FeatureCollection : Type := featureCollection {
  features : list MultiLineString
}.

(** The functions the worker imports.  A coordinate argument can be
    [undefined] in the caller, so [distance] takes options.  The
    functions that build a line can refuse their arguments.  One refusal
    decides a property below: [lineSliceAlong] looks for the position in
    front of the first one when the start distance is negative, and
    throws. *)
Class API : Type := {
  length : LineString → float;
  lineSliceAlong : LineString → float → float → JS.completion LineString;
  lineOffset : LineString → float → JS.completion LineString;
  distance : option Position → option Position → float;
  booleanIntersects : Polygon → LineString → bool;
  (** [smooth(path, { iteration, factor })] of [to-smooth] *)
  smooth : list Position → nat → float → JS.completion (list Position);
  lineSliceAlong_before_start line startDist stopDist :
    (startDist <? 0)%float = true →
    lineSliceAlong line startDist stopDist = JS.Throw (JS.Error "coord is required")
}.

End turf.

(** ** Geometry helpers of the worker *)

Section geometry.
Context `{turf.API}.
Local Open Scope float_scope.

Definition ProcessOffsetLines (lineString : turf.LineString)
    (flags_should_smooth : bool) : JS.completion (list turf.Position) :=
  if flags_should_smooth
  then turf.smooth (turf.coordinates lineString) 2 0.75
  else mret (turf.coordinates lineString).

Definition ClipLine (line : turf.LineString) (clipdist : float)
    : JS.completion turf.LineString :=
  let LineLength := turf.length line in
  let MinLineLength := LineLength / 3 in
  if (MinLineLength <=? clipdist)
     || bool_decide (length (turf.coordinates line) < 4)%nat
  then mret line
  else
    let StartDistance := JS.Math_min MinLineLength clipdist in
    let EndDistance := JS.Math_max (MinLineLength * 2) (LineLength - clipdist) in
    turf.lineSliceAlong line StartDistance EndDistance.

End geometry.

Section ScaleSpacing.
Context `{JS.Engine}.
Local Open Scope float_scope.

Definition ScaleSpacing (width zoom : float) : float :=
  let w := JS.Math_max 1 width in
  let z := JS.Math_round (zoom * 100) / 100 in
  let numerator := 0.025 * JS.Number_exponentiate w 2 - 0.04 * w + 0.1 in
  let scalef := numerator / JS.Number_exponentiate 2 (z - 10) in
  scalef.

End ScaleSpacing.

(** ** Colour order *)

(** One summand of the luminosity without its weight:
    [Math.pow(parseInt(digits, 16) / 255, 2.2)].  It is [NaN] when
    [parseInt] is, and when the parsed number is negative (a negative base
    under a fractional exponent). *)
Definition channel (digits : string) : option R :=
  n ← JS.parseInt16 digits;
  if bool_decide (0 ≤ n)%Z then Some (JS.Math_pow (IZR n / 255) 2.2) else None.

Definition luminosity (a : string) : option R :=
  r ← channel (JS.String_substring a 1 2);
  g ← channel (JS.String_substring a 3 2);
  b ← channel (JS.String_substring a 5 2);
  Some (0.2126 * r + 0.7152 * g + 0.0722 * b)%R.

(** The comparison function handed to [sort]: [luminosityA - luminosityB],
    [NaN] when one of the two is. *)
Definition compare_luminosity (a b : string) : option R :=
  luminosityA ← luminosity a;
  luminosityB ← luminosity b;
  Some (luminosityA - luminosityB)%R.

(** ** The worker *)

Record Worker : Type := {
  LineSegments : JsMap.t LineSegment;
  LineConnections : list LineConnection
}.

(** What the worker posts to its host. *)
Module Msg.
Inductive t : Type :=
| add_loading_item
| remove_loading_item
| finished_init
| rendered (data : turf.FeatureCollection).
End Msg.

(** A method of the worker: it reads and updates the fields of [this],
    posts messages, and returns or throws. *)
Record Run (A : Type) : Type := {
  this : Worker;
  posted : list Msg.t;
  outcome : JS.completion A
}.
Arguments this {A} _.
Arguments posted {A} _.
Arguments outcome {A} _.

Definition Eff (A : Type) : Type := Worker → Run A.

Global Instance Eff_ret : MRet Eff := λ A a w,
  {| this := w; posted := []; outcome := JS.Normal a |}.

Global Instance Eff_bind : MBind Eff := λ A B k c w,
  let r := c w in
  match outcome r with
  | JS.Normal a =>
      let r' := k a (this r) in
      {| this := this r'; posted := posted r ++ posted r'; outcome := outcome r' |}
  | JS.Throw e => {| this := this r; posted := posted r; outcome := JS.Throw e |}
  end.

Definition postMessage (m : Msg.t) : Eff unit := λ w,
  {| this := w; posted := [m]; outcome := JS.Normal () |}.

Definition get_this : Eff Worker := λ w,
  {| this := w; posted := []; outcome := JS.Normal w |}.

Definition set_LineSegments (v : JsMap.t LineSegment) : Eff unit := λ w,
  {| this := {| LineSegments := v; LineConnections := LineConnections w |};
     posted := []; outcome := JS.Normal () |}.

Definition set_LineConnections (v : list LineConnection) : Eff unit := λ w,
  {| this := {| LineSegments := LineSegments w; LineConnections := v |};
     posted := []; outcome := JS.Normal () |}.

(** A call that only computes: its exception, if any, is the method's. *)
Definition call {A} (c : JS.completion A) : Eff A := λ w,
  {| this := w; posted := []; outcome := c |}.

Definition add_loading_item : Eff unit := postMessage Msg.add_loading_item.
Definition remove_loading_item : Eff unit := postMessage Msg.remove_loading_item.

(** [new LinesRendererWorker()]. *)
Definition new_worker : Worker :=
  {| LineSegments := JsMap.empty; LineConnections := [] |}.

Definition processTopologies (data : topojsonExport) : Eff unit :=
  add_loading_item;;
  set_LineSegments JsMap.empty;;
  set_LineConnections [];;
  line_connections ← call (extractLineConnections data);
  let line_segments := ExtractLineSegments data in
  w ← get_this;
  set_LineSegments
    (foldl (λ m entry, JsMap.set m entry.1 entry.2)
           (LineSegments w) (JsMap.entries line_segments));;
  w ← get_this;
  set_LineConnections
    (foldl (λ conns connection, conns ++ [connection])
           (LineConnections w) line_connections);;
  remove_loading_item.

Definition message_init (data : topojsonExport) : Eff unit :=
  processTopologies data;;
  postMessage Msg.finished_init.

(** ** Rendering *)

(** The two maps a render call builds. *)
Record RenderMaps : Type := {
  RenderedColourLine : JsMap.t (list (list turf.Position));
  ColourSegmentsEndpoints : gmap string (option turf.Position)
}.

(** [ColourSegmentsEndpoints.set(key, value)]. *)
Definition set_endpoint (key : string) (value : option turf.Position)
    (maps : RenderMaps) : RenderMaps :=
  {| RenderedColourLine := RenderedColourLine maps;
     ColourSegmentsEndpoints := <[key := value]> (ColourSegmentsEndpoints maps) |}.

(** [ColourSegmentsEndpoints.get(key)]: [undefined] for a missing key, and
    for a key that holds [undefined]. *)
Definition get_endpoint (registry : gmap string (option turf.Position))
    (key : string) : option turf.Position :=
  mjoin (registry !! key).

Definition is_undefined {A} (v : option A) : bool :=
  match v with None => true | Some _ => false end.
Section renderLines.
Context `{JS.Engine} `{turf.API}.
Local Open Scope float_scope.

(** The end of the body of the inner loop: the six entries of the
    registry and the line of the colour. *)
Definition record_line (segment_id color : string)
    (line_processed : list turf.Position)
    (line_clipped_offset line_clipped_ofset_buffer : turf.LineString)
    (maps : RenderMaps) : RenderMaps :=
  let last {A} (arr : list A) := JS.Array_at arr (Z.of_nat (length arr) - 1) in
  let maps := set_endpoint (segment_id +:+ ":" +:+ color +:+ ":top")
                (JS.Array_at line_processed 0) maps in
  let maps := set_endpoint (segment_id +:+ ":" +:+ color +:+ ":top:invasive")
                (JS.Array_at (turf.coordinates line_clipped_offset) 0) maps in
  let maps := set_endpoint (segment_id +:+ ":" +:+ color +:+ ":top:buffer")
                (JS.Array_at (turf.coordinates line_clipped_ofset_buffer) 0) maps in
  let maps := set_endpoint (segment_id +:+ ":" +:+ color +:+ ":bottom")
                (last line_processed) maps in
  let maps := set_endpoint (segment_id +:+ ":" +:+ color +:+ ":bottom:invasive")
                (last (turf.coordinates line_clipped_offset)) maps in
  let maps := set_endpoint (segment_id +:+ ":" +:+ color +:+ ":bottom:buffer")
                (last (turf.coordinates line_clipped_ofset_buffer)) maps in
  {| RenderedColourLine :=
       match JsMap.get (RenderedColourLine maps) color with
       | Some rendered_lines =>
           (* [RenderedColourLine.get(color).push(line_processed)] *)
           JsMap.set (RenderedColourLine maps) color (rendered_lines ++ [line_processed])
       | None => JsMap.set (RenderedColourLine maps) color [line_processed]
       end;
     ColourSegmentsEndpoints := ColourSegmentsEndpoints maps |}.

(** The body of the inner loop, for the colour at index [i]. *)
Definition render_color (spacing : float) (flags_should_smooth : bool)
    (segment_id : string) (line_clipped : turf.LineString)
    (linespace : float) (totallines : nat)
    (maps : RenderMaps) (i : nat) (color : string) : JS.completion RenderMaps :=
  let lineoffset :=
    JS.Number_of_nat i * linespace
    - ((JS.Number_of_nat totallines - 1) * linespace) / 2 in
  line_clipped_offset ← turf.lineOffset line_clipped lineoffset;
  line_clipped_ofset_buffer ←
    ClipLine line_clipped_offset (JS.Math_max 0.049 (spacing * 5) * 2);
  line_clipped_ofset_invasive ←
    ClipLine line_clipped_ofset_buffer (JS.Math_max 0.049 (spacing * 5) * 2);
  line_processed ←
    ProcessOffsetLines line_clipped_ofset_invasive flags_should_smooth;
  mret (record_line segment_id color line_processed
          line_clipped_offset line_clipped_ofset_buffer maps).

(** The inner loop, over the colours with their indices; it stops at the
    first exception. *)
Fixpoint render_colors (spacing : float) (flags_should_smooth : bool)
    (segment_id : string) (line_clipped : turf.LineString)
    (linespace : float) (totallines : nat)
    (maps : RenderMaps) (indexed : list (nat * string)) : JS.completion RenderMaps :=
  match indexed with
  | [] => mret maps
  | (i, color) :: rest =>
      maps ← render_color spacing flags_should_smooth segment_id line_clipped
               linespace totallines maps i color;
      render_colors spacing flags_should_smooth segment_id line_clipped
        linespace totallines maps rest
  end.

Definition shouldReverseColor (segment : LineSegment) : bool :=
  (turf.distance (Some (0, 0))
     (JS.Array_at (geometry segment) (Z.of_nat (length (geometry segment)) - 1))
   <? turf.distance (Some (0, 0)) (JS.Array_at (geometry segment) 0)).

(** [segment.colors.sort(...)]: the value of the call.  The call also
    leaves this array in [segment.colors], see [render_segment]. *)
Definition colors_sorted_by_luminosity (segment : LineSegment) : list string :=
  JS.Array_sort compare_luminosity (colors segment).

Definition colors_sorted (segment : LineSegment) : list string :=
  if shouldReverseColor segment
  then reverse (colors_sorted_by_luminosity segment)
  else colors_sorted_by_luminosity segment.

(** The body of the loop over [this.LineSegments.entries()].  It gives
    the segment as the body leaves it, and the maps or the exception that
    ends the body: [sort] sorts the stored array itself, so
    [segment.colors] is the sorted array from then on, also when a later
    call throws.  The inner loop runs [i] over the [totallines] indices
    of [colors], which has as many elements. *)
Definition render_segment (spacing : float) (viewport : turf.Polygon)
    (maps : RenderMaps) (segment_id : string) (segment : LineSegment)
    : LineSegment * JS.completion RenderMaps :=
  let flags_should_smooth := spacing <? 0.007 in
  let shouldSortColors := true in
  match turf.lineString (geometry segment) with
  | JS.Throw fault => (segment, JS.Throw fault)
  | JS.Normal line =>
      if negb (turf.booleanIntersects viewport line) then (segment, mret maps)
      else
        let colors_ := colors_sorted segment in
        let segment :=
          {| geometry := geometry segment; top := top segment;
             bottom := bottom segment;
             colors := colors_sorted_by_luminosity segment |} in
        let colors_ := if shouldSortColors : bool then colors_ else colors segment in
        let linespace := spacing * 2 in
        let totallines := length (colors segment) in
        (segment,
         line_clipped ← ClipLine line (JS.Math_max 0.0049 (spacing * 5) * 6);
         render_colors spacing flags_should_smooth segment_id line_clipped
           linespace totallines maps (zip (seq 0 totallines) colors_))
  end.

(** The first loop of [renderLines]: the entries as it leaves them, and
    the two maps or the exception that ends the loop.  The segments
    behind the one whose body throws are not reached. *)
Fixpoint render_segments (spacing : float) (viewport : turf.Polygon)
    (entries : list (string * LineSegment)) (maps : RenderMaps)
    : list (string * LineSegment) * JS.completion RenderMaps :=
  match entries with
  | [] => ([], mret maps)
  | entry :: rest =>
      let r := render_segment spacing viewport maps entry.1 entry.2 in
      match r.2 with
      | JS.Normal maps =>
          let rs := render_segments spacing viewport rest maps in
          ((entry.1, r.1) :: rs.1, rs.2)
      | JS.Throw fault => ((entry.1, r.1) :: rest, JS.Throw fault)
      end
  end.

Definition endpoint_key (endpoint : Z * string) (color : string) : string :=
  "Segment:" +:+ JS.Number_toString endpoint.1 +:+ ":" +:+ color +:+ ":" +:+ endpoint.2.

Definition connection_coords (registry : gmap string (option turf.Position))
    (connection : LineConnection) : list (option turf.Position) :=
  [ get_endpoint registry (endpoint_key (from connection) (color connection));
    get_endpoint registry (endpoint_key (from connection) (color connection) +:+ ":buffer");
    get_endpoint registry (endpoint_key (from connection) (color connection) +:+ ":invasive");
    get_endpoint registry (endpoint_key (to connection) (color connection) +:+ ":invasive");
    get_endpoint registry (endpoint_key (to connection) (color connection) +:+ ":buffer");
    get_endpoint registry (endpoint_key (to connection) (color connection)) ].

(** The body of the loop over [this.LineConnections].  [push] on the
    result of a [get] that found nothing throws, before the argument of
    the call is computed. *)
Definition stitch_connection (spacing : float)
    (registry : gmap string (option turf.Position))
    (rendered : JsMap.t (list (list turf.Position)))
    (connection : LineConnection)
    : JS.completion (JsMap.t (list (list turf.Position))) :=
  let flags_should_smooth_coords := spacing <? 0.11 in
  let coords := connection_coords registry connection in
  if negb (existsb is_undefined coords) then
    match JsMap.get rendered (color connection) with
    | Some rendered_lines =>
        let chain := omap (λ c, c) coords in
        line ← (if flags_should_smooth_coords
                then turf.smooth chain 7 0.75 else mret chain);
        mret (JsMap.set rendered (color connection) (rendered_lines ++ [line]))
    | None =>
        JS.Throw (JS.TypeError "Cannot read properties of undefined (reading 'push')")
    end
  else mret rendered.

Fixpoint stitch_connections (spacing : float)
    (registry : gmap string (option turf.Position))
    (rendered : JsMap.t (list (list turf.Position)))
    (connections : list LineConnection)
    : JS.completion (JsMap.t (list (list turf.Position))) :=
  match connections with
  | [] => mret rendered
  | connection :: rest =>
      rendered ← stitch_connection spacing registry rendered connection;
      stitch_connections spacing registry rendered rest
  end.

(** [renderLines] from the line after the clamp: everything below uses
    the clamped [spacing] only.  The segments are the objects the map
    holds, so what the first loop did to them stays when it throws. *)
Definition render_at (spacing : float) (viewbox : list turf.Position)
    : Eff turf.FeatureCollection :=
  viewport ← call (turf.polygon [viewbox]);
  w ← get_this;
  let r := render_segments spacing viewport (JsMap.entries (LineSegments w))
             {| RenderedColourLine := JsMap.empty; ColourSegmentsEndpoints := ∅ |} in
  set_LineSegments r.1;;
  maps ← call r.2;
  RenderedColourLine_ ←
    call (stitch_connections spacing (ColourSegmentsEndpoints maps)
            (RenderedColourLine maps) (LineConnections w));
  let rendered :=
    (λ entry, turf.multiLineString entry.2 entry.1 entry.1)
      <$> JsMap.entries RenderedColourLine_ in
  remove_loading_item;;
  mret (turf.featureCollection rendered).

Definition renderLines (RequestedSpacing : float) (viewbox : list turf.Position)
    : Eff turf.FeatureCollection :=
  add_loading_item;;
  let spacing := JS.Math_max 0.00005 (JS.Math_min 0.3 RequestedSpacing) in
  render_at spacing viewbox.

Definition message_request_render (line_width zoom : float)
    (viewbox : list turf.Position) : Eff unit :=
  let spacing := ScaleSpacing line_width zoom in
  rendered ← renderLines spacing viewbox;
  postMessage (Msg.rendered rendered).

End renderLines.

(** ** The specification's wording, for comparison with the code *)

Module Spec.

(** "the set of colors of every route whose reference list contains that
    index (in either sign)", deduplicated. *)
Definition segment_colors (TopoJsonLines : topojsonExport) (i : Z) : list string :=
  remove_dups
    ((λ line, stroke (properties line))
       <$> filter (λ line, i ∈ line_arcs line ∨ (- i - 1)%Z ∈ line_arcs line)
             (geometries TopoJsonLines)).

(** The value of the two hexadecimal digits of [color] that start at
    index [start], over 255 and raised to 2.2. *)
Definition channel (color : string) (start : nat) : option R :=
  n ← JS.parseInt16 (String.substring start 2 color);
  Some (JS.Math_pow (IZR n / 255) 2.2).

(** "L = 0.2126 (R/255)^2.2 + 0.7152 (G/255)^2.2 + 0.0722 (B/255)^2.2
    using the sRGB channel values parsed from hex". *)
Definition luminance (color : string) : option R :=
  r ← channel color 1;
  g ← channel color 3;
  b ← channel color 5;
  Some (0.2126 * r + 0.7152 * g + 0.0722 * b)%R.

Definition compare_luminance (a b : string) : option R :=
  la ← luminance a;
  lb ← luminance b;
  Some (la - lb)%R.

(** "sort colors ascending by L", and "if [the start point is farther
    from the origin than the end point], reverse the luminosity-sorted
    order". *)
Definition color_order `{JS.Engine} (start_is_farther : bool) (colors : list string)
    : list string :=
  let sorted := JS.Array_sort compare_luminance colors in
  if start_is_farther then reverse sorted else sorted.

(** "clamped to [0.00005, 0.3]". *)
Definition clamp (x lo hi : float) : float :=
  if (x <? lo)%float then lo else if (hi <? x)%float then hi else x.

End Spec.

(** ** A small instance of the geometry interface
    Lines are measured along the first coordinate only: the length of a
    line is the distance between the first coordinates of its two ends, and
    a slice is the two-point line between the requested distances, kept
    before the end of the line.  A slice that starts before the line is
    refused.  Offsetting and smoothing change nothing, every line meets
    every viewport. *)

Module Flat.

Section geometry.
Local Open Scope float_scope.

Definition length (line : turf.LineString) : float :=
  PrimFloat.abs ((List.last (turf.coordinates line) (turf.first_position line)).1
       - (turf.first_position line).1).

Definition lineSliceAlong (line : turf.LineString) (start stop : float)
    : JS.completion turf.LineString :=
  if start <? 0 then JS.Throw (JS.Error "coord is required")
  else turf.lineString [(start, 0); (JS.Math_min stop (length line), 0)].

Definition distance (a b : option turf.Position) : float :=
  match a, b with
  | Some p, Some q => PrimFloat.abs (q.1 - p.1) + PrimFloat.abs (q.2 - p.2)
  | _, _ => 0
  end.

End geometry.

Definition api : turf.API.
Proof.
  refine
    {| turf.length := length;
       turf.lineSliceAlong := lineSliceAlong;
       turf.lineOffset := λ line _, JS.Normal line;
       turf.distance := distance;
       turf.booleanIntersects := λ _ _, true;
       turf.smooth := λ path _ _, JS.Normal path |}.
  intros line startDist stopDist Hbefore. unfold lineSliceAlong.
  by rewrite Hbefore.
Defined.

End Flat.

(** ** Sample inputs *)

Module Samples.

Section engine.
Local Open Scope float_scope.

(** [x] to a positive whole power, by squaring. *)
Fixpoint power_of (x : float) (n : positive) : float :=
  match n with
  | xH => x
  | xO n => let y := power_of x n in y * y
  | xI n => let y := power_of x n in x * (y * y)
  end.

(** [x] to a power between 0 and 1, read off the binary digits of the
    exponent: the product of the roots [x^(1/2)], [x^(1/4)], ... at the
    digits that are 1. *)
Fixpoint root_power_of (digits : nat) (root fraction product : float) : float :=
  match digits with
  | 0%nat => product
  | S digits =>
      let root := PrimFloat.sqrt root in
      let fraction := fraction * 2 in
      if 1 <=? fraction
      then root_power_of digits root (fraction - 1) (product * root)
      else root_power_of digits root fraction product
  end.

(** The whole part of a double that is not negative. *)
Definition whole_part (x : float) : Z :=
  match Prim2SF x with
  | S754_finite _ m e => Z.shiftl (Z.pos m) e
  | _ => 0
  end.

(** An approximation of [base ** exponent] for a positive base. *)
Definition exponentiate (base exponent : float) : float :=
  let magnitude := PrimFloat.abs exponent in
  let whole := whole_part magnitude in
  let power :=
    match whole with
    | Z.pos n => power_of base n
    | _ => 1
    end * root_power_of 52 base (magnitude - JS.Number_of_Z whole) 1 in
  if exponent <? 0 then 1 / power else power.

End engine.

(** An engine whose [sort] leaves the array as it is when the comparison
    function is not consistent. *)
Definition engine : JS.Engine :=
  {| JS.exponentiate_approximated := exponentiate;
     JS.sort_implementation_defined := λ _ _ arr, arr;
     JS.sort_implementation_defined_Permutation := λ _ _ arr, Permutation_refl arr |}.

Definition route (refs : list Z) (color : string) : TopoLine :=
  {| line_arcs := refs;
     properties := {| stroke := color; title := ""; agency := "" |} |}.

Definition topology (routes : list TopoLine) (arc_table : list (list coordpair))
    : topojsonExport :=
  {| geometries := routes; arcs := arc_table;
     bbox := (0, 0, 0, 0)%float; upperBounds := (0, 0)%float |}.

(** The end-to-end scenario of the specification: two arcs, one red
    route over both, forward. *)
Definition two_arcs : topojsonExport :=
  topology [route [0; 1]%Z "#FF0000"]
           [[(0, 0); (1, 1)]; [(1, 1); (2, 2)]]%float.

(** A route that takes the transition from arc 0 to arc 1 twice. *)
Definition back_and_forth : topojsonExport :=
  topology [route [0; 1; -1; 0; 1]%Z "#FF0000"]
           [[(0, 0); (1, 1)]; [(1, 1); (2, 2)]]%float.

(** One arc, and one route that runs over it reversed. *)
Definition reversed_only : topojsonExport :=
  topology [route [-1]%Z "#FF0000"] [[(0, 0); (1, 1)]]%float.

(** A route without arc references. *)
Definition empty_route : topojsonExport :=
  topology [route [] "#FF0000"] [[(0, 0); (1, 1)]]%float.

(** A worker that holds one segment with two colours and no connection. *)
Definition white_then_black : Worker :=
  {| LineSegments :=
       [("Segment:0",
         {| geometry := [(0, 0); (1, 1)]%float;
            top := Some (0, 0)%float; bottom := Some (1, 1)%float;
            colors := ["#FFFFFF"; "#000000"] |})];
     LineConnections := [] |}.

(** A new worker after the [init] message for [two_arcs]. *)
Definition ingested_two_arcs : Worker :=
  this (message_init two_arcs new_worker).

(** A new worker after the [init] message for [back_and_forth]. *)
Definition ingested_back_and_forth : Worker :=
  this (message_init back_and_forth new_worker).

(** An arc with one coordinate, and one route over it. *)
Definition one_point_arc : topojsonExport :=
  topology [route [0]%Z "#FF0000"] [[(0, 0)]]%float.

(** A new worker after the [init] message for [one_point_arc]. *)
Definition ingested_one_point_arc : Worker :=
  this (message_init one_point_arc new_worker).

(** A viewport around the sample arcs: a closed ring of five positions. *)
Definition viewbox : list turf.Position :=
  [(-1, -1); (3, -1); (3, 3); (-1, 3); (-1, -1)]%float.


End Samples.

(** ** Notions used in the statements *)

Section after_render.
Context `{JS.Engine} `{turf.API}.

(** The geometry of the segment makes a line, and the line meets the
    viewport: the body of the first loop of [renderLines] goes on to the
    colours of the segment. *)
Definition meets (viewport : turf.Polygon) (segment : LineSegment) : bool :=
  match turf.lineString (geometry segment) with
  | JS.Normal line => turf.booleanIntersects viewport line
  | JS.Throw _ => false
  end.

(** The segment as the body of the first loop of [renderLines] leaves
    it. *)
Definition segment_after_render (viewport : turf.Polygon) (segment : LineSegment)
    : LineSegment :=
  if meets viewport segment
  then {| geometry := geometry segment; top := top segment;
          bottom := bottom segment;
          colors := colors_sorted_by_luminosity segment |}
  else segment.

(** The two maps when the first loop of [renderLines] is over, or the
    exception that ended the render before. *)
Definition maps_after_segments (w : Worker) (spacing : float)
    (viewbox : list turf.Position) : JS.completion RenderMaps :=
  viewport ← turf.polygon [viewbox];
  (render_segments spacing viewport (JsMap.entries (LineSegments w))
     {| RenderedColourLine := JsMap.empty; ColourSegmentsEndpoints := ∅ |}).2.

(** The viewbox makes a viewport, and the line of the segment meets
    it. *)
Definition visible (viewbox : list turf.Position) (segment : LineSegment) : Prop :=
  ∃ viewport,
    turf.polygon [viewbox] = JS.Normal viewport ∧ meets viewport segment = true.

(** The colours a render draws, in the order in which the first loop of
    [renderLines] meets them: segment by segment, the colours of each
    segment that meets the viewport in their stacking order. *)
Definition drawn_colors (viewport : turf.Polygon)
    (entries : list (string * LineSegment)) : list string :=
  entries ≫= λ entry,
    if meets viewport entry.2 then colors_sorted entry.2 else [].

(** The segment with the id of the endpoint is stored, meets the viewport
    and carries the colour. *)
Definition drawn (w : Worker) (viewbox : list turf.Position)
    (endpoint : Z * string) (color_ : string) : Prop :=
  ∃ segment,
    (segment_key endpoint.1, segment) ∈ LineSegments w
    ∧ visible viewbox segment ∧ color_ ∈ colors segment.

End after_render.

(** The number of colons in a string. *)
Fixpoint colons (s : string) : nat :=
  match s with
  | EmptyString => 0
  | String c rest => (if decide (c = ":"%char) then 1 else 0) + colons rest
  end.

(** [prev] is directly followed by [cur] in [refs]. *)
Definition adjacent (refs : list Z) (prev cur : Z) : Prop :=
  ∃ before after, refs = before ++ prev :: cur :: after.

(** The connection of an adjacent pair, in the words of the directional
    derivation rule. *)
Definition derived_connection (route_color : string) (prev cur : Z) : LineConnection :=
  {| from := (if decide (0 ≤ prev)%Z then prev else (- prev - 1)%Z,
              if decide (0 ≤ prev)%Z then "bottom" else "top");
     to := (if decide (0 ≤ cur)%Z then cur else (- cur - 1)%Z,
            if decide (0 ≤ cur)%Z then "top" else "bottom");
     color := route_color |}.

(** The deduplication key, as a function of the connection. *)
Definition connection_key (connection : LineConnection) : string :=
  JS.Array_join ":"
    [color connection;
     JS.Number_toString (from connection).1; (from connection).2;
     JS.Number_toString (to connection).1; (to connection).2].

(** Both endpoint tags of the connection are [top] or [bottom]. *)
Definition tagged (connection : LineConnection) : Prop :=
  (from connection).2 ∈ ["top"; "bottom"] ∧ (to connection).2 ∈ ["top"; "bottom"].

(** What one call of the callback does to (Connections, ConnectionsDedupe). *)
Definition dedupe_push (st : list LineConnection * list string)
    (connection : LineConnection) : list LineConnection * list string :=
  if negb (JS.Array_includes st.2 (connection_key connection))
  then (st.1 ++ [connection], st.2 ++ [connection_key connection])
  else st.

(** The connections of the adjacent pairs of one route, in order. *)
Definition route_connections (line : TopoLine) : list LineConnection :=
  (λ pair, connection_of line pair.1 pair.2)
    <$> zip (line_arcs line) (tail (line_arcs line)).

(** The worker holds a topology as ingestion leaves it: the keys of its
    segments are segment keys, the endpoint tags of its connections are
    [top] or [bottom]. *)
Definition as_ingested (w : Worker) : Prop :=
  Forall (λ entry, ∃ i : Z, entry.1 = segment_key i) (LineSegments w)
  ∧ Forall tagged (LineConnections w).

(** The states of the worker: a new worker, and its state after any
    sequence of [init] and [request_render] messages. *)
Inductive reachable `{JS.Engine} `{turf.API} : Worker → Prop :=
| reachable_new : reachable new_worker
| reachable_init w data :
    reachable w → reachable (this (message_init data w))
| reachable_render w line_width zoom viewbox :
    reachable w → reachable (this (message_request_render line_width zoom viewbox w)).

(** The six endings of a registry key after the colour. *)
Definition endpoint_suffixes : list string :=
  [":top"; ":top:invasive"; ":top:buffer";
   ":bottom"; ":bottom:invasive"; ":bottom:buffer"].

(** A hexadecimal digit, as [parseInt(_, 16)] reads one. *)
Definition is_hex (c : ascii) : Prop := is_Some (JS.hex_digit c).

(** The luminosity of a colour when it is a number. *)
Definition luminosity_value (a : string) : R := default 0%R (luminosity a).

(** The worker holds distinct segments with distinct colours, and distinct
    connections with segment ids that are not negative. *)
Definition well_formed (w : Worker) : Prop :=
  NoDup (LineSegments w).*1
  ∧ Forall (λ entry, NoDup (colors entry.2)) (LineSegments w)
  ∧ NoDup (LineConnections w)
  ∧ Forall (λ connection, (0 ≤ (from connection).1)%Z ∧ (0 ≤ (to connection).1)%Z)
      (LineConnections w).

(** Every key of the registry was set for a segment key and a colour that
    satisfy [Q]. *)
Definition set_for (Q : string → string → Prop)
    (registry : gmap string (option turf.Position)) : Prop :=
  ∀ key, is_Some (registry !! key) →
    ∃ segment_id color_ suffix,
      key = segment_id +:+ ":" +:+ color_ +:+ suffix
      ∧ suffix ∈ endpoint_suffixes
      ∧ Q segment_id color_.

(** The six keys of a segment key and a colour are in the registry. *)
Definition has_keys (segment_id color_ : string)
    (registry : gmap string (option turf.Position)) : Prop :=
  ∀ suffix, suffix ∈ endpoint_suffixes →
    is_Some (registry !! (segment_id +:+ ":" +:+ color_ +:+ suffix)).

(** No key of the registry holds [undefined]. *)
Definition all_defined (registry : gmap string (option turf.Position)) : Prop :=
  ∀ key value, registry !! key = Some value → is_Some value.

(** What the inner loop of [renderLines] records for one colour of one
    segment: the processed line, the offset line it was clipped from and
    the buffer line between the two. *)
Record Recorded : Type := {
  recorded_segment : string;
  recorded_color : string;
  recorded_processed : list turf.Position;
  recorded_offset : turf.LineString;
  recorded_buffer : turf.LineString
}.

(** The maps after a sequence of records. *)
Definition record_all (maps : RenderMaps) (records : list Recorded) : RenderMaps :=
  foldl (λ maps r,
          record_line (recorded_segment r) (recorded_color r)
            (recorded_processed r) (recorded_offset r) (recorded_buffer r) maps)
        maps records.

Definition recorded_pair (r : Recorded) : string * string :=
  (recorded_segment r, recorded_color r).

(** The two maps at the start of a render. *)
Definition no_maps : RenderMaps :=
  {| RenderedColourLine := JsMap.empty; ColourSegmentsEndpoints := ∅ |}.

(** The connection has the colour [c], and its six lookups in the
    registry all return a value. *)
Definition stitches (registry : gmap string (option turf.Position))
    (c : string) (connection : LineConnection) : Prop :=
  color connection = c ∧ Forall is_Some (connection_coords registry connection).

#[global] Instance stitches_dec registry c connection :
  Decision (stitches registry c connection).
Proof. unfold stitches. apply _. Defined.

Section drawn_pairs.
Context `{JS.Engine} `{turf.API}.

(** The processed line of a record came out of [ProcessOffsetLines]. *)
Definition processed (flag : bool) (r : Recorded) : Prop :=
  ∃ line, ProcessOffsetLines line flag = JS.Normal (recorded_processed r).

(** The segment keys and colours the first loop of [renderLines] goes
    through, in its order. *)
Definition drawn_pairs (viewport : turf.Polygon)
    (entries : list (string * LineSegment)) : list (string * string) :=
  entries ≫= λ entry,
    (λ c, (entry.1, c))
      <$> (if meets viewport entry.2 then colors_sorted entry.2 else []).

(** The polyline the second loop appends for a chain of points. *)
Definition stitched (spacing : float) (points : list turf.Position)
    : JS.completion (list turf.Position) :=
  if (spacing <? 0.11)%float then turf.smooth points 7 0.75 else JS.Normal points.

(** [line] is the polyline of the connection: its six lookups return the
    chain [points], from.actual, from.buffer, from.invasive, to.invasive,
    to.buffer, to.actual, and [line] is the chain, smoothed when the
    spacing is below 0.11. *)
Definition chain_of (spacing : float)
    (registry : gmap string (option turf.Position))
    (connection : LineConnection) (line : list turf.Position) : Prop :=
  ∃ points,
    connection_coords registry connection = Some <$> points
    ∧ stitched spacing points = JS.Normal line.

End drawn_pairs.

(** * Properties *)

(** ** The order of doubles *)

Section doubles.
Local Open Scope float_scope.

Lemma SFcompare_antisym x y c :
  SFcompare x y = Some c → SFcompare y x = Some (CompOpp c).
Proof.
  destruct x as [sx|sx| |sx mx ex], y as [sy|sy| |sy my ey]; simpl;
    try discriminate; intros [= <-]; try (by destruct sx, sy);
    try (by destruct sx); try (by destruct sy).
  f_equal. rewrite (Z.compare_antisym ex ey).
  destruct sx, sy, (ex ?= ey)%Z; simpl; try done.
  - by rewrite CompOpp_involutive, Pos.compare_cont_antisym.
  - by rewrite Pos.compare_cont_antisym.
Qed.

Lemma SFcompare_Lt_trans x y z :
  SFcompare x y = Some Lt → SFcompare y z = Some Lt → SFcompare x z = Some Lt.
Proof.
  destruct x as [sx|sx| |sx mx ex], y as [sy|sy| |sy my ey],
    z as [sz|sz| |sz mz ez]; simpl; try discriminate;
    try (by destruct sx, sy, sz).
  destruct sx, sy, sz; try done; intros [= Hxy] [= Hyz]; f_equal;
    rewrite ?Pos.compare_cont_spec in *; simpl in *;
    destruct (Z.compare_spec ex ey), (Z.compare_spec ey ez),
      (Z.compare_spec ex ez); try done; try lia; subst;
    destruct (Pos.compare_spec mx my), (Pos.compare_spec my mz),
      (Pos.compare_spec mx mz); try done; try lia.
Qed.

Lemma ltb_Lt x y : (x <? y) = true ↔ SFcompare (Prim2SF x) (Prim2SF y) = Some Lt.
Proof.
  rewrite FloatAxioms.ltb_spec. unfold SFltb.
  destruct (SFcompare _ _) as [[]|]; split; done.
Qed.

Lemma leb_not_Gt x y :
  (x <=? y) = true
  ↔ SFcompare (Prim2SF x) (Prim2SF y) = Some Lt
    ∨ SFcompare (Prim2SF x) (Prim2SF y) = Some Eq.
Proof.
  rewrite FloatAxioms.leb_spec. unfold SFleb.
  destruct (SFcompare _ _) as [[]|];
    (split; [intros ?; by auto|intros [?|?]; done]).
Qed.

Lemma SFcompare_refl x : x ≠ S754_nan → SFcompare x x = Some Eq.
Proof.
  destruct x as [s|s| |s m e]; simpl; try done; intros _; f_equal.
  - by destruct s.
  - rewrite Z.compare_refl, Pos.compare_cont_refl. by destruct s.
Qed.

Lemma is_nan_Prim2SF x : PrimFloat.is_nan x = true ↔ Prim2SF x = S754_nan.
Proof.
  unfold PrimFloat.is_nan. rewrite FloatAxioms.eqb_spec. unfold SFeqb.
  destruct (Prim2SF x) as [s|s| |s m e] eqn:Hx; [| |done|];
    rewrite SFcompare_refl by done; done.
Qed.

Lemma is_nan_compare x y :
  SFcompare (Prim2SF x) (Prim2SF y) = None
  ↔ PrimFloat.is_nan x = true ∨ PrimFloat.is_nan y = true.
Proof.
  rewrite !is_nan_Prim2SF.
  destruct (Prim2SF x) as [sx|sx| |sx mx ex], (Prim2SF y) as [sy|sy| |sy my ey];
    simpl; (split; [intros ?; by auto|intros [?|?]; done]).
Qed.

Lemma ltb_leb x y : (x <? y) = true → (x <=? y) = true.
Proof. rewrite ltb_Lt, leb_not_Gt. by left. Qed.

Lemma ltb_antisym x y : (x <? y) = true → (y <? x) = false.
Proof.
  rewrite ltb_Lt. intros Hlt%SFcompare_antisym.
  apply not_true_is_false. rewrite ltb_Lt, Hlt. done.
Qed.


Lemma ltb_trans x y z : (x <? y) = true → (y <? z) = true → (x <? z) = true.
Proof. rewrite !ltb_Lt. apply SFcompare_Lt_trans. Qed.

Lemma ltb_not_nan x y :
  (x <? y) = true → PrimFloat.is_nan x = false ∧ PrimFloat.is_nan y = false.
Proof.
  rewrite ltb_Lt. intros Hlt.
  destruct (PrimFloat.is_nan x) eqn:Hx, (PrimFloat.is_nan y) eqn:Hy; try done;
    (assert (SFcompare (Prim2SF x) (Prim2SF y) = None) as Hnone
       by (apply is_nan_compare; auto)); congruence.
Qed.


(** Two numbers are comparable: one is below the other, or they are
    equal as numbers. *)
Lemma not_ltb_leb x y :
  PrimFloat.is_nan x = false → PrimFloat.is_nan y = false →
  (x <? y) = false → (y <=? x) = true.
Proof.
  intros Hx Hy Hnot. rewrite leb_not_Gt.
  destruct (SFcompare (Prim2SF x) (Prim2SF y)) as [c|] eqn:Hc.
  - rewrite (SFcompare_antisym _ _ _ Hc). destruct c; simpl; auto.
    apply ltb_Lt in Hc. congruence.
  - apply is_nan_compare in Hc as [|]; congruence.
Qed.

End doubles.

(** ** [Math.max], [Math.min] and the clamp *)

Section clamp.
Local Open Scope float_scope.

Lemma is_nan_eq x : PrimFloat.is_nan x = true → x = nan.
Proof. intros Hx%is_nan_Prim2SF. by apply Prim2SF_inj. Qed.


(** Two numbers neither of which is below the other are the same double,
    when one of them is not a zero. *)
Lemma SFcompare_Eq_finite x s m e :
  SFcompare x (S754_finite s m e) = Some Eq → x = S754_finite s m e.
Proof.
  destruct x as [sx|sx| |sx mx ex]; simpl; try discriminate.
  - by destruct s.
  - by destruct sx.
  - destruct sx, s; try discriminate; intros [= Hc];
      destruct (Z.compare_spec ex e); try discriminate; subst;
      rewrite Pos.compare_cont_spec in Hc; simpl in Hc;
      destruct (Pos.compare_spec mx m); try discriminate; by subst.
Qed.

Lemma not_ltb_eq x y s m e :
  Prim2SF y = S754_finite s m e →
  PrimFloat.is_nan x = false →
  (x <? y) = false → (y <? x) = false → x = y.
Proof.
  intros Hy Hx Hxy Hyx. apply Prim2SF_inj. rewrite Hy.
  apply SFcompare_Eq_finite. rewrite <-Hy.
  assert (PrimFloat.is_nan y = false) as Hnum.
  { apply not_true_is_false. rewrite is_nan_Prim2SF, Hy. done. }
  destruct (SFcompare (Prim2SF x) (Prim2SF y)) as [[]|] eqn:Hc; [done| | |].
  - apply ltb_Lt in Hc. congruence.
  - apply SFcompare_antisym in Hc. apply ltb_Lt in Hc. congruence.
  - apply is_nan_compare in Hc as [|]; congruence.
Qed.

Lemma Math_min_of_number hi x :
  PrimFloat.is_nan hi = false → PrimFloat.is_nan x = false →
  (hi <? infinity) = true → JS.is_positive_zero hi = false →
  JS.Math_min hi x = if x <? hi then x else hi.
Proof.
  intros Hhi Hx Hfinite Hzero. unfold JS.Math_min. rewrite Hhi, Hx. simpl.
  unfold JS.min_step at 2. change (JS.is_positive_zero infinity) with false.
  rewrite andb_false_r, Hfinite. unfold JS.min_step.
  by rewrite Hzero, andb_false_r.
Qed.

Lemma Math_max_of_number lo x :
  PrimFloat.is_nan lo = false → PrimFloat.is_nan x = false →
  (neg_infinity <? lo) = true → JS.is_negative_zero lo = false →
  JS.Math_max lo x = if lo <? x then x else lo.
Proof.
  intros Hlo Hx Hfinite Hzero. unfold JS.Math_max. rewrite Hlo, Hx. simpl.
  unfold JS.max_step at 2. change (JS.is_negative_zero neg_infinity) with false.
  rewrite andb_false_r, Hfinite. unfold JS.max_step.
  by rewrite Hzero, andb_false_r.
Qed.

Lemma Math_min_NaN hi x : PrimFloat.is_nan x = true → JS.Math_min hi x = nan.
Proof. intros Hx. unfold JS.Math_min. by rewrite Hx, orb_true_r. Qed.

Lemma Math_max_NaN lo x : PrimFloat.is_nan x = true → JS.Math_max lo x = nan.
Proof. intros Hx. unfold JS.Math_max. by rewrite Hx, orb_true_r. Qed.

(** The clamp of [renderLines] is the clamp of the specification, on
    every double. *)
Lemma clamp_max_min x :
  JS.Math_max 0.00005 (JS.Math_min 0.3 x) = Spec.clamp x 0.00005 0.3.
Proof.
  unfold Spec.clamp.
  destruct (PrimFloat.is_nan x) eqn:Hx.
  - rewrite (Math_min_NaN _ _ Hx). rewrite (is_nan_eq _ Hx). reflexivity.
  - rewrite (Math_min_of_number 0.3 x) by done.
    assert (∀ m, PrimFloat.is_nan m = false →
              JS.Math_max 0.00005 m = if 0.00005 <? m then m else 0.00005) as Hmax.
    { intros m Hm. by apply Math_max_of_number. }
    destruct (x <? 0.3) eqn:Hhi.
    + rewrite Hmax by done.
      destruct (0.00005 <? x) eqn:Hlo.
      * by rewrite (ltb_antisym _ _ Hlo), (ltb_antisym _ _ Hhi).
      * destruct (x <? 0.00005) eqn:Hlow; [done|].
        rewrite (not_ltb_eq x 0.00005 _ _ _ eq_refl Hx Hlow Hlo). reflexivity.
    + rewrite Hmax by done. change (0.00005 <? 0.3) with true. simpl.
      destruct (x <? 0.00005) eqn:Hlow.
      * assert ((x <? 0.3) = true) as Hlt by (by apply (ltb_trans _ 0.00005)).
        congruence.
      * destruct (0.3 <? x) eqn:Hup; [done|].
        by rewrite (not_ltb_eq x 0.3 _ _ _ eq_refl Hx Hhi Hup).
Qed.

(** The clamped value of a number lies between the bounds; [NaN] stays
    [NaN]. *)
Lemma clamp_bounds x :
  if PrimFloat.is_nan x then Spec.clamp x 0.00005 0.3 = nan
  else (0.00005 <=? Spec.clamp x 0.00005 0.3) = true
       ∧ (Spec.clamp x 0.00005 0.3 <=? 0.3) = true.
Proof.
  destruct (PrimFloat.is_nan x) eqn:Hx.
  - rewrite (is_nan_eq _ Hx). reflexivity.
  - unfold Spec.clamp.
    destruct (x <? 0.00005) eqn:Hlow; [done|].
    destruct (0.3 <? x) eqn:Hup; [done|]. split.
    + apply not_ltb_leb; done.
    + apply not_ltb_leb; done.
Qed.

End clamp.

(** ** Spacing *)

Section spacing.
Context `{JS.Engine}.
Local Open Scope float_scope.




End spacing.



(** ** The spacing of a render *)

Section render_spacing.
Context `{JS.Engine} `{turf.API}.
Local Open Scope float_scope.

(** C8, as the code has it: a render request for [width] and [zoom] runs
    the pipeline at the spacing [clamp(numerator / 2^(z - 10), 0.00005,
    0.3)], with [w = max(1, width)], [z = round(zoom * 100) / 100] and
    [numerator = 0.025 w^2 - 0.04 w + 0.1], all in doubles; [renderLines]
    clamps its argument before anything else reads it, so that two
    requested spacings with one clamped value give one render.  The
    clamped spacing lies between the two bounds when the scaled spacing
    is a number, and is [NaN] when that is [NaN]. *)
Theorem render_request_spacing (width zoom : float) (viewbox : list turf.Position) :
  let w := JS.Math_max 1 width in
  let z := JS.Math_round (zoom * 100) / 100 in
  let numerator := 0.025 * JS.Number_exponentiate w 2 - 0.04 * w + 0.1 in
  let requested := numerator / JS.Number_exponentiate 2 (z - 10) in
  let spacing := Spec.clamp requested 0.00005 0.3 in
  message_request_render width zoom viewbox
  = (rendered ← (add_loading_item;; render_at spacing viewbox);
     postMessage (Msg.rendered rendered))
  ∧ (∀ RequestedSpacing,
       renderLines RequestedSpacing viewbox
       = (add_loading_item;;
          render_at (Spec.clamp RequestedSpacing 0.00005 0.3) viewbox))
  ∧ (∀ RequestedSpacing1 RequestedSpacing2,
       Spec.clamp RequestedSpacing1 0.00005 0.3
       = Spec.clamp RequestedSpacing2 0.00005 0.3 →
       renderLines RequestedSpacing1 viewbox = renderLines RequestedSpacing2 viewbox)
  ∧ (if PrimFloat.is_nan requested then spacing = nan
     else (0.00005 <=? spacing) = true ∧ (spacing <=? 0.3) = true).
Proof.
  intros w z numerator requested spacing. split; [|split; [|split]].
  - unfold message_request_render, renderLines. by rewrite clamp_max_min.
  - intros RequestedSpacing. unfold renderLines. by rewrite clamp_max_min.
  - intros s1 s2 Hclamp. unfold renderLines. by rewrite !clamp_max_min, Hclamp.
  - apply clamp_bounds.
Qed.

End render_spacing.

(** The sample engine at width 2 and zoom 12: the spacing of the render
    lies between the bounds. *)
Lemma render_request_spacing_witness :
  let spacing := Spec.clamp (@ScaleSpacing Samples.engine 2 12) 0.00005 0.3 in
  ((0.00005 <=? spacing) = true ∧ (spacing <=? 0.3) = true)%float.
Proof.
  destruct (@render_request_spacing Samples.engine Flat.api 2%float 12%float [])
    as (_ & _ & _ & Hbounds).
  exact Hbounds.
Defined.

(** With a width that is [NaN] the spacing of the render is [NaN], on
    every engine: it is not in the interval of the clamp. *)
Lemma render_spacing_not_clamped :
  ∃ width zoom : float,
    ∀ E : JS.Engine,
      let spacing :=
        JS.Math_max 0.00005 (JS.Math_min 0.3 (@ScaleSpacing E width zoom)) in
      spacing = nan
      ∧ (0.00005 <=? spacing)%float = false
      ∧ (spacing <=? 0.3)%float = false.
Proof. exists nan, 10%float. intros E. repeat split. Qed.

(** ** Clipping *)

Section clipping.
Context `{turf.API}.
Local Open Scope float_scope.


End clipping.



(** ** Ingestion on the sample topologies *)

(** C1, at a topology whose only route runs over arc 0 reversed (its
    reference list is [[-1]]): the segment of arc 0 gets no colour, where
    the specification's wording gives it the colour of the route. *)
Theorem ExtractLineSegments_misses_reversed_reference :
  (λ entry, (entry.1, colors entry.2)) <$> ExtractLineSegments Samples.reversed_only
  = [("Segment:0", [])]
  ∧ Spec.segment_colors Samples.reversed_only 0 = ["#FF0000"].
Proof. split; vm_compute; reflexivity. Qed.

(** C3, at a topology with a route that has no arc reference: ingestion
    throws out of [reduce]; the worker is left without segments, and the
    loading item it announced is never removed. *)
Theorem processTopologies_throws_on_empty_route :
  processTopologies Samples.empty_route new_worker
  = {| this := new_worker;
       posted := [Msg.add_loading_item];
       outcome := JS.Throw (JS.TypeError "Reduce of empty array with no initial value") |}.
Proof. vm_compute. reflexivity. Qed.

(** ** Keys built with colons

    The deduplication key of a connection and the keys of the endpoint
    registry are strings whose fields are joined by [:].  A colour is an
    arbitrary string, so the fields are recovered by counting colons. *)

Section colon_keys.

Lemma append_nil (b : string) : "" +:+ b = b.
Proof. reflexivity. Qed.

Lemma append_cons (x : ascii) (a b : string) :
  String x a +:+ b = String x (a +:+ b).
Proof. reflexivity. Qed.

Lemma append_assoc (a b c : string) : (a +:+ b) +:+ c = a +:+ (b +:+ c).
Proof.
  induction a as [|x a IH]; [done|]. by rewrite !append_cons, IH.
Qed.

Lemma colons_append a b : colons (a +:+ b) = colons a + colons b.
Proof.
  induction a as [|x a IH]; [done|].
  rewrite append_cons. simpl. rewrite IH. lia.
Qed.

(** Two strings cut at a colon, with as many colons after the cut. *)
Lemma split_at_counted_colon a a' b b' :
  colons b = colons b' →
  a +:+ ":" +:+ b = a' +:+ ":" +:+ b' → a = a' ∧ b = b'.
Proof.
  intros Hcount. revert a'.
  induction a as [|x a IH]; intros [|x' a'];
    rewrite ?append_cons, ?append_nil; intros Heq.
  - by simplify_eq.
  - simplify_eq. rewrite colons_append in Hcount. simpl in Hcount. lia.
  - simplify_eq. rewrite colons_append in Hcount. simpl in Hcount. lia.
  - injection Heq as -> Heq. by destruct (IH _ Heq) as [-> ->].
Qed.

(** Two strings cut at their first colon. *)
Lemma split_at_first_colon a a' b b' :
  colons a = 0 → colons a' = 0 →
  a +:+ ":" +:+ b = a' +:+ ":" +:+ b' → a = a' ∧ b = b'.
Proof.
  revert a'.
  induction a as [|x a IH]; intros [|x' a'];
    rewrite ?append_cons, ?append_nil; simpl; intros Ha Ha' Heq.
  - by simplify_eq.
  - by simplify_eq.
  - by simplify_eq.
  - injection Heq as -> Heq.
    destruct (decide (x' = ":"%char)); [done|].
    by destruct (IH a' Ha Ha' Heq) as [-> ->].
Qed.

Lemma colons_pretty_N_go x s : colons (pretty_N_go x s) = colons s.
Proof.
  revert s. induction (N.lt_wf_0 x) as [x _ IH]; intros s.
  destruct (decide (x = 0)%N) as [->|Hx]; [by rewrite pretty_N_go_0|].
  rewrite pretty_N_go_step by lia. rewrite IH by (apply N.div_lt; lia).
  simpl. unfold pretty_N_char. by repeat case_match.
Qed.

Lemma colons_pretty_N (x : N) : colons (pretty x) = 0.
Proof.
  unfold pretty, pretty_N. case_decide; [done|]. by rewrite colons_pretty_N_go.
Qed.

Lemma colons_Number_toString z : colons (JS.Number_toString z) = 0.
Proof.
  unfold JS.Number_toString, pretty, pretty_Z.
  destruct z as [|p|p]; [done|apply colons_pretty_N|].
  rewrite colons_append. apply (colons_pretty_N (Npos p)).
Qed.

Lemma Number_toString_inj z z' :
  JS.Number_toString z = JS.Number_toString z' → z = z'.
Proof. apply pretty_Z_inj. Qed.

End colon_keys.

(** ** Sets built by first occurrence *)

Section first_occurrences.
Context {A : Type} `{EqDecision A}.

Lemma elem_of_foldl_add_unseen (l seen : list A) x :
  x ∈ foldl JS.add_unseen seen l ↔ x ∈ seen ∨ x ∈ l.
Proof.
  revert seen. induction l as [|y l IH]; intros seen; simpl.
  - rewrite elem_of_nil. tauto.
  - rewrite IH, elem_of_cons. unfold JS.add_unseen.
    destruct (decide (y ∈ seen)) as [Hy|Hy].
    + split; [tauto|]. intros [?|[->|?]]; tauto.
    + rewrite elem_of_app, list_elem_of_singleton. tauto.
Qed.

Lemma NoDup_foldl_add_unseen (l seen : list A) :
  NoDup seen → NoDup (foldl JS.add_unseen seen l).
Proof.
  revert seen. induction l as [|y l IH]; intros seen Hseen; simpl; [done|].
  apply IH. unfold JS.add_unseen. destruct (decide (y ∈ seen)); [done|].
  apply NoDup_app. split; [done|]. split; [|apply NoDup_singleton].
  intros x Hx ->%list_elem_of_singleton. done.
Qed.

Lemma elem_of_Set_of (l : list A) x : x ∈ JS.Set_of l ↔ x ∈ l.
Proof.
  unfold JS.Set_of. rewrite elem_of_foldl_add_unseen, elem_of_nil. tauto.
Qed.

Lemma NoDup_Set_of (l : list A) : NoDup (JS.Set_of l).
Proof. apply (NoDup_foldl_add_unseen l []). constructor. Qed.

End first_occurrences.

(** ** Connections *)

Section connections.

Lemma connection_of_derived line prev cur :
  connection_of line prev cur = derived_connection (stroke (properties line)) prev cur.
Proof.
  unfold connection_of, derived_connection, fromId, fromPart, toId, toPart.
  repeat case_bool_decide; repeat case_decide; try lia; repeat f_equal; lia.
Qed.

Lemma connection_of_tagged line prev cur : tagged (connection_of line prev cur).
Proof.
  unfold tagged, connection_of, fromPart, toPart. simpl.
  split; case_bool_decide; set_solver.
Qed.

Lemma tagged_colons connection :
  tagged connection →
  colons (from connection).2 = 0 ∧ colons (to connection).2 = 0.
Proof.
  intros [Hfrom Hto].
  split; [clear Hto; revert Hfrom|clear Hfrom; revert Hto];
    rewrite !elem_of_cons, elem_of_nil; intros [->|[->|[]]]; done.
Qed.

Lemma connection_key_eq connection :
  connection_key connection
  = color connection +:+ ":" +:+ JS.Number_toString (from connection).1
    +:+ ":" +:+ (from connection).2
    +:+ ":" +:+ JS.Number_toString (to connection).1
    +:+ ":" +:+ (to connection).2.
Proof. reflexivity. Qed.

(** The key determines the connection, whatever the colour is. *)
Lemma connection_key_inj c1 c2 :
  tagged c1 → tagged c2 → connection_key c1 = connection_key c2 → c1 = c2.
Proof.
  intros [Hf1 Ht1]%tagged_colons [Hf2 Ht2]%tagged_colons.
  rewrite !connection_key_eq.
  destruct c1 as [[f1 fp1] [t1 tp1] col1], c2 as [[f2 fp2] [t2 tp2] col2].
  simpl in *. intros Hkey.
  apply split_at_counted_colon in Hkey as [-> Hkey].
  2:{ rewrite !colons_append, !colons_Number_toString, Hf1, Hf2, Ht1, Ht2. done. }
  apply split_at_counted_colon in Hkey as [->%Number_toString_inj Hkey].
  2:{ rewrite !colons_append, !colons_Number_toString, Hf1, Hf2, Ht1, Ht2. done. }
  apply split_at_counted_colon in Hkey as [-> Hkey].
  2:{ rewrite !colons_append, !colons_Number_toString, Ht1, Ht2. done. }
  apply split_at_counted_colon in Hkey as [->%Number_toString_inj ->].
  2:{ by rewrite Ht1, Ht2. }
  done.
Qed.

Lemma reduce_callback_push line prev cur st :
  reduce_callback line prev cur st
  = (cur, dedupe_push st (connection_of line prev cur)).
Proof.
  destruct st as [Connections ConnectionsDedupe].
  unfold reduce_callback, dedupe_push. simpl.
  change (DedupeString line prev cur)
    with (connection_key (connection_of line prev cur)).
  by destruct (JS.Array_includes _ _).
Qed.

Lemma reduce_fold line rest : ∀ first st,
  (foldl (λ acc cur, reduce_callback line acc.1 cur acc.2) (first, st) rest).2
  = foldl dedupe_push st
      ((λ pair, connection_of line pair.1 pair.2) <$> zip (first :: rest) rest).
Proof.
  induction rest as [|cur rest IH]; intros first st; [done|].
  simpl. rewrite reduce_callback_push. apply IH.
Qed.

(** A route with at least one reference: [reduce] returns, having pushed
    the connections of the route that were not seen before. *)
Lemma Array_reduce_route line st :
  line_arcs line ≠ [] →
  ∃ last_, JS.Array_reduce (reduce_callback line) (line_arcs line) st
           = JS.Normal (last_, foldl dedupe_push st (route_connections line)).
Proof.
  unfold route_connections, JS.Array_reduce.
  destruct (line_arcs line) as [|first rest]; [done|]. intros _.
  eexists. f_equal. apply injective_projections; [done|].
  simpl. apply reduce_fold.
Qed.

Lemma extract_lines_fold lines : ∀ st,
  Forall (λ line, line_arcs line ≠ []) lines →
  extract_lines lines st
  = JS.Normal (foldl dedupe_push st (lines ≫= route_connections)).
Proof.
  induction lines as [|line lines IH]; intros st Hlines; [done|].
  apply Forall_cons in Hlines as [Hline Hlines]. simpl.
  destruct (Array_reduce_route line st Hline) as [last_ ->]. simpl.
  rewrite IH by done. by rewrite foldl_app.
Qed.

(** A route without references makes the extraction throw. *)
Lemma extract_lines_throws lines : ∀ st,
  Exists (λ line, line_arcs line = []) lines →
  ∃ fault, extract_lines lines st = JS.Throw fault.
Proof.
  induction lines as [|line lines IH]; intros st Hlines.
  { by apply Exists_nil in Hlines. }
  simpl. destruct (line_arcs line) as [|first rest] eqn:Harcs.
  { by eexists. }
  apply Exists_cons in Hlines as [Hline|Hlines]; [congruence|].
  simpl. by apply IH.
Qed.

Lemma foldl_dedupe_push candidates : ∀ seen,
  Forall tagged seen → Forall tagged candidates →
  foldl dedupe_push (seen, connection_key <$> seen) candidates
  = (foldl JS.add_unseen seen candidates,
     connection_key <$> foldl JS.add_unseen seen candidates).
Proof.
  induction candidates as [|c candidates IH]; intros seen Hseen Hcands; [done|].
  apply Forall_cons in Hcands as [Hc Hcands]. simpl.
  assert (dedupe_push (seen, connection_key <$> seen) c
          = (JS.add_unseen seen c, connection_key <$> JS.add_unseen seen c)) as ->.
  { unfold dedupe_push, JS.add_unseen, JS.Array_includes. simpl.
    destruct (decide (c ∈ seen)) as [Hin|Hnotin].
    - rewrite bool_decide_eq_true_2; [done|]. by apply list_elem_of_fmap_2.
    - rewrite bool_decide_eq_false_2; [by rewrite fmap_app|].
      intros (c' & Hkey & Hc')%list_elem_of_fmap.
      apply connection_key_inj in Hkey; [by subst| done |].
      by eapply Forall_forall in Hseen. }
  apply IH; [|done]. unfold JS.add_unseen. destruct (decide _); [done|].
  apply Forall_app. split; [done|]. by apply Forall_singleton.
Qed.

Lemma foldl_dedupe_push_start candidates :
  Forall tagged candidates →
  foldl dedupe_push ([], []) candidates
  = (JS.Set_of candidates, connection_key <$> JS.Set_of candidates).
Proof.
  intros Hcands. apply (foldl_dedupe_push candidates []); [constructor|done].
Qed.

(** The connections in closed form: the connections of all adjacent
    pairs, route by route, each kept at its first occurrence. *)
Lemma extractLineConnections_Set_of TopoJsonLines :
  Forall (λ line, line_arcs line ≠ []) (geometries TopoJsonLines) →
  extractLineConnections TopoJsonLines
  = JS.Normal (JS.Set_of (geometries TopoJsonLines ≫= route_connections)).
Proof.
  intros Hlines. unfold extractLineConnections.
  rewrite extract_lines_fold by done. simpl.
  rewrite foldl_dedupe_push_start; [done|].
  apply Forall_forall. intros c (line & Hc & _)%list_elem_of_bind.
  unfold route_connections in Hc.
  apply list_elem_of_fmap in Hc as (pair & -> & _). apply connection_of_tagged.
Qed.

Lemma elem_of_adjacent_pairs refs prev cur :
  (prev, cur) ∈ zip refs (tail refs) ↔ adjacent refs prev cur.
Proof.
  unfold adjacent. induction refs as [|x refs IH]; simpl.
  - rewrite elem_of_nil. split; [done|]. intros ([|??] & ? & ?); done.
  - destruct refs as [|y refs]; simpl in *.
    + rewrite elem_of_nil. split; [done|].
      intros ([|?[|??]] & ? & ?); done.
    + rewrite elem_of_cons, IH. split.
      * intros [[= -> ->]|(before & after & ->)].
        -- by exists [], refs.
        -- by exists (x :: before), after.
      * intros ([|x' before] & after & Heq); simplify_eq/=.
        -- by left.
        -- right. by exists before, after.
Qed.

(** C2: when every route has at least one reference, ingestion returns
    connections such that a connection is among them exactly when it is
    the connection the derivation rule gives for some adjacent pair
    (prev, cur) of some route, with the colour of that route; and no
    connection occurs twice, so that equal tuples (color, fromId, fromTag,
    toId, toTag) give one connection. *)
Theorem extractLineConnections_derived TopoJsonLines :
  Forall (λ line, line_arcs line ≠ []) (geometries TopoJsonLines) →
  ∃ Connections,
    extractLineConnections TopoJsonLines = JS.Normal Connections
    ∧ (∀ connection,
         connection ∈ Connections
         ↔ ∃ line prev cur,
             line ∈ geometries TopoJsonLines
             ∧ adjacent (line_arcs line) prev cur
             ∧ connection = derived_connection (stroke (properties line)) prev cur)
    ∧ NoDup Connections.
Proof.
  intros Hlines. eexists. split; [by apply extractLineConnections_Set_of|].
  split; [|apply NoDup_Set_of].
  intros connection. rewrite elem_of_Set_of, list_elem_of_bind.
  split.
  - intros (line & Hc & Hline). exists line.
    unfold route_connections in Hc.
    apply list_elem_of_fmap in Hc as ([prev cur] & -> & Hpair).
    exists prev, cur. rewrite <-elem_of_adjacent_pairs.
    by rewrite connection_of_derived.
  - intros (line & prev & cur & Hline & Hadj & ->). exists line.
    split; [|done]. unfold route_connections.
    apply list_elem_of_fmap. exists (prev, cur).
    by rewrite connection_of_derived, elem_of_adjacent_pairs.
Qed.

End connections.

(** ** Maps in insertion order *)

Section JsMap_facts.
Context {V : Type}.

Lemma JsMap_get_set (m : JsMap.t V) key key' v :
  JsMap.get (JsMap.set m key v) key'
  = if decide (key = key') then Some v else JsMap.get m key'.
Proof.
  induction m as [|[k v'] m IH]; simpl.
  - by destruct (decide (key = key')).
  - destruct (decide (k = key)) as [->|Hk]; simpl.
    + by destruct (decide (key = key')).
    + rewrite IH. destruct (decide (k = key')) as [->|]; [|done].
      by destruct (decide (key = key')).
Qed.

Lemma JsMap_get_set_is_Some (m : JsMap.t V) key key' v :
  is_Some (JsMap.get m key') → is_Some (JsMap.get (JsMap.set m key v) key').
Proof. rewrite JsMap_get_set. by destruct (decide _). Qed.

Lemma JsMap_set_keys (P : string → Prop) (m : JsMap.t V) key v :
  Forall (λ entry, P entry.1) m → P key →
  Forall (λ entry, P entry.1) (JsMap.set m key v).
Proof.
  intros Hm Hkey. induction m as [|[k v'] m IH]; simpl.
  - by apply Forall_singleton.
  - apply Forall_cons in Hm as [Hk Hm].
    destruct (decide (k = key)); apply Forall_cons; auto.
Qed.

End JsMap_facts.

(** ** Segments *)

Section segments.

Lemma segment_key_inj (i j : Z) : segment_key i = segment_key j → i = j.
Proof.
  unfold segment_key. intros Hkey%(inj (String.append "Segment:")).
  by apply Number_toString_inj.
Qed.

(** The colours of the segment of arc [i]: the colours, black for an
    empty one, of the routes whose reference list contains [i] itself.
    The test on the sign of the loop index never selects the search for
    the reversed reference. *)
Lemma segment_of_arc_colors TopoJsonLines (i : nat) c :
  c ∈ colors (segment_of_arc TopoJsonLines i)
  ↔ ∃ line, line ∈ geometries TopoJsonLines
            ∧ Z.of_nat i ∈ line_arcs line
            ∧ c = stroke_or_black line.
Proof.
  unfold segment_of_arc, colorsInSegment. simpl.
  rewrite list_elem_of_omap. split.
  - intros (oc & Hoc & ->). rewrite elem_of_Set_of in Hoc.
    apply list_elem_of_fmap in Hoc as (line & Hcolor & Hline).
    exists line. split; [done|]. unfold color_if_on_arc in Hcolor.
    rewrite bool_decide_eq_false_2 in Hcolor by lia.
    unfold JS.Array_includes in Hcolor. case_bool_decide; by simplify_eq.
  - intros (line & Hline & Harc & ->). exists (Some (stroke_or_black line)).
    split; [|done]. rewrite elem_of_Set_of. apply list_elem_of_fmap.
    exists line. split; [|done]. unfold color_if_on_arc.
    rewrite bool_decide_eq_false_2 by lia.
    unfold JS.Array_includes. by rewrite bool_decide_eq_true_2.
Qed.

(** The segment stored for arc [i]. *)
Lemma ExtractLineSegments_lookup TopoJsonLines (i : nat) :
  i < length (arcs TopoJsonLines) →
  JsMap.get (ExtractLineSegments TopoJsonLines) (segment_key (Z.of_nat i))
  = Some (segment_of_arc TopoJsonLines i).
Proof.
  intros Hi. unfold ExtractLineSegments.
  assert (i ∈ seq 0 (length (arcs TopoJsonLines))) as Hin
    by (apply elem_of_seq; lia).
  revert Hin. generalize (seq 0 (length (arcs TopoJsonLines))). intros indices.
  cut (∀ m : JsMap.t LineSegment,
    JsMap.get
      (foldl (λ Segments j,
         JsMap.set Segments (segment_key (Z.of_nat j)) (segment_of_arc TopoJsonLines j))
         m indices) (segment_key (Z.of_nat i))
    = if decide (i ∈ indices) then Some (segment_of_arc TopoJsonLines i)
      else JsMap.get m (segment_key (Z.of_nat i))).
  { intros Hgen Hin. rewrite Hgen. by rewrite decide_True. }
  induction indices as [|j indices IH]; intros m.
  - rewrite decide_False; [done|]. apply not_elem_of_nil.
  - cbn [foldl]. rewrite IH, JsMap_get_set.
    destruct (decide (i ∈ indices)) as [Hin|Hnotin].
    + rewrite decide_True; [done|]. by right.
    + destruct (decide (segment_key (Z.of_nat j) = segment_key (Z.of_nat i)))
        as [Hkey|Hkey].
      * apply segment_key_inj, Nat2Z.inj in Hkey as ->.
        rewrite decide_True; [done|]. by left.
      * rewrite decide_False; [done|].
        intros [->|?]%elem_of_cons; done.
Qed.

End segments.

(** ** The worker between messages *)

Section worker_states.

Lemma ExtractLineSegments_keys TopoJsonLines :
  Forall (λ entry, ∃ i : Z, entry.1 = segment_key i)
         (ExtractLineSegments TopoJsonLines).
Proof.
  unfold ExtractLineSegments.
  generalize (seq 0 (length (arcs TopoJsonLines))). intros indices.
  cut (∀ m : JsMap.t LineSegment,
    Forall (λ entry, ∃ i : Z, entry.1 = segment_key i) m →
    Forall (λ entry, ∃ i : Z, entry.1 = segment_key i)
      (foldl (λ Segments i,
         JsMap.set Segments (segment_key (Z.of_nat i)) (segment_of_arc TopoJsonLines i))
         m indices)).
  { intros Hgen. apply Hgen. constructor. }
  induction indices as [|i indices IH]; intros m Hm; [done|].
  simpl. apply IH.
  apply (JsMap_set_keys (λ key, ∃ i : Z, key = segment_key i)); eauto.
Qed.

Lemma copy_entries_keys (source target : JsMap.t LineSegment) :
  Forall (λ entry, ∃ i : Z, entry.1 = segment_key i) source →
  Forall (λ entry, ∃ i : Z, entry.1 = segment_key i) target →
  Forall (λ entry, ∃ i : Z, entry.1 = segment_key i)
    (foldl (λ m entry, JsMap.set m entry.1 entry.2) target source).
Proof.
  revert target. induction source as [|entry source IH]; intros target Hs Ht; [done|].
  apply Forall_cons in Hs as [Hentry Hs]. simpl. apply IH; [done|].
  by apply (JsMap_set_keys (λ key, ∃ i : Z, key = segment_key i)).
Qed.

Lemma push_all {A} (l acc : list A) :
  foldl (λ conns connection, conns ++ [connection]) acc l = acc ++ l.
Proof.
  revert acc. induction l as [|x l IH]; intros acc; simpl.
  - by rewrite app_nil_r.
  - by rewrite IH, <-app_assoc.
Qed.

(** Ingestion leaves a well-formed worker, whether it returns or throws. *)
Lemma processTopologies_as_ingested data w :
  as_ingested (this (processTopologies data w)).
Proof.
  unfold processTopologies, mbind, Eff_bind, add_loading_item, postMessage,
    set_LineSegments, set_LineConnections, call, get_this,
    remove_loading_item. simpl.
  destruct (extractLineConnections data) as [connections|fault] eqn:Hextract;
    simpl; [|by split; constructor].
  split; simpl.
  - apply copy_entries_keys; [apply ExtractLineSegments_keys|constructor].
  - rewrite push_all. simpl.
    unfold extractLineConnections in Hextract.
    destruct (decide (Forall (λ line, line_arcs line ≠ []) (geometries data)))
      as [Hlines|Hlines].
    + rewrite extract_lines_fold in Hextract by done. simpl in Hextract.
      rewrite foldl_dedupe_push_start in Hextract.
      * injection Hextract as <-. simpl.
        apply Forall_forall. intros c Hc. rewrite elem_of_Set_of in Hc.
        apply list_elem_of_bind in Hc as (line & Hc & _).
        apply list_elem_of_fmap in Hc as (pair & -> & _).
        apply connection_of_tagged.
      * apply Forall_forall. intros c (line & Hc & _)%list_elem_of_bind.
        apply list_elem_of_fmap in Hc as (pair & -> & _).
        apply connection_of_tagged.
    + apply not_Forall_Exists in Hlines; [|apply _].
      destruct (extract_lines_throws (geometries data) ([], [])) as [fault Hfault].
      * eapply Exists_impl; [exact Hlines|]. simpl. intros line Hline.
        destruct (decide (line_arcs line = [])) as [|Hne]; [done|].
        by destruct Hline.
      * rewrite Hfault in Hextract. done.
Qed.

(** Ingestion throws exactly on a topology with a route that has no
    reference; the loading item is then never removed. *)
Lemma processTopologies_throws data w :
  Exists (λ line, line_arcs line = []) (geometries data) →
  ∃ fault,
    outcome (processTopologies data w) = JS.Throw fault
    ∧ posted (processTopologies data w) = [Msg.add_loading_item]
    ∧ this (processTopologies data w) = new_worker.
Proof.
  intros Hempty.
  destruct (extract_lines_throws (geometries data) ([], []) Hempty)
    as [fault Hfault].
  exists fault.
  unfold processTopologies, mbind, Eff_bind, add_loading_item, postMessage,
    set_LineSegments, set_LineConnections, call, get_this,
    remove_loading_item, extractLineConnections. simpl.
  rewrite Hfault. done.
Qed.

Lemma processTopologies_returns data w :
  Forall (λ line, line_arcs line ≠ []) (geometries data) →
  outcome (processTopologies data w) = JS.Normal ()
  ∧ posted (processTopologies data w)
    = [Msg.add_loading_item; Msg.remove_loading_item]
  ∧ LineConnections (this (processTopologies data w))
    = JS.Set_of (geometries data ≫= route_connections).
Proof.
  intros Hlines.
  unfold processTopologies, mbind, Eff_bind, add_loading_item, postMessage,
    set_LineSegments, set_LineConnections, call, get_this,
    remove_loading_item. simpl.
  rewrite extractLineConnections_Set_of by done. simpl.
  by rewrite push_all.
Qed.

End worker_states.

(** ** More on maps in insertion order *)

Section JsMap_keys.
Context {V : Type}.

Lemma JsMap_get_is_Some (m : JsMap.t V) key :
  is_Some (JsMap.get m key) ↔ key ∈ m.*1.
Proof.
  induction m as [|[k v] m IH]; simpl.
  - rewrite elem_of_nil. split; [by intros [? ?]|done].
  - rewrite elem_of_cons. destruct (decide (k = key)) as [->|Hne].
    + split; [by left|by eexists].
    + rewrite IH. split; [by right|]. by intros [->|?].
Qed.

Lemma JsMap_get_elem_of (m : JsMap.t V) key v :
  NoDup m.*1 → (key, v) ∈ m ↔ JsMap.get m key = Some v.
Proof.
  induction m as [|[k v'] m IH]; simpl; intros Hnodup.
  - rewrite elem_of_nil. done.
  - apply NoDup_cons in Hnodup as [Hk Hnodup]. rewrite elem_of_cons.
    destruct (decide (k = key)) as [->|Hne].
    + split; [|intros [= ->]; by left].
      intros [[= ->]|Hin]; [done|].
      destruct Hk. apply list_elem_of_fmap. by exists (key, v).
    + rewrite <-IH by done. split; [|by right]. by intros [[= -> ->]|?].
Qed.

(** [set] keeps the keys in place and puts a new key last. *)
Lemma JsMap_keys_set (m : JsMap.t V) key v :
  (JsMap.set m key v).*1 = JS.add_unseen m.*1 key.
Proof.
  unfold JS.add_unseen. induction m as [|[k v'] m IH]; csimpl; [done|].
  destruct (decide (k = key)) as [->|Hne]; csimpl.
  - rewrite decide_True; [done|]. by left.
  - rewrite IH. destruct (decide (key ∈ m.*1)) as [Hin|Hnotin].
    + rewrite decide_True; [done|]. by right.
    + rewrite decide_False; [done|]. by intros [->|?]%elem_of_cons.
Qed.

Lemma JsMap_set_fresh (m : JsMap.t V) key v :
  key ∉ m.*1 → JsMap.set m key v = m ++ [(key, v)].
Proof.
  induction m as [|[k v'] m IH]; simpl; intros Hfresh; [done|].
  apply not_elem_of_cons in Hfresh as [Hne Hfresh].
  rewrite decide_False by done. by rewrite IH.
Qed.

Lemma JsMap_set_NoDup (m : JsMap.t V) key v :
  NoDup m.*1 → NoDup (JsMap.set m key v).*1.
Proof.
  intros Hnodup. rewrite JsMap_keys_set.
  by apply (NoDup_foldl_add_unseen [key] m.*1).
Qed.

(** Copying the entries of a map with distinct keys into a new map gives
    the map back. *)
Lemma JsMap_copy (m : JsMap.t V) :
  NoDup m.*1 → foldl (λ acc entry, JsMap.set acc entry.1 entry.2) [] m = m.
Proof.
  intros Hnodup.
  cut (∀ acc, NoDup (acc ++ m).*1 →
    foldl (λ acc entry, JsMap.set acc entry.1 entry.2) acc m = acc ++ m).
  { intros Hgen. apply (Hgen []). done. }
  clear Hnodup. induction m as [|[k v] m IH]; intros acc Hnodup; simpl.
  - by rewrite app_nil_r.
  - rewrite JsMap_set_fresh.
    + rewrite IH; rewrite <-app_assoc; done.
    + rewrite fmap_app in Hnodup. apply NoDup_app in Hnodup as (_ & Hdisjoint & _).
      intros Hin. apply (Hdisjoint k Hin). by left.
Qed.

End JsMap_keys.

(** ** More on ingestion *)

Section ingestion.

Lemma Array_at_first {A} (arr : list A) : JS.Array_at arr 0 = head arr.
Proof. unfold JS.Array_at. simpl. by rewrite head_lookup. Qed.

Lemma Array_at_last {A} (arr : list A) :
  JS.Array_at arr (Z.of_nat (length arr) - 1) = last arr.
Proof.
  unfold JS.Array_at. rewrite last_lookup. destruct arr as [|x arr]; [done|].
  rewrite bool_decide_eq_false_2 by (simpl; lia). f_equal. simpl. lia.
Qed.

Lemma ExtractLineSegments_fmap TopoJsonLines :
  ExtractLineSegments TopoJsonLines
  = (λ i, (segment_key (Z.of_nat i), segment_of_arc TopoJsonLines i))
      <$> seq 0 (length (arcs TopoJsonLines)).
Proof.
  unfold ExtractLineSegments.
  pose proof (NoDup_seq 0 (length (arcs TopoJsonLines))) as Hnodup.
  revert Hnodup. generalize (seq 0 (length (arcs TopoJsonLines))). intros indices.
  cut (∀ m : JsMap.t LineSegment,
    NoDup indices →
    (∀ i, i ∈ indices → segment_key (Z.of_nat i) ∉ m.*1) →
    foldl (λ Segments i,
      JsMap.set Segments (segment_key (Z.of_nat i)) (segment_of_arc TopoJsonLines i))
      m indices
    = m ++ ((λ i, (segment_key (Z.of_nat i), segment_of_arc TopoJsonLines i))
              <$> indices)).
  { intros Hgen Hnodup. apply (Hgen []); [done|]. intros i _. apply not_elem_of_nil. }
  induction indices as [|j indices IH]; intros m Hnodup Hfresh.
  - by rewrite app_nil_r.
  - apply NoDup_cons in Hnodup as [Hj Hnodup]. cbn [foldl].
    rewrite JsMap_set_fresh by (apply Hfresh; by left).
    rewrite IH; [by rewrite <-app_assoc|done|].
    intros i Hi. rewrite fmap_app, elem_of_app. intros [Hin|Hin].
    + apply (Hfresh i); [by right|done].
    + apply list_elem_of_singleton in Hin. simpl in Hin.
      apply segment_key_inj, Nat2Z.inj in Hin. by subst.
Qed.

(** X1: ingestion makes one segment per arc, in the order of the arc table:
    the segment at position [i] has the key [Segment:i], the arc as its
    geometry, the first coordinate of the arc as [top] and the last one as
    [bottom] (both [undefined] for an arc without coordinates). *)
Theorem ExtractLineSegments_per_arc TopoJsonLines :
  length (ExtractLineSegments TopoJsonLines) = length (arcs TopoJsonLines)
  ∧ ∀ (i : nat) arc,
      arcs TopoJsonLines !! i = Some arc →
      ∃ segment,
        JsMap.entries (ExtractLineSegments TopoJsonLines) !! i
        = Some ("Segment:" +:+ JS.Number_toString (Z.of_nat i), segment)
        ∧ JsMap.get (ExtractLineSegments TopoJsonLines)
            ("Segment:" +:+ JS.Number_toString (Z.of_nat i)) = Some segment
        ∧ geometry segment = arc
        ∧ top segment = head arc
        ∧ bottom segment = last arc.
Proof.
  split.
  - by rewrite ExtractLineSegments_fmap, length_fmap, length_seq.
  - intros i arc Harc. exists (segment_of_arc TopoJsonLines i).
    pose proof (lookup_lt_Some _ _ _ Harc) as Hi.
    split; [|split].
    + unfold JsMap.entries.
      rewrite ExtractLineSegments_fmap, list_lookup_fmap, lookup_seq_lt by done.
      done.
    + by apply ExtractLineSegments_lookup.
    + unfold segment_of_arc. rewrite Harc. simpl.
      by rewrite Array_at_first, Array_at_last.
Qed.

Lemma ExtractLineSegments_per_arc_witness :
  ∃ segment,
    JsMap.entries (ExtractLineSegments Samples.two_arcs) !! 1
    = Some ("Segment:" +:+ JS.Number_toString (Z.of_nat 1), segment)
    ∧ JsMap.get (ExtractLineSegments Samples.two_arcs)
        ("Segment:" +:+ JS.Number_toString (Z.of_nat 1)) = Some segment
    ∧ geometry segment = [(1, 1); (2, 2)]%float
    ∧ top segment = head [(1, 1); (2, 2)]%float
    ∧ bottom segment = last [(1, 1); (2, 2)]%float.
Proof.
  destruct (ExtractLineSegments_per_arc Samples.two_arcs) as [_ Harc].
  apply (Harc 1 [(1, 1); (2, 2)]%float). reflexivity.
Defined.

Lemma ExtractLineSegments_NoDup_keys TopoJsonLines :
  NoDup (ExtractLineSegments TopoJsonLines).*1.
Proof.
  rewrite ExtractLineSegments_fmap, <-list_fmap_compose.
  apply NoDup_fmap_2_strong; [|apply NoDup_seq].
  intros i j _ _ Hkey. simpl in Hkey.
  by apply segment_key_inj, Nat2Z.inj in Hkey.
Qed.

Lemma NoDup_omap_defined {A} (l : list (option A)) :
  NoDup l → NoDup (omap (λ e, e) l).
Proof.
  induction 1 as [|[x|] l Hx Hl IH]; simpl; [constructor| |done].
  constructor; [|done]. intros (e & He & ->)%list_elem_of_omap. done.
Qed.

(** X2: the colours of a segment are distinct, and they are the colours,
    with black for an empty one, of the routes whose reference list holds
    the index of the arc as a forward reference. *)
Theorem segment_colors_distinct TopoJsonLines (i : nat) :
  NoDup (colors (segment_of_arc TopoJsonLines i))
  ∧ ∀ c, c ∈ colors (segment_of_arc TopoJsonLines i)
         ↔ ∃ line, line ∈ geometries TopoJsonLines
                   ∧ Z.of_nat i ∈ line_arcs line
                   ∧ c = (if decide (stroke (properties line) = "")
                          then "#000000" else stroke (properties line)).
Proof.
  split; [|apply segment_of_arc_colors].
  unfold segment_of_arc. simpl. apply NoDup_omap_defined, NoDup_Set_of.
Qed.

Lemma connection_of_inj line line' prev cur prev' cur' :
  connection_of line prev cur = connection_of line' prev' cur' →
  stroke (properties line) = stroke (properties line')
  ∧ prev = prev' ∧ cur = cur'.
Proof.
  unfold connection_of, fromId, fromPart, toId, toPart.
  intros [= Hfrom Hfp Hto Htp Hcolor]. split; [done|].
  repeat case_bool_decide; simplify_eq; split; lia.
Qed.

(** X3: the deduplication key is faithful: two adjacent pairs have the same
    key exactly when their routes have the same colour and the pairs hold
    the same signed references.  Deduplication never merges two different
    directed transitions, whatever characters the colours contain. *)
Theorem DedupeString_faithful line line' prev cur prev' cur' :
  DedupeString line prev cur = DedupeString line' prev' cur'
  ↔ stroke (properties line) = stroke (properties line')
    ∧ prev = prev' ∧ cur = cur'.
Proof.
  split.
  - intros Hkey. apply connection_of_inj.
    apply connection_key_inj; [apply connection_of_tagged..|exact Hkey].
  - intros (Hstroke & -> & ->). unfold DedupeString. by rewrite Hstroke.
Qed.

Lemma extract_lines_throws_TypeError lines : ∀ st,
  Exists (λ line, line_arcs line = []) lines →
  extract_lines lines st
  = JS.Throw (JS.TypeError "Reduce of empty array with no initial value").
Proof.
  induction lines as [|line lines IH]; intros st Hlines.
  { by apply Exists_nil in Hlines. }
  simpl. destruct (line_arcs line) as [|first rest] eqn:Harcs; [done|].
  apply Exists_cons in Hlines as [Hline|Hlines]; [congruence|].
  simpl. by apply IH.
Qed.

Lemma fromId_nonnegative prev : (0 ≤ fromId prev)%Z.
Proof. unfold fromId. case_bool_decide; lia. Qed.

Lemma toId_nonnegative cur : (0 ≤ toId cur)%Z.
Proof. unfold toId. case_bool_decide; lia. Qed.

(** [processTopologies], run on a worker. *)
Lemma processTopologies_run data (w : Worker) :
  processTopologies data w
  = if decide (Forall (λ line, line_arcs line ≠ []) (geometries data))
    then {| this := {| LineSegments := ExtractLineSegments data;
                       LineConnections :=
                         JS.Set_of (geometries data ≫= route_connections) |};
            posted := [Msg.add_loading_item; Msg.remove_loading_item];
            outcome := JS.Normal () |}
    else {| this := new_worker;
            posted := [Msg.add_loading_item];
            outcome := JS.Throw
              (JS.TypeError "Reduce of empty array with no initial value") |}.
Proof.
  unfold processTopologies, mbind, Eff_bind, add_loading_item,
    postMessage, set_LineSegments, set_LineConnections, call, get_this,
    remove_loading_item. simpl.
  destruct (decide _) as [Hlines|Hlines].
  - rewrite extractLineConnections_Set_of by done. simpl.
    rewrite push_all. do 2 f_equal.
    apply (JsMap_copy (ExtractLineSegments data)), ExtractLineSegments_NoDup_keys.
  - apply not_Forall_Exists in Hlines; [|apply _].
    unfold extractLineConnections.
    rewrite extract_lines_throws_TypeError; [done|].
    eapply Exists_impl; [exact Hlines|]. simpl. intros line Hline.
    destruct (decide (line_arcs line = [])) as [|Hne]; [done|].
    by destruct Hline.
Qed.

(** X4: an [init] message replaces what the worker holds, whatever that
    was.  On a topology whose routes all have a reference the worker then
    holds the segments and the connections of the topology and has posted
    [add_loading_item], [remove_loading_item], [finished_init]; on any
    other topology the call throws the [TypeError] of [reduce], the worker
    holds nothing, and only [add_loading_item] was posted. *)
Theorem message_init_run data (w : Worker) :
  message_init data w
  = if decide (Forall (λ line, line_arcs line ≠ []) (geometries data))
    then {| this := {| LineSegments := ExtractLineSegments data;
                       LineConnections :=
                         JS.Set_of (geometries data ≫= route_connections) |};
            posted := [Msg.add_loading_item; Msg.remove_loading_item;
                       Msg.finished_init];
            outcome := JS.Normal () |}
    else {| this := new_worker;
            posted := [Msg.add_loading_item];
            outcome := JS.Throw
              (JS.TypeError "Reduce of empty array with no initial value") |}.
Proof.
  unfold message_init, mbind, Eff_bind. rewrite processTopologies_run.
  by destruct (decide _).
Qed.

End ingestion.

(** ** Sorting *)

Section sorting.
Context {A : Type} (comparefn : A → A → option R).
Local Open Scope R_scope.

Let compare := JS.SortCompare comparefn.

Lemma sort_insert_Permutation x (l : list A) :
  JS.sort_insert compare x l ≡ₚ x :: l.
Proof.
  induction l as [|y l IH]; simpl; [done|].
  destruct (decide (compare y x > 0)); [done|].
  rewrite IH. apply Permutation_swap.
Qed.

Lemma sort_stable_Permutation (l : list A) : JS.sort_stable comparefn l ≡ₚ l.
Proof.
  unfold JS.sort_stable. fold compare.
  cut (∀ sorted, foldl (λ sorted x, JS.sort_insert compare x sorted) sorted l
                 ≡ₚ sorted ++ l).
  { intros Hgen. apply (Hgen []). }
  induction l as [|x l IH]; intros sorted; simpl.
  - by rewrite app_nil_r.
  - rewrite IH, sort_insert_Permutation. simpl. apply Permutation_middle.
Qed.

(** Whatever the comparison function is, [sort] rearranges the array. *)
Lemma Array_sort_Permutation `{JS.Engine} (l : list A) :
  JS.Array_sort comparefn l ≡ₚ l.
Proof.
  unfold JS.Array_sort. destruct (decide _).
  - apply sort_stable_Permutation.
  - apply JS.sort_implementation_defined_Permutation.
Qed.

(** The comparison function is a difference of keys on the elements that
    satisfy [P]. *)
Context (key : A → R) (P : A → Prop).
Hypothesis compare_key : ∀ a b, P a → P b → comparefn a b = Some (key a - key b).

Lemma SortCompare_key a b : P a → P b → compare a b = key a - key b.
Proof. intros Ha Hb. unfold compare, JS.SortCompare. by rewrite compare_key. Qed.

(** Such a comparison function is consistent. *)
Lemma consistent_key (l : list A) : Forall P l → JS.consistent comparefn l.
Proof.
  intros HP. unfold JS.consistent. fold compare.
  apply Forall_forall. intros a Ha.
  assert (P a) as HPa by (by apply (proj1 (Forall_forall P l) HP)).
  split; [rewrite SortCompare_key by done; lra|].
  apply Forall_forall. intros b Hb.
  assert (P b) as HPb by (by apply (proj1 (Forall_forall P l) HP)).
  split; [rewrite compare_key by done; by eexists|].
  split; [rewrite !SortCompare_key by done; lra|].
  apply Forall_forall. intros c Hc.
  assert (P c) as HPc by (by apply (proj1 (Forall_forall P l) HP)).
  rewrite !SortCompare_key by done. repeat split; lra.
Qed.

Lemma Array_sort_consistent `{JS.Engine} (l : list A) :
  Forall P l → JS.Array_sort comparefn l = JS.sort_stable comparefn l.
Proof.
  intros HP. unfold JS.Array_sort.
  by rewrite decide_True by (by apply consistent_key).
Qed.

Lemma sort_insert_sorted x (l : list A) :
  P x → Forall P l →
  StronglySorted (λ a b, key a <= key b) l →
  StronglySorted (λ a b, key a <= key b) (JS.sort_insert compare x l).
Proof.
  intros Hx HP Hsorted. induction Hsorted as [|y l Hl IH Hy]; simpl.
  - repeat constructor.
  - apply Forall_cons in HP as [HPy HP].
    rewrite SortCompare_key by done.
    destruct (decide (key y - key x > 0)) as [Hgt|Hle].
    + constructor; [by constructor|].
      constructor; [lra|]. eapply Forall_impl; [exact Hy|]. simpl. intros; lra.
    + constructor; [by apply IH|].
      rewrite sort_insert_Permutation. constructor; [lra|done].
Qed.

Lemma sort_insert_last x (l : list A) :
  P x → Forall P l → Forall (λ y, key y <= key x) l →
  JS.sort_insert compare x l = l ++ [x].
Proof.
  intros Hx HP Hle. induction l as [|y l IH]; simpl; [done|].
  apply Forall_cons in HP as [HPy HP]. apply Forall_cons in Hle as [Hy Hle].
  rewrite SortCompare_key by done.
  destruct (decide (key y - key x > 0)) as [Hgt|_]; [lra|].
  by rewrite IH.
Qed.

Lemma filter_key_none (l : list A) (v : R) :
  Forall (λ a, key a ≠ v) l → filter (λ a, key a = v) l = [].
Proof.
  induction 1 as [|y l Hy Hl IH]; [done|]. by rewrite filter_cons_False.
Qed.

Lemma sort_insert_filter x (l : list A) (v : R) :
  P x → Forall P l →
  StronglySorted (λ a b, key a <= key b) l →
  filter (λ a, key a = v) (JS.sort_insert compare x l)
  = filter (λ a, key a = v) l ++ filter (λ a, key a = v) [x].
Proof.
  intros Hx HP Hsorted. induction Hsorted as [|y l Hl IH Hy]; simpl; [done|].
  apply Forall_cons in HP as [HPy HP].
  rewrite SortCompare_key by done.
  destruct (decide (key y - key x > 0)) as [Hgt|Hle].
  - rewrite (filter_cons _ x). rewrite (filter_cons _ x []).
    destruct (decide (key x = v)) as [Hv|Hv]; [|by rewrite filter_nil, app_nil_r].
    assert (filter (λ a, key a = v) (y :: l) = []) as ->; [|done].
    apply filter_key_none. constructor; [lra|].
    eapply Forall_impl; [exact Hy|]. simpl. intros; lra.
  - rewrite !(filter_cons _ y). rewrite IH by done.
    by destruct (decide (key y = v)).
Qed.

Lemma foldl_sort_insert (l sorted : list A) :
  Forall P sorted → Forall P l →
  StronglySorted (λ a b, key a <= key b) sorted →
  let result := foldl (λ sorted x, JS.sort_insert compare x sorted) sorted l in
  StronglySorted (λ a b, key a <= key b) result
  ∧ Forall P result
  ∧ ∀ v, filter (λ a, key a = v) result
         = filter (λ a, key a = v) sorted ++ filter (λ a, key a = v) l.
Proof.
  revert sorted. induction l as [|x l IH]; intros sorted HPs HPl Hsorted; simpl.
  - repeat split; [done..|]. intros v. by rewrite filter_nil, app_nil_r.
  - apply Forall_cons in HPl as [HPx HPl].
    destruct (IH (JS.sort_insert compare x sorted)) as (Hs & HPr & Hfilter).
    + rewrite sort_insert_Permutation. by constructor.
    + done.
    + by apply sort_insert_sorted.
    + repeat split; [done..|]. intros v.
      rewrite Hfilter, sort_insert_filter by done.
      rewrite <-app_assoc. f_equal.
      rewrite (filter_cons _ x l), (filter_cons _ x []).
      by destruct (decide (key x = v)).
Qed.

(** A stable sort: the result is in ascending order of the keys, and the
    elements of equal key keep their order. *)
Lemma sort_stable_sorted_stable (l : list A) :
  Forall P l →
  StronglySorted (λ a b, key a <= key b) (JS.sort_stable comparefn l)
  ∧ ∀ v, filter (λ a, key a = v) (JS.sort_stable comparefn l)
         = filter (λ a, key a = v) l.
Proof.
  intros HP. unfold JS.sort_stable. fold compare.
  destruct (foldl_sort_insert l []) as (Hsorted & _ & Hfilter);
    [constructor|done|constructor|].
  split; [done|]. intros v. by rewrite (Hfilter v).
Qed.

(** Sorting a sorted array changes nothing. *)
Lemma sort_stable_sorted_id (l : list A) :
  Forall P l → StronglySorted (λ a b, key a <= key b) l →
  JS.sort_stable comparefn l = l.
Proof.
  intros HP Hsorted. unfold JS.sort_stable. fold compare.
  cut (∀ sorted, Forall P (sorted ++ l) →
         StronglySorted (λ a b, key a <= key b) (sorted ++ l) →
         foldl (λ sorted x, JS.sort_insert compare x sorted) sorted l = sorted ++ l).
  { intros Hgen. by apply (Hgen []). }
  clear HP Hsorted.
  induction l as [|x l IH]; intros sorted HP Hsorted; simpl.
  - by rewrite app_nil_r.
  - rewrite sort_insert_last.
    + rewrite IH; rewrite <-app_assoc; done.
    + apply Forall_app in HP as [_ HP]. by apply Forall_cons in HP as [? _].
    + by apply Forall_app in HP as [? _].
    + apply Forall_forall. intros y Hy.
      apply (StronglySorted_app_1_elem_of (λ a b, key a <= key b)
               sorted (x :: l) y x); [done..|by left].
Qed.

Lemma Array_sort_sorted_stable `{JS.Engine} (l : list A) :
  Forall P l →
  StronglySorted (λ a b, key a <= key b) (JS.Array_sort comparefn l)
  ∧ ∀ v, filter (λ a, key a = v) (JS.Array_sort comparefn l)
         = filter (λ a, key a = v) l.
Proof.
  intros HP. rewrite Array_sort_consistent by done.
  by apply sort_stable_sorted_stable.
Qed.

Lemma Array_sort_idempotent `{JS.Engine} (l : list A) :
  Forall P l →
  JS.Array_sort comparefn (JS.Array_sort comparefn l) = JS.Array_sort comparefn l.
Proof.
  intros HP.
  assert (Forall P (JS.Array_sort comparefn l)) as HP'
    by (by rewrite Array_sort_Permutation).
  rewrite (Array_sort_consistent (JS.Array_sort comparefn l)) by done.
  apply sort_stable_sorted_id; [done|].
  by apply Array_sort_sorted_stable.
Qed.

End sorting.

(** ** The powers of the luminosity *)

Section powers.
Local Open Scope R_scope.

Lemma Math_pow_positive x y : 0 < x → 0 < JS.Math_pow x y.
Proof.
  intros Hx. unfold JS.Math_pow.
  destruct (decide (x = 0)) as [->|_]; [lra|]. apply exp_pos.
Qed.

Lemma Math_pow_zero_base x y : x = 0 → JS.Math_pow x y = 0.
Proof. intros ->. unfold JS.Math_pow. by destruct (decide (0 = 0)). Qed.

Lemma Math_pow_nonnegative x y : 0 <= x → 0 <= JS.Math_pow x y.
Proof.
  intros [Hx| <-].
  - left. by apply Math_pow_positive.
  - by rewrite Math_pow_zero_base.
Qed.

End powers.

(** ** Colour order *)

Section colour_order.
Local Open Scope R_scope.

Lemma channel_of_digits digits n :
  JS.parseInt16 digits = Some n → (0 <= n)%Z →
  channel digits = Some (JS.Math_pow (IZR n / 255) 2.2).
Proof.
  intros Hparse Hn. unfold channel. rewrite Hparse. simpl.
  by rewrite bool_decide_eq_true_2.
Qed.

(** What [luminosity] reads of a colour written [#r1r2g1g2b1b2]: the
    single digit [r1] as red, the single digit [r2] as green and the
    three digits [r2 g1 g2] as blue; [b1] and [b2] are not read. *)
Lemma luminosity_reads (c0 r1 r2 g1 g2 b1 b2 : ascii) :
  let a := String c0 (String r1 (String r2 (String g1 (String g2
             (String b1 (String b2 EmptyString)))))) in
  JS.String_substring a 1 2 = String r1 EmptyString
  ∧ JS.String_substring a 3 2 = String r2 EmptyString
  ∧ JS.String_substring a 5 2 = String r2 (String g1 (String g2 EmptyString)).
Proof. done. Qed.

Lemma luminosity_of_digits a r g b :
  JS.parseInt16 (JS.String_substring a 1 2) = Some r →
  JS.parseInt16 (JS.String_substring a 3 2) = Some g →
  JS.parseInt16 (JS.String_substring a 5 2) = Some b →
  (0 <= r)%Z → (0 <= g)%Z → (0 <= b)%Z →
  luminosity a
  = Some (0.2126 * JS.Math_pow (IZR r / 255) 2.2
          + 0.7152 * JS.Math_pow (IZR g / 255) 2.2
          + 0.0722 * JS.Math_pow (IZR b / 255) 2.2).
Proof.
  intros Hr Hg Hb ???. unfold luminosity.
  rewrite (channel_of_digits (JS.String_substring a 1 2) r),
    (channel_of_digits (JS.String_substring a 3 2) g),
    (channel_of_digits (JS.String_substring a 5 2) b) by done.
  done.
Qed.

Lemma luminance_of_digits a r g b :
  JS.parseInt16 (String.substring 1 2 a) = Some r →
  JS.parseInt16 (String.substring 3 2 a) = Some g →
  JS.parseInt16 (String.substring 5 2 a) = Some b →
  Spec.luminance a
  = Some (0.2126 * JS.Math_pow (IZR r / 255) 2.2
          + 0.7152 * JS.Math_pow (IZR g / 255) 2.2
          + 0.0722 * JS.Math_pow (IZR b / 255) 2.2).
Proof.
  intros Hr Hg Hb. unfold Spec.luminance, Spec.channel.
  rewrite Hr. simpl. rewrite Hg. simpl. by rewrite Hb.
Qed.

Lemma luminosity_black : luminosity "#000000" = Some 0.
Proof.
  rewrite (luminosity_of_digits _ 0 0 0) by done.
  rewrite !Math_pow_zero_base by lra. f_equal. lra.
Qed.

Lemma luminosity_blue : luminosity "#0000FF" = Some 0.
Proof.
  rewrite (luminosity_of_digits _ 0 0 0) by done.
  rewrite !Math_pow_zero_base by lra. f_equal. lra.
Qed.

Lemma luminosity_white : ∃ l, luminosity "#FFFFFF" = Some l ∧ 0 < l.
Proof.
  eexists. split; [by apply (luminosity_of_digits _ 15 15 4095)|].
  pose proof (Math_pow_positive (15 / 255) 2.2).
  pose proof (Math_pow_positive (4095 / 255) 2.2). lra.
Qed.

Lemma luminance_black : Spec.luminance "#000000" = Some 0.
Proof.
  rewrite (luminance_of_digits _ 0 0 0) by done.
  rewrite !Math_pow_zero_base by lra. f_equal. lra.
Qed.

Lemma luminance_blue : ∃ l, Spec.luminance "#0000FF" = Some l ∧ 0 < l.
Proof.
  eexists. split; [by apply (luminance_of_digits _ 0 0 255)|].
  pose proof (Math_pow_positive (255 / 255) 2.2).
  rewrite !Math_pow_zero_base by lra. lra.
Qed.

Lemma compare_luminosity_value a b :
  is_Some (luminosity a) → is_Some (luminosity b) →
  compare_luminosity a b = Some (luminosity_value a - luminosity_value b).
Proof.
  intros [la Ha] [lb Hb]. unfold compare_luminosity, luminosity_value.
  by rewrite Ha, Hb.
Qed.

Lemma compare_luminance_value a b :
  is_Some (Spec.luminance a) → is_Some (Spec.luminance b) →
  Spec.compare_luminance a b
  = Some (default 0 (Spec.luminance a) - default 0 (Spec.luminance b)).
Proof.
  intros [la Ha] [lb Hb]. unfold Spec.compare_luminance.
  by rewrite Ha, Hb.
Qed.

Context `{JS.Engine}.

Lemma luminosity_defined_blue_black :
  Forall (λ c, is_Some (luminosity c)) ["#0000FF"; "#000000"].
Proof.
  repeat constructor; [rewrite luminosity_blue|rewrite luminosity_black];
    by eexists.
Qed.

Lemma sort_blue_black :
  JS.Array_sort compare_luminosity ["#0000FF"; "#000000"] = ["#0000FF"; "#000000"].
Proof.
  pose proof luminosity_defined_blue_black as Hdefined.
  rewrite (Array_sort_consistent compare_luminosity luminosity_value
             (λ c, is_Some (luminosity c)) compare_luminosity_value) by done.
  unfold JS.sort_stable. cbn [foldl JS.sort_insert].
  apply Forall_cons in Hdefined as [Hblue Hdefined].
  apply Forall_cons in Hdefined as [Hblack _].
  rewrite (SortCompare_key compare_luminosity luminosity_value
             (λ c, is_Some (luminosity c)) compare_luminosity_value) by done.
  unfold luminosity_value. rewrite luminosity_blue, luminosity_black. simpl.
  destruct (decide _) as [Hgt|_]; [lra|done].
Qed.

Lemma spec_sort_blue_black :
  JS.Array_sort Spec.compare_luminance ["#0000FF"; "#000000"] = ["#000000"; "#0000FF"].
Proof.
  destruct luminance_blue as (l & Hblue & Hl).
  assert (is_Some (Spec.luminance "#0000FF")) as Hsome_blue
    by (rewrite Hblue; by eexists).
  assert (is_Some (Spec.luminance "#000000")) as Hsome_black
    by (rewrite luminance_black; by eexists).
  rewrite (Array_sort_consistent Spec.compare_luminance
             (λ c, default 0 (Spec.luminance c))
             (λ c, is_Some (Spec.luminance c)) compare_luminance_value)
    by (by repeat constructor).
  unfold JS.sort_stable. cbn [foldl JS.sort_insert].
  rewrite (SortCompare_key Spec.compare_luminance
             (λ c, default 0 (Spec.luminance c))
             (λ c, is_Some (Spec.luminance c)) compare_luminance_value) by done.
  rewrite Hblue, luminance_black. simpl.
  destruct (decide _) as [_|Hle]; [done|lra].
Qed.

Lemma sort_white_black :
  JS.Array_sort compare_luminosity ["#FFFFFF"; "#000000"] = ["#000000"; "#FFFFFF"].
Proof.
  destruct luminosity_white as (l & Hwhite & Hl).
  assert (is_Some (luminosity "#FFFFFF")) as Hsome_white
    by (rewrite Hwhite; by eexists).
  assert (is_Some (luminosity "#000000")) as Hsome_black
    by (rewrite luminosity_black; by eexists).
  rewrite (Array_sort_consistent compare_luminosity luminosity_value
             (λ c, is_Some (luminosity c)) compare_luminosity_value)
    by (by repeat constructor).
  unfold JS.sort_stable. cbn [foldl JS.sort_insert].
  rewrite (SortCompare_key compare_luminosity luminosity_value
             (λ c, is_Some (luminosity c)) compare_luminosity_value) by done.
  unfold luminosity_value. rewrite Hwhite, luminosity_black. simpl.
  destruct (decide _) as [_|Hle]; [done|lra].
Qed.

Context `{turf.API}.

(** C5, at a segment that carries [#0000FF] and [#000000] in this order:
    the code never reads the last two digits of a colour, so the two
    colours tie and keep their order, where the luminance of the
    specification puts black first; with the reversal applied to both,
    the stacking order of the code is the opposite of the specified
    one on every such segment. *)
Theorem colors_sorted_ignores_blue_channel
    (arc : list coordpair) (first_ last_ : option coordpair) :
  let segment :=
    {| geometry := arc; top := first_; bottom := last_;
       colors := ["#0000FF"; "#000000"] |} in
  colors_sorted_by_luminosity segment = ["#0000FF"; "#000000"]
  ∧ JS.Array_sort Spec.compare_luminance (colors segment) = ["#000000"; "#0000FF"]
  ∧ colors_sorted segment
    = Spec.color_order (negb (shouldReverseColor segment)) (colors segment)
  ∧ colors_sorted segment
    ≠ Spec.color_order (shouldReverseColor segment) (colors segment).
Proof.
  intros segment. unfold colors_sorted, Spec.color_order, colors_sorted_by_luminosity.
  simpl colors. rewrite sort_blue_black, spec_sort_blue_black.
  repeat split; [by destruct (shouldReverseColor _)..|].
  by destruct (shouldReverseColor _).
Qed.

End colour_order.
(** ** More on the colour order *)

Section luminosity_facts.
Local Open Scope R_scope.

Lemma hex_digit_range c d : JS.hex_digit c = Some d → (0 <= d < 16)%Z.
Proof.
  intros Hd.
  destruct c as [[] [] [] [] [] [] [] []]; vm_compute in Hd;
    try discriminate Hd; injection Hd as <-; lia.
Qed.

Lemma parseInt16_hex c rest :
  is_hex c →
  JS.parseInt16 (String c rest) = JS.hex_prefix (JS.strip_0x (String c rest)) None.
Proof.
  destruct c as [[] [] [] [] [] [] [] []]; intros [d Hd]; vm_compute in Hd;
    try discriminate; reflexivity.
Qed.

Lemma strip_0x_single c : JS.strip_0x (String c "") = String c "".
Proof. destruct c as [[] [] [] [] [] [] [] []]; reflexivity. Qed.

Lemma strip_0x_hex c1 c2 rest :
  is_hex c2 → JS.strip_0x (String c1 (String c2 rest)) = String c1 (String c2 rest).
Proof.
  intros [d Hd].
  destruct c1 as [[] [] [] [] [] [] [] []]; try reflexivity.
  destruct c2 as [[] [] [] [] [] [] [] []]; vm_compute in Hd;
    try discriminate; reflexivity.
Qed.

Lemma parseInt16_one_digit c d :
  JS.hex_digit c = Some d → JS.parseInt16 (String c "") = Some d.
Proof.
  intros Hd. rewrite parseInt16_hex by by eexists.
  rewrite strip_0x_single. simpl. rewrite Hd. simpl. f_equal; lia.
Qed.

Lemma parseInt16_three_digits c1 c2 c3 d1 d2 d3 :
  JS.hex_digit c1 = Some d1 → JS.hex_digit c2 = Some d2 →
  JS.hex_digit c3 = Some d3 →
  JS.parseInt16 (String c1 (String c2 (String c3 "")))
  = Some (256 * d1 + 16 * d2 + d3)%Z.
Proof.
  intros H1 H2 H3. rewrite parseInt16_hex by by eexists.
  rewrite strip_0x_hex by by eexists. simpl.
  rewrite H1. simpl. rewrite H2. simpl. rewrite H3. simpl. f_equal; lia.
Qed.

Lemma luminosity_reads_prefix (c0 r1 r2 g1 g2 : ascii) (rest : string) :
  let a := String c0 (String r1 (String r2 (String g1 (String g2 rest)))) in
  JS.String_substring a 1 2 = String r1 ""
  ∧ JS.String_substring a 3 2 = String r2 ""
  ∧ JS.String_substring a 5 2 = String r2 (String g1 (String g2 "")).
Proof. unfold JS.String_substring. simpl. by destruct rest. Qed.

(** X9: for a colour whose characters at the indices 1 to 4 are hexadecimal
    digits of values [d1], [d2], [d3], [d4], the luminosity is a number,
    never [NaN]: it is
    [0.2126 (d1/255)^2.2 + 0.7152 (d2/255)^2.2
     + 0.0722 ((256 d2 + 16 d3 + d4)/255)^2.2], which is not negative
    and does not depend on the characters from index 5 on. *)
Theorem luminosity_of_hex_color (c0 r1 r2 g1 g2 : ascii) (rest : string)
    (d1 d2 d3 d4 : Z) :
  JS.hex_digit r1 = Some d1 → JS.hex_digit r2 = Some d2 →
  JS.hex_digit g1 = Some d3 → JS.hex_digit g2 = Some d4 →
  let a := String c0 (String r1 (String r2 (String g1 (String g2 rest)))) in
  let l := 0.2126 * JS.Math_pow (IZR d1 / 255) 2.2
           + 0.7152 * JS.Math_pow (IZR d2 / 255) 2.2
           + 0.0722 * JS.Math_pow (IZR (256 * d2 + 16 * d3 + d4) / 255) 2.2 in
  luminosity a = Some l ∧ 0 <= l.
Proof.
  intros H1 H2 H3 H4 a l.
  pose proof (hex_digit_range _ _ H1). pose proof (hex_digit_range _ _ H2).
  pose proof (hex_digit_range _ _ H3). pose proof (hex_digit_range _ _ H4).
  destruct (luminosity_reads_prefix c0 r1 r2 g1 g2 rest) as (Hr & Hg & Hb).
  split.
  - apply luminosity_of_digits; try lia.
    + fold a in Hr. rewrite Hr. by apply parseInt16_one_digit.
    + fold a in Hg. rewrite Hg. by apply parseInt16_one_digit.
    + fold a in Hb. rewrite Hb. by apply parseInt16_three_digits.
  - assert (0 <= IZR d1 / 255).
    { apply Rmult_le_pos; [apply IZR_le; lia|lra]. }
    assert (0 <= IZR d2 / 255).
    { apply Rmult_le_pos; [apply IZR_le; lia|lra]. }
    assert (0 <= IZR (256 * d2 + 16 * d3 + d4) / 255).
    { apply Rmult_le_pos; [apply IZR_le; lia|lra]. }
    pose proof (Math_pow_nonnegative (IZR d1 / 255) 2.2).
    pose proof (Math_pow_nonnegative (IZR d2 / 255) 2.2).
    pose proof (Math_pow_nonnegative (IZR (256 * d2 + 16 * d3 + d4) / 255) 2.2).
    unfold l. lra.
Qed.

Lemma luminosity_of_hex_color_witness :
  ∃ l, luminosity "#1A2B3C" = Some l ∧ 0 <= l.
Proof.
  eexists.
  apply (luminosity_of_hex_color "#" "1" "A" "2" "B" "3C" 1 10 2 11);
    reflexivity.
Defined.

Context `{JS.Engine} `{turf.API}.

Lemma colors_sorted_by_luminosity_perm (segment : LineSegment) :
  colors_sorted_by_luminosity segment ≡ₚ colors segment.
Proof. apply Array_sort_Permutation. Qed.

Lemma colors_sorted_perm (segment : LineSegment) :
  colors_sorted segment ≡ₚ colors segment.
Proof.
  unfold colors_sorted. destruct (shouldReverseColor segment).
  - rewrite reverse_Permutation. apply colors_sorted_by_luminosity_perm.
  - apply colors_sorted_by_luminosity_perm.
Qed.

(** X10: the stacking order of a segment is a rearrangement of its colours:
    the sort and the reversal neither drop nor repeat a colour, and the
    inner loop of a render runs once for each colour of the segment. *)
Theorem colors_sorted_Permutation (segment : LineSegment) :
  colors_sorted_by_luminosity segment ≡ₚ colors segment
  ∧ colors_sorted segment ≡ₚ colors segment
  ∧ (zip (seq 0 (length (colors_sorted_by_luminosity segment)))
         (colors_sorted segment)).*2 ≡ₚ colors segment.
Proof.
  split; [apply colors_sorted_by_luminosity_perm|].
  split; [apply colors_sorted_perm|].
  rewrite snd_zip; [apply colors_sorted_perm|].
  rewrite length_seq.
  by rewrite (colors_sorted_perm segment), (colors_sorted_by_luminosity_perm segment).
Qed.

(** X11: when every colour of the segment has a number as its luminosity,
    the sort leaves the colours in ascending order of that luminosity, and
    colours of equal luminosity in the order they had; the stacking order
    is this order, reversed when the start of the segment is farther from
    the origin than its end. *)
Theorem colors_sorted_ascending_stable (segment : LineSegment) :
  Forall (λ c, is_Some (luminosity c)) (colors segment) →
  StronglySorted (λ a b, luminosity_value a <= luminosity_value b)
    (colors_sorted_by_luminosity segment)
  ∧ (∀ v, filter (λ a, luminosity_value a = v) (colors_sorted_by_luminosity segment)
          = filter (λ a, luminosity_value a = v) (colors segment))
  ∧ colors_sorted segment
    = if (turf.distance (Some (0, 0)%float) (last (geometry segment))
          <? turf.distance (Some (0, 0)%float) (head (geometry segment)))%float
      then reverse (colors_sorted_by_luminosity segment)
      else colors_sorted_by_luminosity segment.
Proof.
  intros Hdefined.
  destruct (Array_sort_sorted_stable compare_luminosity luminosity_value
              (λ c, is_Some (luminosity c)) compare_luminosity_value
              (colors segment) Hdefined) as [Hsorted Hstable].
  split; [done|]. split; [done|].
  unfold colors_sorted, shouldReverseColor.
  by rewrite Array_at_first, Array_at_last.
Qed.

End luminosity_facts.

Lemma colors_sorted_ascending_stable_witness :
  StronglySorted (λ a b, luminosity_value a <= luminosity_value b)%R
    (@colors_sorted_by_luminosity Samples.engine
       {| geometry := [(0, 0); (1, 1)]%float;
          top := Some (0, 0)%float; bottom := Some (1, 1)%float;
          colors := ["#FFFFFF"; "#000000"] |}).
Proof.
  apply (@colors_sorted_ascending_stable Samples.engine Flat.api
           {| geometry := [(0, 0); (1, 1)]%float;
              top := Some (0, 0)%float; bottom := Some (1, 1)%float;
              colors := ["#FFFFFF"; "#000000"] |}).
  simpl. repeat constructor.
  - destruct luminosity_white as (l & -> & _). by eexists.
  - rewrite luminosity_black. by eexists.
Defined.

(** ** Calls that can throw *)

Section completions.

Lemma bind_Normal {A B} (c : JS.completion A) (k : A → JS.completion B) (b : B) :
  c ≫= k = JS.Normal b → ∃ a, c = JS.Normal a ∧ k a = JS.Normal b.
Proof. destruct c as [a|fault]; [by exists a|done]. Qed.

Lemma Forall2_transfer {A B} (R : A → B → Prop) (P : A → Prop) (Q : B → Prop)
    (l : list A) (l' : list B) :
  Forall2 R l l' → Forall P l → (∀ x y, R x y → P x → Q y) → Forall Q l'.
Proof.
  intros HR HP Hstep. induction HR as [|x y l l' Hxy _ IH]; [constructor|].
  apply Forall_cons in HP as [Hx HP]. constructor; eauto.
Qed.

Lemma polygon_Normal viewbox viewport :
  turf.polygon [viewbox] = JS.Normal viewport →
  viewport = {| turf.rings := [viewbox] |}.
Proof.
  unfold turf.polygon. destruct (turf.check_rings _); [|done]. by intros [= <-].
Qed.

Lemma lineString_Normal coords line :
  turf.lineString coords = JS.Normal line → turf.coordinates line = coords.
Proof.
  destruct coords as [|first [|second others]]; try done. by intros [= <-].
Qed.

End completions.

(** ** What a render does to the stored segments *)

Section stored_segments.
Context `{JS.Engine} `{turf.API}.

Lemma render_segment_fst spacing viewport maps segment_id segment :
  (render_segment spacing viewport maps segment_id segment).1
  = segment_after_render viewport segment.
Proof.
  unfold render_segment, segment_after_render, meets.
  destruct (turf.lineString _) as [line|fault]; [|done].
  by destruct (turf.booleanIntersects _ _).
Qed.

(** The first loop leaves every segment as it was or as its body leaves
    it, under its key. *)
Lemma render_segments_fst spacing viewport entries : ∀ maps,
  Forall2 (λ entry entry',
     entry'.1 = entry.1
     ∧ (entry'.2 = entry.2 ∨ entry'.2 = segment_after_render viewport entry.2))
    entries (render_segments spacing viewport entries maps).1.
Proof.
  induction entries as [|entry entries IH]; intros maps; simpl; [constructor|].
  pose proof (render_segment_fst spacing viewport maps entry.1 entry.2) as Hfst.
  destruct (render_segment spacing viewport maps entry.1 entry.2).2
    as [maps'|fault]; simpl.
  - constructor; [simpl; auto|apply IH].
  - constructor; [simpl; auto|].
    apply Forall_Forall2_diag, Forall_forall. auto.
Qed.

(** [renderLines], run on a worker. *)
Lemma renderLines_run RequestedSpacing viewbox (w : Worker) :
  renderLines RequestedSpacing viewbox w
  = let spacing := JS.Math_max 0.00005 (JS.Math_min 0.3 RequestedSpacing) in
    match turf.polygon [viewbox] with
    | JS.Throw fault =>
        {| this := w; posted := [Msg.add_loading_item]; outcome := JS.Throw fault |}
    | JS.Normal viewport =>
        let r := render_segments spacing viewport (JsMap.entries (LineSegments w))
                   {| RenderedColourLine := JsMap.empty;
                      ColourSegmentsEndpoints := ∅ |} in
        let w' := {| LineSegments := r.1; LineConnections := LineConnections w |} in
        match r.2 with
        | JS.Throw fault =>
            {| this := w'; posted := [Msg.add_loading_item];
               outcome := JS.Throw fault |}
        | JS.Normal maps =>
            match stitch_connections spacing (ColourSegmentsEndpoints maps)
                    (RenderedColourLine maps) (LineConnections w) with
            | JS.Normal rendered =>
                {| this := w';
                   posted := [Msg.add_loading_item; Msg.remove_loading_item];
                   outcome := JS.Normal (turf.featureCollection
                     ((λ entry, turf.multiLineString entry.2 entry.1 entry.1)
                        <$> rendered)) |}
            | JS.Throw fault =>
                {| this := w'; posted := [Msg.add_loading_item];
                   outcome := JS.Throw fault |}
            end
        end
    end.
Proof.
  unfold renderLines, render_at, mbind, Eff_bind, add_loading_item,
    postMessage, get_this, set_LineSegments, call, remove_loading_item,
    mret, Eff_ret. simpl.
  destruct (turf.polygon [viewbox]) as [viewport|fault]; simpl; [|done].
  destruct (render_segments _ _ _ _).2 as [maps|fault]; simpl; [|done].
  by destruct (stitch_connections _ _ _ _).
Qed.

(** The segments a worker holds after [renderLines], whether the call
    returns or throws. *)
Lemma LineSegments_after_renderLines RequestedSpacing viewbox (w : Worker) :
  Forall2 (λ entry entry',
     entry'.1 = entry.1
     ∧ (entry'.2 = entry.2
        ∨ ∃ viewport,
            turf.polygon [viewbox] = JS.Normal viewport
            ∧ entry'.2 = segment_after_render viewport entry.2))
    (LineSegments w)
    (LineSegments (this (renderLines RequestedSpacing viewbox w))).
Proof.
  rewrite renderLines_run. simpl.
  destruct (turf.polygon [viewbox]) as [viewport|fault] eqn:Hviewport; simpl.
  - assert (Forall2 (λ entry entry',
       entry'.1 = entry.1
       ∧ (entry'.2 = entry.2
          ∨ ∃ viewport0,
              JS.Normal viewport = JS.Normal viewport0
              ∧ entry'.2 = segment_after_render viewport0 entry.2))
      (LineSegments w)
      (render_segments (JS.Math_max 0.00005 (JS.Math_min 0.3 RequestedSpacing))
         viewport (JsMap.entries (LineSegments w))
         {| RenderedColourLine := JsMap.empty; ColourSegmentsEndpoints := ∅ |}).1)
      as Hsegments.
    { eapply Forall2_impl; [apply render_segments_fst|].
      intros entry entry' [Hkey [Hsame|Hafter]]; split; eauto. }
    destruct (render_segments _ _ _ _).2 as [maps|fault]; simpl; [|done].
    by destruct (stitch_connections _ _ _ _).
  - apply Forall_Forall2_diag, Forall_forall. auto.
Qed.

Lemma LineConnections_after_renderLines RequestedSpacing viewbox (w : Worker) :
  LineConnections (this (renderLines RequestedSpacing viewbox w))
  = LineConnections w.
Proof.
  rewrite renderLines_run. simpl.
  destruct (turf.polygon [viewbox]) as [viewport|fault]; simpl; [|done].
  destruct (render_segments _ _ _ _).2 as [maps|fault]; simpl; [|done].
  by destruct (stitch_connections _ _ _ _).
Qed.

Lemma keys_after_renderLines RequestedSpacing viewbox (w : Worker) :
  (LineSegments (this (renderLines RequestedSpacing viewbox w))).*1
  = (LineSegments w).*1.
Proof.
  pose proof (LineSegments_after_renderLines RequestedSpacing viewbox w) as Hsegments.
  induction Hsegments as [|entry entry' entries entries' [Hkey _] _ IH]; [done|].
  csimpl. by rewrite Hkey, IH.
Qed.

(** C4, at a worker that holds one segment with the colours [#FFFFFF],
    [#000000] in this order: a render whose viewport meets the segment
    leaves the stored colours in the other order, since [sort] works on
    the stored array. *)
Theorem renderLines_reorders_stored_colors RequestedSpacing viewbox viewport line :
  turf.polygon [viewbox] = JS.Normal viewport →
  turf.lineString [(0, 0); (1, 1)]%float = JS.Normal line →
  turf.booleanIntersects viewport line = true →
  (λ entry, colors entry.2) <$> LineSegments Samples.white_then_black
  = [["#FFFFFF"; "#000000"]]
  ∧ (λ entry, colors entry.2)
      <$> LineSegments (this (renderLines RequestedSpacing viewbox Samples.white_then_black))
    = [["#000000"; "#FFFFFF"]].
Proof.
  intros Hviewport Hline Hmeets. split; [done|].
  rewrite renderLines_run. simpl. rewrite Hviewport. simpl.
  set (r := render_segment _ viewport _ "Segment:0" _).
  assert ((λ entry : string * LineSegment, colors entry.2) <$> [("Segment:0", r.1)]
          = [["#000000"; "#FFFFFF"]]) as Hsorted.
  { unfold r. rewrite render_segment_fst. unfold segment_after_render, meets.
    cbn [geometry]. rewrite Hline, Hmeets. simpl.
    unfold colors_sorted_by_luminosity. simpl. by rewrite sort_white_black. }
  destruct r.2 as [maps|fault]; simpl; exact Hsorted.
Qed.

End stored_segments.

Lemma renderLines_reorders_stored_colors_witness :
  (λ entry, colors entry.2)
    <$> LineSegments
          (this (@renderLines Samples.engine Flat.api 1 Samples.viewbox
                   Samples.white_then_black))
  = [["#000000"; "#FFFFFF"]].
Proof.
  eapply (@renderLines_reorders_stored_colors Samples.engine Flat.api 1%float
            Samples.viewbox); reflexivity.
Defined.

(** ** More on rendering *)

Section render_runs.
Context `{JS.Engine} `{turf.API}.

(** X13: a render keeps the connections, the keys of the segments and their
    order, and the geometry, [top] and [bottom] of every segment; the
    colours of a segment are rearranged at most, and a segment that does
    not meet the viewport is not touched at all.  This holds whether the
    call returns or throws. *)
Theorem renderLines_frame RequestedSpacing viewbox (w : Worker) :
  let w' := this (renderLines RequestedSpacing viewbox w) in
  LineConnections w' = LineConnections w
  ∧ (LineSegments w').*1 = (LineSegments w).*1
  ∧ Forall2 (λ entry entry',
       geometry entry'.2 = geometry entry.2
       ∧ top entry'.2 = top entry.2
       ∧ bottom entry'.2 = bottom entry.2
       ∧ colors entry'.2 ≡ₚ colors entry.2
       ∧ (¬ visible viewbox entry.2 → entry' = entry))
     (LineSegments w) (LineSegments w').
Proof.
  intros w'. split; [|split].
  - apply LineConnections_after_renderLines.
  - apply keys_after_renderLines.
  - eapply Forall2_impl; [apply LineSegments_after_renderLines|].
    intros [key segment] [key' segment'] [Hkey Hsegment]. simpl in *. subst key'.
    destruct Hsegment as [->|(viewport & Hviewport & ->)]; [done|].
    unfold segment_after_render.
    destruct (meets viewport segment) eqn:Hmeets; simpl; [|done].
    repeat split; [apply colors_sorted_by_luminosity_perm|].
    intros Hhidden. destruct Hhidden. by exists viewport.
Qed.

(** X14: a render request posts [add_loading_item] first; when the render
    returns, the worker then posts [remove_loading_item] and one
    [rendered] message with the collection, and the request returns; when
    the render throws, nothing more is posted, the loading item is never
    removed, and the request throws the same exception.  The worker is
    left as the render leaves it. *)
Theorem message_request_render_posts line_width zoom viewbox (w : Worker) :
  let render := renderLines (ScaleSpacing line_width zoom) viewbox w in
  let request := message_request_render line_width zoom viewbox w in
  this request = this render
  ∧ match outcome render with
    | JS.Normal collection =>
        posted request
        = [Msg.add_loading_item; Msg.remove_loading_item; Msg.rendered collection]
        ∧ outcome request = JS.Normal ()
    | JS.Throw fault =>
        posted request = [Msg.add_loading_item]
        ∧ outcome request = JS.Throw fault
    end.
Proof.
  intros render request.
  assert (request
          = match outcome render with
            | JS.Normal collection =>
                {| this := this render;
                   posted := posted render ++ [Msg.rendered collection];
                   outcome := JS.Normal () |}
            | JS.Throw fault =>
                {| this := this render; posted := posted render;
                   outcome := JS.Throw fault |}
            end) as ->.
  { unfold request, message_request_render, mbind, Eff_bind, postMessage.
    fold render. by destruct (outcome render). }
  unfold render. rewrite renderLines_run. simpl.
  destruct (turf.polygon [viewbox]) as [viewport|fault]; simpl; [|done].
  destruct (render_segments _ _ _ _).2 as [maps|fault]; simpl; [|done].
  by destruct (stitch_connections _ _ _ _).
Qed.

End render_runs.

(** ** Rendering again *)

Section rendering_again.
Context `{JS.Engine} `{turf.API}.

Lemma colors_sorted_by_luminosity_idempotent (segment : LineSegment) :
  Forall (λ c, is_Some (luminosity c)) (colors segment) →
  JS.Array_sort compare_luminosity (colors_sorted_by_luminosity segment)
  = colors_sorted_by_luminosity segment.
Proof.
  intros Hdefined. unfold colors_sorted_by_luminosity.
  by apply (Array_sort_idempotent compare_luminosity luminosity_value
              (λ c, is_Some (luminosity c)) compare_luminosity_value).
Qed.

Lemma render_segment_after spacing viewport maps segment_id segment :
  Forall (λ c, is_Some (luminosity c)) (colors segment) →
  render_segment spacing viewport maps segment_id
    (segment_after_render viewport segment)
  = render_segment spacing viewport maps segment_id segment.
Proof.
  intros Hdefined. unfold segment_after_render, meets.
  destruct (turf.lineString (geometry segment)) as [line|fault] eqn:Hline; [|done].
  destruct (turf.booleanIntersects viewport line) eqn:Hmeets; [|done].
  unfold render_segment. cbn [geometry]. rewrite Hline, Hmeets. simpl.
  set (sorted := {| geometry := geometry segment; top := top segment;
                    bottom := bottom segment;
                    colors := colors_sorted_by_luminosity segment |}).
  assert (colors_sorted_by_luminosity sorted = colors_sorted_by_luminosity segment)
    as Hsorted by exact (colors_sorted_by_luminosity_idempotent segment Hdefined).
  assert (colors_sorted sorted = colors_sorted segment) as Hstacked.
  { unfold colors_sorted. rewrite Hsorted. done. }
  by rewrite Hsorted, Hstacked.
Qed.

(** The first loop, run again on the entries it left, does what it did:
    also when it throws, in the body of the same segment. *)
Lemma render_segments_again spacing viewport entries : ∀ maps,
  Forall (λ entry, Forall (λ c, is_Some (luminosity c)) (colors entry.2)) entries →
  render_segments spacing viewport
    (render_segments spacing viewport entries maps).1 maps
  = render_segments spacing viewport entries maps.
Proof.
  induction entries as [|[key segment] entries IH]; intros maps Hentries; [done|].
  apply Forall_cons in Hentries as [Hentry Hentries]. simpl in Hentry.
  cbn [render_segments fst snd].
  pose proof (render_segment_fst spacing viewport maps key segment) as Hfst.
  pose proof (render_segment_after spacing viewport maps key segment Hentry)
    as Hafter.
  destruct (render_segment spacing viewport maps key segment) as [segment' r]
    eqn:Hbody.
  simpl in Hfst. subst segment'. cbn [fst snd].
  destruct r as [maps'|fault]; cbn [render_segments fst snd];
    rewrite Hafter; cbn [fst snd]; [|done].
  by rewrite IH.
Qed.

(** X18: rendering twice is rendering once.  When every stored colour has a
    number as its luminosity, a second [renderLines] with the same
    arguments on the worker that the first one left posts the same
    messages, returns the same collection (or throws the same fault) and
    leaves the worker as it found it: the reordering of the stored colours
    by the first render does not show in any later render. *)
Theorem renderLines_twice RequestedSpacing viewbox (w : Worker) :
  Forall (λ entry, Forall (λ c, is_Some (luminosity c)) (colors entry.2))
    (LineSegments w) →
  renderLines RequestedSpacing viewbox
    (this (renderLines RequestedSpacing viewbox w))
  = renderLines RequestedSpacing viewbox w.
Proof.
  intros Hdefined.
  rewrite (renderLines_run _ _ (this _)).
  rewrite LineConnections_after_renderLines.
  rewrite (renderLines_run _ _ w).
  destruct (turf.polygon [viewbox]) as [viewport|fault] eqn:Hviewport;
    cbn zeta; [|done].
  set (spacing := JS.Math_max _ _).
  set (r := render_segments spacing viewport (JsMap.entries (LineSegments w)) _).
  assert (LineSegments
            (this match r.2 with
                  | JS.Normal maps =>
                      match stitch_connections spacing (ColourSegmentsEndpoints maps)
                              (RenderedColourLine maps) (LineConnections w) with
                      | JS.Normal rendered =>
                          {| this := {| LineSegments := r.1;
                                        LineConnections := LineConnections w |};
                             posted := [Msg.add_loading_item; Msg.remove_loading_item];
                             outcome := JS.Normal (turf.featureCollection
                               ((λ entry, turf.multiLineString entry.2 entry.1 entry.1)
                                  <$> rendered)) |}
                      | JS.Throw fault =>
                          {| this := {| LineSegments := r.1;
                                        LineConnections := LineConnections w |};
                             posted := [Msg.add_loading_item];
                             outcome := JS.Throw fault |}
                      end
                  | JS.Throw fault =>
                      {| this := {| LineSegments := r.1;
                                    LineConnections := LineConnections w |};
                         posted := [Msg.add_loading_item];
                         outcome := JS.Throw fault |}
                  end) = r.1) as ->.
  { destruct r.2 as [maps|fault]; [|done].
    by destruct (stitch_connections _ _ _ _). }
  unfold JsMap.entries, r. by rewrite render_segments_again.
Qed.

End rendering_again.

Lemma renderLines_twice_witness :
  @renderLines Samples.engine Flat.api 1 Samples.viewbox
    (this (@renderLines Samples.engine Flat.api 1 Samples.viewbox
             Samples.white_then_black))
  = @renderLines Samples.engine Flat.api 1 Samples.viewbox Samples.white_then_black.
Proof.
  apply (@renderLines_twice Samples.engine Flat.api). simpl. repeat constructor.
  - destruct luminosity_white as (l & -> & _). by eexists.
  - rewrite luminosity_black. by eexists.
Defined.

(** ** What every state of the worker satisfies *)

Section invariant.
Context `{JS.Engine} `{turf.API}.

Lemma renderLines_as_ingested RequestedSpacing viewbox w :
  as_ingested w → as_ingested (this (renderLines RequestedSpacing viewbox w)).
Proof.
  intros [Hsegments Hconnections]. split.
  - apply Forall_forall. intros entry' Hentry'.
    assert (entry'.1 ∈ (LineSegments (this (renderLines RequestedSpacing viewbox w))).*1)
      as Hkey by (by apply list_elem_of_fmap_2).
    rewrite keys_after_renderLines in Hkey.
    apply list_elem_of_fmap in Hkey as (entry & -> & Hentry).
    by apply (proj1 (Forall_forall _ _) Hsegments).
  - by rewrite LineConnections_after_renderLines.
Qed.

Lemma reachable_as_ingested w : reachable w → as_ingested w.
Proof.
  induction 1 as [|w data _ _|w line_width zoom viewbox _ IH].
  - split; constructor.
  - pose proof (processTopologies_as_ingested data w) as Hingested.
    unfold message_init, mbind, Eff_bind, postMessage.
    by destruct (outcome (processTopologies data w)).
  - pose proof (renderLines_as_ingested (ScaleSpacing line_width zoom) viewbox w IH)
      as Hrendered.
    unfold message_request_render, mbind, Eff_bind, postMessage.
    by destruct (outcome (renderLines _ _ w)).
Qed.

Lemma well_formed_new : well_formed new_worker.
Proof. repeat split; constructor. Qed.

Lemma well_formed_processTopologies data (w : Worker) :
  well_formed (this (processTopologies data w)).
Proof.
  rewrite processTopologies_run.
  destruct (decide _); [|apply well_formed_new].
  split; [|split; [|split]]; simpl.
  - apply ExtractLineSegments_NoDup_keys.
  - rewrite ExtractLineSegments_fmap. apply Forall_fmap, Forall_forall.
    intros i _. simpl. apply NoDup_omap_defined, NoDup_Set_of.
  - apply NoDup_Set_of.
  - apply Forall_forall. intros connection Hin. rewrite elem_of_Set_of in Hin.
    apply list_elem_of_bind in Hin as (line & Hin & _).
    apply list_elem_of_fmap in Hin as (pair & -> & _). simpl.
    split; [apply fromId_nonnegative|apply toId_nonnegative].
Qed.

Lemma well_formed_renderLines RequestedSpacing viewbox (w : Worker) :
  well_formed w → well_formed (this (renderLines RequestedSpacing viewbox w)).
Proof.
  intros (Hkeys & Hcolors & Hconnections & Hids).
  split; [|split; [|split]]; rewrite ?LineConnections_after_renderLines; try done.
  - by rewrite keys_after_renderLines.
  - eapply Forall2_transfer;
      [apply (LineSegments_after_renderLines RequestedSpacing viewbox w)
      |exact Hcolors|].
    intros entry entry' [_ Hentry] Hnodup.
    destruct Hentry as [->|(viewport & _ & ->)]; [done|].
    unfold segment_after_render. destruct (meets viewport entry.2); [|done].
    simpl. by rewrite colors_sorted_by_luminosity_perm.
Qed.

(** X5: in every state the worker can reach from a new worker through
    [init] and [request_render] messages, whether they return or throw,
    the keys of the stored segments are distinct, the colours of each
    segment are distinct, no connection is stored twice, and the segment
    ids of the connections are not negative. *)
Theorem reachable_well_formed (w : Worker) : reachable w → well_formed w.
Proof.
  induction 1 as [|w data _ _|w line_width zoom viewbox _ IH].
  - apply well_formed_new.
  - pose proof (well_formed_processTopologies data w) as Hinit.
    unfold message_init, mbind, Eff_bind, postMessage.
    by destruct (outcome (processTopologies data w)).
  - pose proof (well_formed_renderLines (ScaleSpacing line_width zoom) viewbox w IH)
      as Hrendered.
    unfold message_request_render, mbind, Eff_bind, postMessage.
    by destruct (outcome (renderLines _ _ w)).
Qed.

End invariant.

Lemma reachable_well_formed_witness : well_formed Samples.ingested_two_arcs.
Proof.
  apply (@reachable_well_formed Samples.engine Flat.api). do 2 constructor.
Defined.

Lemma ingested_two_arcs_connections :
  LineConnections Samples.ingested_two_arcs
  = [] ++ {| from := (0%Z, "bottom"); to := (1%Z, "top"); color := "#FF0000" |} :: [].
Proof. vm_compute. reflexivity. Qed.

Lemma ingested_two_arcs_as_ingested : as_ingested Samples.ingested_two_arcs.
Proof.
  apply (@reachable_as_ingested Samples.engine Flat.api). do 2 constructor.
Qed.

Lemma extractLineConnections_derived_witness :
  ∃ Connections,
    extractLineConnections Samples.back_and_forth = JS.Normal Connections
    ∧ (∀ connection,
         connection ∈ Connections
         ↔ ∃ line prev cur,
             line ∈ geometries Samples.back_and_forth
             ∧ adjacent (line_arcs line) prev cur
             ∧ connection = derived_connection (stroke (properties line)) prev cur)
    ∧ NoDup Connections.
Proof.
  apply extractLineConnections_derived. repeat constructor. done.
Defined.

(** ** The endpoint registry and the rendered colours *)

Section records.

Lemma set_for_insert Q registry segment_id color_ suffix value :
  set_for Q registry → suffix ∈ endpoint_suffixes → Q segment_id color_ →
  set_for Q (<[segment_id +:+ ":" +:+ color_ +:+ suffix := value]> registry).
Proof.
  intros Hreg Hsuffix HQ key. rewrite lookup_insert.
  destruct (decide _) as [<-|_]; [by exists segment_id, color_, suffix|apply Hreg].
Qed.

Lemma set_for_empty Q : set_for Q ∅.
Proof. intros key. rewrite lookup_empty. by intros [? ?]. Qed.

Lemma record_line_set_for Q segment_id color_ processed offset buffer maps :
  set_for Q (ColourSegmentsEndpoints maps) → Q segment_id color_ →
  set_for Q (ColourSegmentsEndpoints
               (record_line segment_id color_ processed offset buffer maps)).
Proof.
  intros Hreg HQ. unfold record_line, set_endpoint. simpl.
  repeat (apply set_for_insert;
          [|unfold endpoint_suffixes; rewrite !elem_of_cons; tauto|done]).
  done.
Qed.

Lemma record_all_set_for Q records : ∀ maps,
  set_for Q (ColourSegmentsEndpoints maps) →
  Forall (λ r, Q (recorded_segment r) (recorded_color r)) records →
  set_for Q (ColourSegmentsEndpoints (record_all maps records)).
Proof.
  induction records as [|r records IH]; intros maps Hreg HQ; [done|].
  apply Forall_cons in HQ as [Hr HQ]. simpl. apply IH; [|done].
  by apply record_line_set_for.
Qed.

Lemma record_line_keys segment_id color_ processed offset buffer maps :
  (RenderedColourLine
     (record_line segment_id color_ processed offset buffer maps)).*1
  = JS.add_unseen (RenderedColourLine maps).*1 color_.
Proof.
  unfold record_line, set_endpoint. simpl.
  destruct (JsMap.get (RenderedColourLine maps) color_); apply JsMap_keys_set.
Qed.

Lemma record_all_keys records : ∀ maps,
  (RenderedColourLine (record_all maps records)).*1
  = foldl JS.add_unseen (RenderedColourLine maps).*1 (recorded_color <$> records).
Proof.
  induction records as [|r records IH]; intros maps; [done|].
  csimpl. rewrite IH. f_equal. apply record_line_keys.
Qed.

Lemma all_defined_set registry key (value : option turf.Position) :
  all_defined registry → is_Some value → all_defined (<[key := value]> registry).
Proof.
  intros Hreg Hvalue key' value'. rewrite lookup_insert.
  destruct (decide _); [by intros [= <-]|apply Hreg].
Qed.

Lemma has_keys_set segment_id color_ registry key value :
  has_keys segment_id color_ registry →
  has_keys segment_id color_ (<[key := value]> registry).
Proof.
  intros Hkeys suffix Hsuffix. rewrite lookup_insert.
  destruct (decide _); [by eexists|by apply Hkeys].
Qed.

Lemma is_Some_insert_eq (registry : gmap string (option turf.Position)) key value :
  is_Some (<[key := value]> registry !! key).
Proof. rewrite lookup_insert_eq. by eexists. Qed.

Lemma is_Some_insert_mono (registry : gmap string (option turf.Position))
    key key' value :
  is_Some (registry !! key) → is_Some (<[key' := value]> registry !! key).
Proof.
  intros Hkey. rewrite lookup_insert. destruct (decide _); [by eexists|done].
Qed.

Lemma record_line_has_keys segment_id color_ processed offset buffer maps :
  has_keys segment_id color_
    (ColourSegmentsEndpoints
       (record_line segment_id color_ processed offset buffer maps)).
Proof.
  unfold record_line, set_endpoint, has_keys, endpoint_suffixes. simpl.
  intros suffix. rewrite !elem_of_cons, elem_of_nil.
  intros [->|[->|[->|[->|[->|[->|[]]]]]]];
    repeat first [apply is_Some_insert_eq | apply is_Some_insert_mono].
Qed.

Lemma record_line_keeps_keys segment_id color_ processed offset buffer maps
    segment_id' color' :
  has_keys segment_id' color' (ColourSegmentsEndpoints maps) →
  has_keys segment_id' color'
    (ColourSegmentsEndpoints
       (record_line segment_id color_ processed offset buffer maps)).
Proof.
  intros Hkeys. unfold record_line, set_endpoint. simpl.
  by repeat apply has_keys_set.
Qed.

Lemma record_all_keeps_keys records segment_id color_ : ∀ maps,
  has_keys segment_id color_ (ColourSegmentsEndpoints maps) →
  has_keys segment_id color_ (ColourSegmentsEndpoints (record_all maps records)).
Proof.
  induction records as [|r records IH]; intros maps Hkeys; [done|].
  simpl. apply IH. by apply record_line_keeps_keys.
Qed.

Lemma record_all_has_keys records r : ∀ maps,
  r ∈ records →
  has_keys (recorded_segment r) (recorded_color r)
    (ColourSegmentsEndpoints (record_all maps records)).
Proof.
  induction records as [|r' records IH]; intros maps Hr.
  { by apply elem_of_nil in Hr. }
  apply elem_of_cons in Hr as [->|Hlater]; [|by apply IH].
  simpl. apply record_all_keeps_keys, record_line_has_keys.
Qed.

Lemma Array_at_ends_defined {A} (arr : list A) :
  arr ≠ [] →
  is_Some (JS.Array_at arr 0)
  ∧ is_Some (JS.Array_at arr (Z.of_nat (length arr) - 1)).
Proof.
  intros Harr. rewrite Array_at_first, Array_at_last.
  destruct arr as [|x arr]; [done|]. split; [by eexists|].
  rewrite last_cons. destruct (last arr); by eexists.
Qed.

Lemma record_line_all_defined segment_id color_ processed offset buffer maps :
  processed ≠ [] →
  all_defined (ColourSegmentsEndpoints maps) →
  all_defined
    (ColourSegmentsEndpoints
       (record_line segment_id color_ processed offset buffer maps)).
Proof.
  intros Hprocessed Hreg. unfold record_line, set_endpoint.
  cbn [ColourSegmentsEndpoints].
  repeat apply all_defined_set; try done; by apply Array_at_ends_defined.
Qed.

Lemma record_all_all_defined records : ∀ maps,
  Forall (λ r, recorded_processed r ≠ []) records →
  all_defined (ColourSegmentsEndpoints maps) →
  all_defined (ColourSegmentsEndpoints (record_all maps records)).
Proof.
  induction records as [|r records IH]; intros maps Hrecords Hreg; [done|].
  apply Forall_cons in Hrecords as [Hr Hrecords]. simpl. apply IH; [done|].
  by apply record_line_all_defined.
Qed.

Lemma record_all_app maps records records' :
  record_all maps (records ++ records')
  = record_all (record_all maps records) records'.
Proof. apply foldl_app. Qed.

End records.

(** ** The first loop as a sequence of records *)

Section trace.
Context `{JS.Engine} `{turf.API}.

Lemma render_color_trace spacing flag segment_id line_clipped linespace
    totallines maps i color_ maps' :
  render_color spacing flag segment_id line_clipped linespace totallines
    maps i color_ = JS.Normal maps' →
  ∃ r, recorded_pair r = (segment_id, color_) ∧ processed flag r
       ∧ maps' = record_all maps [r].
Proof.
  unfold render_color. intros Hrun.
  apply bind_Normal in Hrun as (offset & _ & Hrun).
  apply bind_Normal in Hrun as (buffer & _ & Hrun).
  apply bind_Normal in Hrun as (invasive & _ & Hrun).
  apply bind_Normal in Hrun as (line & Hline & Hrun).
  injection Hrun as <-.
  exists {| recorded_segment := segment_id; recorded_color := color_;
            recorded_processed := line; recorded_offset := offset;
            recorded_buffer := buffer |}.
  split; [done|]. split; [by exists invasive|done].
Qed.

Lemma render_colors_trace spacing flag segment_id line_clipped linespace
    totallines indexed : ∀ maps maps',
  render_colors spacing flag segment_id line_clipped linespace totallines
    maps indexed = JS.Normal maps' →
  ∃ records,
    recorded_pair <$> records = (λ c, (segment_id, c)) <$> indexed.*2
    ∧ Forall (processed flag) records
    ∧ maps' = record_all maps records.
Proof.
  induction indexed as [|[i color_] indexed IH]; intros maps maps' Hrun.
  { injection Hrun as <-. by exists []. }
  simpl in Hrun. apply bind_Normal in Hrun as (maps1 & Hfirst & Hrest).
  apply render_color_trace in Hfirst as (r & Hpair & Hr & ->).
  apply IH in Hrest as (records & Hpairs & Hrecords & ->).
  exists (r :: records). csimpl. rewrite Hpair, Hpairs.
  split; [done|]. split; [by constructor|done].
Qed.

Lemma colors_sorted_length segment :
  length (colors_sorted segment) = length (colors_sorted_by_luminosity segment).
Proof.
  unfold colors_sorted. destruct (shouldReverseColor segment); [|done].
  apply length_reverse.
Qed.

Lemma render_segment_trace spacing viewport maps segment_id segment maps' :
  (render_segment spacing viewport maps segment_id segment).2 = JS.Normal maps' →
  ∃ records,
    recorded_pair <$> records
    = (λ c, (segment_id, c))
        <$> (if meets viewport segment then colors_sorted segment else [])
    ∧ Forall (processed (spacing <? 0.007)%float) records
    ∧ maps' = record_all maps records.
Proof.
  unfold render_segment, meets.
  destruct (turf.lineString _) as [line|fault]; [|done].
  destruct (turf.booleanIntersects _ _); simpl.
  - intros Hrun. apply bind_Normal in Hrun as (line_clipped & _ & Hrun).
    apply render_colors_trace in Hrun as (records & Hpairs & Hrecords & ->).
    exists records. split; [|done].
    rewrite Hpairs, snd_zip; [done|].
    by rewrite length_seq, colors_sorted_length.
  - intros [= <-]. by exists [].
Qed.

Lemma render_segments_trace spacing viewport entries : ∀ maps maps',
  (render_segments spacing viewport entries maps).2 = JS.Normal maps' →
  ∃ records,
    recorded_pair <$> records = drawn_pairs viewport entries
    ∧ Forall (processed (spacing <? 0.007)%float) records
    ∧ maps' = record_all maps records.
Proof.
  induction entries as [|entry entries IH]; intros maps maps'.
  { intros [= <-]. by exists []. }
  simpl.
  destruct (render_segment _ _ _ _ _).2 as [maps1|fault] eqn:Hfirst; [|done].
  simpl. intros Hrest.
  apply render_segment_trace in Hfirst as (records1 & Hpairs1 & Hrecords1 & ->).
  apply IH in Hrest as (records & Hpairs & Hrecords & ->).
  exists (records1 ++ records). rewrite fmap_app, Hpairs1, Hpairs.
  split; [done|]. split; [by apply Forall_app|]. by rewrite record_all_app.
Qed.

Lemma maps_after_segments_trace w spacing viewbox maps :
  maps_after_segments w spacing viewbox = JS.Normal maps →
  ∃ viewport records,
    turf.polygon [viewbox] = JS.Normal viewport
    ∧ recorded_pair <$> records = drawn_pairs viewport (LineSegments w)
    ∧ Forall (processed (spacing <? 0.007)%float) records
    ∧ maps = record_all no_maps records.
Proof.
  unfold maps_after_segments. intros Hrun.
  apply bind_Normal in Hrun as (viewport & Hviewport & Hrun).
  apply render_segments_trace in Hrun as (records & ? & ? & ?).
  by exists viewport, records.
Qed.

Lemma drawn_pairs_colors viewport entries :
  (drawn_pairs viewport entries).*2 = drawn_colors viewport entries.
Proof.
  unfold drawn_pairs, drawn_colors.
  induction entries as [|entry entries IH]; [done|].
  csimpl. rewrite fmap_app, IH. f_equal.
  rewrite <-list_fmap_compose. apply list_fmap_id.
Qed.

Lemma elem_of_drawn_pairs viewport entries segment_id color_ :
  (segment_id, color_) ∈ drawn_pairs viewport entries
  ↔ ∃ segment, (segment_id, segment) ∈ entries
               ∧ meets viewport segment = true ∧ color_ ∈ colors segment.
Proof.
  unfold drawn_pairs. rewrite list_elem_of_bind. split.
  - intros ([key segment] & Hc & Hentry). simpl in Hc.
    apply list_elem_of_fmap in Hc as (c & [= -> ->] & Hc).
    exists segment. split; [done|].
    destruct (meets viewport segment); [|by apply elem_of_nil in Hc].
    split; [done|]. by rewrite <-(colors_sorted_perm segment).
  - intros (segment & Hentry & Hmeets & Hc). exists (segment_id, segment).
    split; [|done]. simpl. rewrite Hmeets. apply list_elem_of_fmap.
    exists color_. split; [done|]. by rewrite (colors_sorted_perm segment).
Qed.

Lemma elem_of_drawn_colors viewport entries c :
  c ∈ drawn_colors viewport entries
  ↔ ∃ entry, entry ∈ entries ∧ meets viewport entry.2 = true ∧ c ∈ colors entry.2.
Proof.
  unfold drawn_colors. rewrite list_elem_of_bind. split.
  - intros (entry & Hc & Hentry). exists entry. split; [done|].
    destruct (meets viewport entry.2); [|by apply elem_of_nil in Hc].
    split; [done|]. by rewrite <-(colors_sorted_perm entry.2).
  - intros (entry & Hentry & Hmeets & Hc). exists entry. split; [|done].
    rewrite Hmeets. by rewrite (colors_sorted_perm entry.2).
Qed.

End trace.

(** ** The keys of the registry *)

Section registry_keys.

Lemma endpoint_suffix_fields suffix :
  suffix ∈ endpoint_suffixes →
  ∃ tag variant,
    suffix = ":" +:+ tag +:+ variant
    ∧ tag ∈ ["top"; "bottom"]
    ∧ variant ∈ [""; ":buffer"; ":invasive"].
Proof.
  unfold endpoint_suffixes. rewrite !elem_of_cons, elem_of_nil.
  intros [->|[->|[->|[->|[->|[->|[]]]]]]].
  - exists "top", "". set_solver.
  - exists "top", ":invasive". set_solver.
  - exists "top", ":buffer". set_solver.
  - exists "bottom", "". set_solver.
  - exists "bottom", ":invasive". set_solver.
  - exists "bottom", ":buffer". set_solver.
Qed.

(** Two keys with a tag and a variant at their end agree on what comes
    before, whatever that is. *)
Lemma tag_variant_inj a a' tag tag' variant variant' :
  tag ∈ ["top"; "bottom"] → tag' ∈ ["top"; "bottom"] →
  variant ∈ [""; ":buffer"; ":invasive"] →
  variant' ∈ [""; ":buffer"; ":invasive"] →
  a +:+ ":" +:+ tag +:+ variant = a' +:+ ":" +:+ tag' +:+ variant' →
  a = a'.
Proof.
  rewrite !elem_of_cons, !elem_of_nil.
  intros [->|[->|[]]] [->|[->|[]]] [->|[->|[->|[]]]] [->|[->|[->|[]]]] Heq;
    first
      [ by apply split_at_counted_colon in Heq as [-> _]
      | rewrite <-(append_assoc a' ":" _), <-(append_assoc _ _ ":buffer"),
          (append_assoc a' ":" _) in Heq;
        by apply (split_at_counted_colon a _ _ "buffer") in Heq as [_ ?]
      | rewrite <-(append_assoc a' ":" _), <-(append_assoc _ _ ":invasive"),
          (append_assoc a' ":" _) in Heq;
        by apply (split_at_counted_colon a _ _ "invasive") in Heq as [_ ?]
      | rewrite <-(append_assoc a ":" _), <-(append_assoc _ _ ":buffer"),
          (append_assoc a ":" _) in Heq;
        by apply (split_at_counted_colon _ a' "buffer" _) in Heq as [_ ?]
      | rewrite <-(append_assoc a ":" _), <-(append_assoc _ _ ":invasive"),
          (append_assoc a ":" _) in Heq;
        by apply (split_at_counted_colon _ a' "invasive" _) in Heq as [_ ?] ].
Qed.

Lemma append_nil_r (a : string) : a +:+ "" = a.
Proof. induction a as [|x a IH]; [done|]. by rewrite append_cons, IH. Qed.

(** The key of a lookup, read as a key that was set: the segment and the
    colour are those of the lookup. *)
Lemma endpoint_key_decode (endpoint : Z * string) color_ variant
    (i : Z) c suffix :
  endpoint.2 ∈ ["top"; "bottom"] →
  variant ∈ [""; ":buffer"; ":invasive"] →
  suffix ∈ endpoint_suffixes →
  endpoint_key endpoint color_ +:+ variant
  = segment_key i +:+ ":" +:+ c +:+ suffix →
  endpoint.1 = i ∧ color_ = c.
Proof.
  intros Htag Hvariant Hsuffix Heq.
  apply endpoint_suffix_fields in Hsuffix
    as (tag' & variant' & -> & Htag' & Hvariant').
  destruct endpoint as [id tag]. unfold endpoint_key, segment_key in Heq.
  simpl in *. rewrite !append_assoc in Heq.
  apply (inj (String.append "Segment:")) in Heq.
  apply split_at_first_colon in Heq as [Hid Heq];
    [|apply colons_Number_toString..].
  split; [by apply Number_toString_inj|].
  by apply tag_variant_inj in Heq.
Qed.

Lemma endpoint_key_suffix (endpoint : Z * string) color_ variant :
  endpoint.2 ∈ ["top"; "bottom"] →
  variant ∈ [""; ":buffer"; ":invasive"] →
  ∃ suffix, suffix ∈ endpoint_suffixes
            ∧ endpoint_key endpoint color_ +:+ variant
              = segment_key endpoint.1 +:+ ":" +:+ color_ +:+ suffix.
Proof.
  destruct endpoint as [id tag]. simpl. intros Htag Hvariant.
  exists (":" +:+ tag +:+ variant). split.
  - revert Htag Hvariant. unfold endpoint_suffixes.
    rewrite !elem_of_cons, !elem_of_nil.
    intros [->|[->|[]]] [->|[->|[->|[]]]]; simpl; tauto.
  - unfold endpoint_key, segment_key. simpl. by rewrite !append_assoc.
Qed.

Lemma get_endpoint_is_Some registry key :
  is_Some (get_endpoint registry key) → is_Some (registry !! key).
Proof.
  unfold get_endpoint. destruct (registry !! key) as [value|]; simpl.
  - by eexists.
  - by intros [? ?].
Qed.

Lemma existsb_is_undefined {A} (coords : list (option A)) :
  existsb is_undefined coords = true ↔ None ∈ coords.
Proof.
  induction coords as [|[c|] coords IH]; simpl.
  - rewrite elem_of_nil. split; [done|tauto].
  - rewrite IH, elem_of_cons. split; [tauto|]. by intros [|].
  - rewrite elem_of_cons. split; [tauto|done].
Qed.

Lemma existsb_is_undefined_false {A} (coords : list (option A)) :
  existsb is_undefined coords = false ↔ Forall is_Some coords.
Proof.
  induction coords as [|[c|] coords IH]; simpl.
  - split; [constructor|done].
  - rewrite IH. split; [by constructor|]. by intros [_ ?]%Forall_cons.
  - split; [done|]. intros [[? ?] _]%Forall_cons. done.
Qed.

Lemma omap_Some {A} (points : list A) : omap (λ c, c) (Some <$> points) = points.
Proof. induction points as [|p points IH]; simpl; [done|by f_equal]. Qed.

Lemma Forall_is_Some {A} (coords : list (option A)) :
  Forall is_Some coords → coords = Some <$> omap (λ c, c) coords.
Proof.
  induction 1 as [|c coords [p ->] _ IH]; [done|]. csimpl. by rewrite <-IH.
Qed.

(** The colours with rendered lines after a sequence of records are the
    recorded colours. *)
Lemma record_all_rendered records c :
  is_Some (JsMap.get (RenderedColourLine (record_all no_maps records)) c)
  ↔ c ∈ recorded_color <$> records.
Proof.
  rewrite JsMap_get_is_Some, record_all_keys. apply elem_of_Set_of.
Qed.

Lemma record_all_NoDup records :
  NoDup (RenderedColourLine (record_all no_maps records)).*1.
Proof. rewrite record_all_keys. apply NoDup_Set_of. Qed.

(** Every key of the registry after a sequence of records was set for a
    recorded pair. *)
Lemma record_all_registry records :
  set_for (λ segment_id c, (segment_id, c) ∈ recorded_pair <$> records)
    (ColourSegmentsEndpoints (record_all no_maps records)).
Proof.
  apply record_all_set_for; [apply set_for_empty|].
  apply Forall_forall. intros r Hr. apply list_elem_of_fmap. by exists r.
Qed.

(** A lookup that finds something after a sequence of records whose
    segments have segment keys was set for its own segment and colour. *)
Lemma lookup_recorded records (endpoint : Z * string) color_ variant :
  Forall (λ r, ∃ i : Z, recorded_segment r = segment_key i) records →
  endpoint.2 ∈ ["top"; "bottom"] →
  variant ∈ [""; ":buffer"; ":invasive"] →
  is_Some (get_endpoint (ColourSegmentsEndpoints (record_all no_maps records))
             (endpoint_key endpoint color_ +:+ variant)) →
  (segment_key endpoint.1, color_) ∈ recorded_pair <$> records.
Proof.
  intros Hkeys Htag Hvariant Hfound%get_endpoint_is_Some.
  destruct (record_all_registry records _ Hfound)
    as (segment_id & c & suffix & Heq & Hsuffix & Hpair).
  pose proof Hpair as Hpair'.
  apply list_elem_of_fmap in Hpair' as (r & [= -> ->] & Hr).
  eapply Forall_forall in Hkeys as [i Hi]; [|exact Hr].
  rewrite Hi in Heq, Hpair.
  apply endpoint_key_decode in Heq as [-> ->]; done.
Qed.

End registry_keys.

(** ** The second loop *)

Section stitching.
Context `{turf.API}.
Context (spacing : float) (registry : gmap string (option turf.Position)).

Lemma JsMap_entries_Forall2 {V W} (R : string → V → W → Prop)
    (m : JsMap.t V) (m' : JsMap.t W) :
  m'.*1 = m.*1 → NoDup m.*1 →
  (∀ key v, JsMap.get m key = Some v →
            ∃ v', JsMap.get m' key = Some v' ∧ R key v v') →
  Forall2 (λ entry entry', entry'.1 = entry.1 ∧ R entry.1 entry.2 entry'.2) m m'.
Proof.
  revert m'. induction m as [|[k v] m IH]; intros m' Hkeys Hnodup Hget.
  { destruct m'; [constructor|done]. }
  destruct m' as [|[k' v'] m']; [done|]. csimpl in *.
  injection Hkeys as -> Hkeys. apply NoDup_cons in Hnodup as [Hfresh Hnodup].
  constructor.
  - split; [done|]. simpl. destruct (Hget k v) as (v'' & Hv'' & HR).
    { by rewrite decide_True. }
    rewrite decide_True in Hv'' by done. by injection Hv'' as <-.
  - apply IH; [done..|]. intros key v0 Hv0.
    assert (k ≠ key) as Hne.
    { intros ->. apply Hfresh. apply JsMap_get_is_Some. by eexists. }
    destruct (Hget key v0) as (v'' & Hv'' & HR).
    { by rewrite decide_False. }
    rewrite decide_False in Hv'' by done. by exists v''.
Qed.

(** What one connection does to the rendered lines when the body of the
    loop returns: the keys stay, and the lines of a colour get the chain
    of the connection when it has this colour and six points. *)
Lemma stitch_connection_get rendered connection rendered' :
  stitch_connection spacing registry rendered connection = JS.Normal rendered' →
  rendered'.*1 = rendered.*1
  ∧ ∀ c lines_, JsMap.get rendered c = Some lines_ →
      ∃ chains,
        JsMap.get rendered' c = Some (lines_ ++ chains)
        ∧ Forall2 (chain_of spacing registry)
            (filter (stitches registry c) [connection]) chains.
Proof.
  unfold stitch_connection.
  destruct (existsb is_undefined _) eqn:Hcoords; simpl.
  - intros [= <-]. split; [done|]. intros c lines_ Hlines. exists [].
    rewrite app_nil_r. split; [done|].
    rewrite filter_cons_False; [constructor|].
    intros [_ Hdefined%existsb_is_undefined_false]. congruence.
  - apply existsb_is_undefined_false in Hcoords.
    destruct (JsMap.get rendered (color connection)) as [rendered_lines|] eqn:Hcolor;
      [|done].
    intros Hrun. apply bind_Normal in Hrun as (line & Hline & Hrun).
    injection Hrun as <-. split.
    + rewrite JsMap_keys_set. unfold JS.add_unseen. rewrite decide_True; [done|].
      apply JsMap_get_is_Some. by eexists.
    + intros c lines_ Hlines. rewrite JsMap_get_set.
      destruct (decide (color connection = c)) as [<-|Hother].
      * exists [line]. rewrite Hcolor in Hlines. injection Hlines as <-.
        split; [done|]. rewrite filter_cons_True by done.
        constructor; [|constructor].
        exists (omap (λ c, c) (connection_coords registry connection)).
        split; [by apply Forall_is_Some|exact Hline].
      * exists []. rewrite app_nil_r. split; [done|].
        rewrite filter_cons_False; [constructor|]. by intros [? _].
Qed.

Lemma stitch_connections_get connections : ∀ rendered rendered',
  stitch_connections spacing registry rendered connections = JS.Normal rendered' →
  rendered'.*1 = rendered.*1
  ∧ ∀ c lines_, JsMap.get rendered c = Some lines_ →
      ∃ chains,
        JsMap.get rendered' c = Some (lines_ ++ chains)
        ∧ Forall2 (chain_of spacing registry)
            (filter (stitches registry c) connections) chains.
Proof.
  induction connections as [|connection connections IH]; intros rendered rendered'.
  { intros [= <-]. split; [done|]. intros c lines_ Hlines. exists [].
    rewrite app_nil_r. split; [done|constructor]. }
  simpl. intros Hrun. apply bind_Normal in Hrun as (rendered1 & Hfirst & Hrest).
  apply stitch_connection_get in Hfirst as [Hkeys1 Hget1].
  apply IH in Hrest as [Hkeys Hget]. split; [congruence|].
  intros c lines_ Hlines.
  destruct (Hget1 c lines_ Hlines) as (chains1 & Hlines1 & Hchains1).
  destruct (Hget c _ Hlines1) as (chains & Hlines' & Hchains).
  exists (chains1 ++ chains). rewrite Hlines', <-app_assoc. split; [done|].
  change (connection :: connections) with ([connection] ++ connections).
  rewrite filter_app. by apply Forall2_app.
Qed.

(** The rendered lines after the second loop, entry by entry. *)
Lemma stitch_connections_entries connections rendered rendered' :
  NoDup rendered.*1 →
  stitch_connections spacing registry rendered connections = JS.Normal rendered' →
  Forall2 (λ entry entry',
      entry'.1 = entry.1
      ∧ ∃ chains,
          entry'.2 = entry.2 ++ chains
          ∧ Forall2 (chain_of spacing registry)
              (filter (stitches registry entry.1) connections) chains)
    rendered rendered'.
Proof.
  intros Hnodup Hrun. apply stitch_connections_get in Hrun as [Hkeys Hget].
  set (R := λ (key : string) (lines_ lines' : list (list turf.Position)),
         ∃ chains,
           lines' = lines_ ++ chains
           ∧ Forall2 (chain_of spacing registry)
               (filter (stitches registry key) connections) chains).
  apply (JsMap_entries_Forall2 R); [done..|].
  intros key lines_ Hlines. destruct (Hget key lines_ Hlines) as (chains & ? & ?).
  exists (lines_ ++ chains). split; [done|]. by exists chains.
Qed.

(** With a registry whose keys were all set for colours with rendered
    lines, the body of the loop finds the lines of the colour whenever it
    looks for them: it returns, or throws what [smooth] throws. *)
Lemma stitch_connection_outcome rendered connection :
  (∀ variant, variant ∈ [""; ":buffer"; ":invasive"] →
     is_Some (get_endpoint registry
                (endpoint_key (from connection) (color connection) +:+ variant)) →
     is_Some (JsMap.get rendered (color connection))) →
  (Forall is_Some (connection_coords registry connection) →
   is_Some (JsMap.get rendered (color connection)))
  ∧ match stitch_connection spacing registry rendered connection with
    | JS.Normal rendered' =>
        ∀ c, is_Some (JsMap.get rendered c) → is_Some (JsMap.get rendered' c)
    | JS.Throw fault => ∃ points, stitched spacing points = JS.Throw fault
    end.
Proof.
  intros Hreg.
  assert (Forall is_Some (connection_coords registry connection) →
          is_Some (JsMap.get rendered (color connection))) as Hcolor.
  { unfold connection_coords. intros [Hfirst _]%Forall_cons.
    apply (Hreg ""); [by constructor|]. by rewrite append_nil_r. }
  split; [done|]. unfold stitch_connection.
  destruct (existsb is_undefined _) eqn:Hcoords; simpl; [done|].
  apply existsb_is_undefined_false in Hcoords.
  destruct (Hcolor Hcoords) as [lines_ ->].
  unfold stitched.
  destruct (spacing <? 0.11)%float; simpl.
  - destruct (turf.smooth _ 7 0.75) as [line|fault] eqn:Hsmooth; simpl.
    + intros c. apply JsMap_get_set_is_Some.
    + by eexists.
  - intros c. apply JsMap_get_set_is_Some.
Qed.

End stitching.

(** ** The whole render *)

Section whole_render.
Context `{JS.Engine} `{turf.API}.

(** A render that returns went through both loops. *)
Lemma renderLines_returns RequestedSpacing viewbox (w : Worker) collection :
  outcome (renderLines RequestedSpacing viewbox w) = JS.Normal collection →
  let spacing := JS.Math_max 0.00005 (JS.Math_min 0.3 RequestedSpacing) in
  ∃ maps rendered,
    maps_after_segments w spacing viewbox = JS.Normal maps
    ∧ stitch_connections spacing (ColourSegmentsEndpoints maps)
        (RenderedColourLine maps) (LineConnections w) = JS.Normal rendered
    ∧ collection
      = turf.featureCollection
          ((λ entry, turf.multiLineString entry.2 entry.1 entry.1)
             <$> JsMap.entries rendered).
Proof.
  rewrite renderLines_run. simpl. unfold maps_after_segments.
  destruct (turf.polygon [viewbox]) as [viewport|fault]; simpl; [|done].
  destruct (render_segments _ _ _ _).2 as [maps|fault]; simpl; [|done].
  destruct (stitch_connections _ _ _ _) as [rendered|fault] eqn:Hstitch;
    simpl; [|done].
  intros [= <-]. by exists maps, rendered.
Qed.

Lemma visible_meets viewbox viewport segment :
  turf.polygon [viewbox] = JS.Normal viewport →
  visible viewbox segment ↔ meets viewport segment = true.
Proof.
  intros Hviewport. unfold visible. split.
  - intros (viewport' & Hviewport' & Hmeets). congruence.
  - intros Hmeets. by exists viewport.
Qed.

(** The records of the first loop on a worker that holds an ingested
    topology are made for segment keys. *)
Lemma drawn_pairs_keys viewport (entries : list (string * LineSegment)) records :
  Forall (λ entry, ∃ i : Z, entry.1 = segment_key i) entries →
  recorded_pair <$> records = drawn_pairs viewport entries →
  Forall (λ r, ∃ i : Z, recorded_segment r = segment_key i) records.
Proof.
  intros Hkeys Hpairs. apply Forall_forall. intros r Hr.
  assert (recorded_pair r ∈ drawn_pairs viewport entries) as Hpair.
  { rewrite <-Hpairs. apply list_elem_of_fmap. by exists r. }
  apply elem_of_drawn_pairs in Hpair as (segment & Hentry & _).
  eapply Forall_forall in Hkeys; [|exact Hentry]. done.
Qed.

(** After the first loop of a render on a worker that holds an ingested
    topology, a lookup for a connection that finds something shows that
    the colour of the connection has rendered lines. *)
Lemma lookup_color_rendered (w : Worker) spacing viewbox maps
    (endpoint : Z * string) color_ variant :
  as_ingested w →
  maps_after_segments w spacing viewbox = JS.Normal maps →
  endpoint.2 ∈ ["top"; "bottom"] →
  variant ∈ [""; ":buffer"; ":invasive"] →
  is_Some (get_endpoint (ColourSegmentsEndpoints maps)
             (endpoint_key endpoint color_ +:+ variant)) →
  is_Some (JsMap.get (RenderedColourLine maps) color_).
Proof.
  intros [Hkeys _] Hmaps Htag Hvariant Hfound.
  apply maps_after_segments_trace in Hmaps
    as (viewport & records & _ & Hpairs & _ & ->).
  apply record_all_rendered.
  apply lookup_recorded in Hfound; [|by eapply drawn_pairs_keys|done..].
  apply list_elem_of_fmap in Hfound as (r & [= _ ->] & Hr).
  apply list_elem_of_fmap. by exists r.
Qed.

Lemma stitch_connections_faults spacing registry connections : ∀ rendered,
  (∀ connection variant,
     connection ∈ connections → variant ∈ [""; ":buffer"; ":invasive"] →
     is_Some (get_endpoint registry
                (endpoint_key (from connection) (color connection) +:+ variant)) →
     is_Some (JsMap.get rendered (color connection))) →
  ∀ fault,
    stitch_connections spacing registry rendered connections = JS.Throw fault →
    ∃ points, turf.smooth points 7 0.75 = JS.Throw fault.
Proof.
  induction connections as [|connection connections IH]; intros rendered Hreg fault;
    [done|].
  simpl.
  destruct (stitch_connection_outcome spacing registry rendered connection)
    as [_ Hbody].
  { intros variant. apply Hreg. by left. }
  destruct (stitch_connection _ _ _ _) as [rendered'|fault'] eqn:Hfirst; simpl.
  - apply IH. intros connection' variant Hin Hvariant Hfound.
    apply Hbody, (Hreg connection' variant); [by right|done..].
  - intros [= <-]. destruct Hbody as [points Hpoints]. exists points.
    unfold stitched in Hpoints. by destruct (spacing <? 0.11)%float.
Qed.

(** C10: in a render of a worker that holds an ingested topology, take
    the two maps as the first loop leaves them.  Whenever the second loop
    reaches a connection, with [rendered] the lines so far, and the six
    lookups of the connection all return a value, [rendered] has an entry
    for the colour of the connection: [RenderedColourLine.get] returns an
    array to push on.  So the second loop throws only what [smooth]
    throws. *)
Theorem stitched_color_is_rendered (w : Worker) (RequestedSpacing : float)
    (viewbox : list turf.Position) (maps : RenderMaps) :
  as_ingested w →
  let spacing := JS.Math_max 0.00005 (JS.Math_min 0.3 RequestedSpacing) in
  maps_after_segments w spacing viewbox = JS.Normal maps →
  (∀ done_ connection rest rendered,
     LineConnections w = done_ ++ connection :: rest →
     stitch_connections spacing (ColourSegmentsEndpoints maps)
       (RenderedColourLine maps) done_ = JS.Normal rendered →
     Forall is_Some (connection_coords (ColourSegmentsEndpoints maps) connection) →
     JsMap.has rendered (color connection) = true)
  ∧ (∀ fault,
       stitch_connections spacing (ColourSegmentsEndpoints maps)
         (RenderedColourLine maps) (LineConnections w) = JS.Throw fault →
       ∃ points, turf.smooth points 7 0.75 = JS.Throw fault).
Proof.
  intros Hw spacing Hmaps. pose proof Hw as [_ Htagged]. split.
  - intros done_ connection rest rendered Hsplit Hdone Hcoords.
    unfold JsMap.has. apply bool_decide_eq_true.
    apply stitch_connections_get in Hdone as [Hkeys _].
    apply JsMap_get_is_Some. rewrite Hkeys. apply JsMap_get_is_Some.
    rewrite Hsplit in Htagged. apply Forall_app in Htagged as [_ Htagged].
    apply Forall_cons in Htagged as [[Hfrom _] _].
    unfold connection_coords in Hcoords. apply Forall_cons in Hcoords as [Hfirst _].
    apply (lookup_color_rendered w spacing viewbox maps (from connection) _ "");
      [done..|by constructor|]. by rewrite append_nil_r.
  - apply stitch_connections_faults.
    intros connection variant Hconnection Hvariant Hfound.
    eapply Forall_forall in Htagged as [Hfrom _]; [|exact Hconnection].
    by apply (lookup_color_rendered w spacing viewbox maps (from connection) _ variant).
Qed.

(** C9: the features a render returns, by what the two loops put in them.
    Take the two maps as the first loop leaves them.  The collection has
    one feature for each colour with rendered lines, in the same order;
    its lines are the rendered lines of the first loop followed by one
    polyline for each connection of the worker, in their order, that has
    this colour and whose six lookups all return a value: the chain of
    the six points from.actual, from.buffer, from.invasive, to.invasive,
    to.buffer, to.actual, smoothed with 7 iterations and factor 0.75 when
    the spacing is below 0.11 and as it is otherwise.  A connection with
    a lookup that returns nothing adds no polyline to any feature. *)
Theorem stitch_connections_policy (w : Worker) (RequestedSpacing : float)
    (viewbox : list turf.Position) (collection : turf.FeatureCollection) :
  outcome (renderLines RequestedSpacing viewbox w) = JS.Normal collection →
  let spacing := JS.Math_max 0.00005 (JS.Math_min 0.3 RequestedSpacing) in
  ∃ maps,
    maps_after_segments w spacing viewbox = JS.Normal maps
    ∧ let lookup := get_endpoint (ColourSegmentsEndpoints maps) in
      let chain connection :=
        let from_key := endpoint_key (from connection) (color connection) in
        let to_key := endpoint_key (to connection) (color connection) in
        [lookup from_key; lookup (from_key +:+ ":buffer");
         lookup (from_key +:+ ":invasive"); lookup (to_key +:+ ":invasive");
         lookup (to_key +:+ ":buffer"); lookup to_key] in
      Forall2 (λ entry feature,
          turf.feature_id feature = entry.1
          ∧ ∃ chains,
              turf.lines feature = entry.2 ++ chains
              ∧ Forall2 (λ connection line,
                    ∃ points,
                      chain connection = Some <$> points
                      ∧ JS.Normal line
                        = if (spacing <? 0.11)%float
                          then turf.smooth points 7 0.75
                          else JS.Normal points)
                  (filter (λ connection,
                             color connection = entry.1
                             ∧ Forall is_Some (chain connection))
                          (LineConnections w))
                  chains)
        (JsMap.entries (RenderedColourLine maps))
        (turf.features collection).
Proof.
  intros Hrun spacing.
  apply renderLines_returns in Hrun as (maps & rendered & Hmaps & Hstitch & ->).
  exists maps. split; [done|]. simpl.
  pose proof Hmaps as Htrace.
  apply maps_after_segments_trace in Htrace as (viewport & records & _ & _ & _ & ->).
  apply stitch_connections_entries in Hstitch; [|apply record_all_NoDup].
  apply Forall2_fmap_r.
  eapply Forall2_impl; [exact Hstitch|].
  intros entry entry' (Hkey & chains & Hlines & Hchains). simpl.
  split; [done|]. exists chains. split; [done|].
  eapply Forall2_impl; [exact Hchains|].
  intros connection line (points & Hpoints & Hline). exists points.
  split; [exact Hpoints|]. symmetry. exact Hline.
Qed.

(** X15: when a render returns, it returns one feature per drawn colour:
    the ids of the features are the colours of the segments that meet the
    viewport, each once, in the order in which the segments and their
    stacking orders bring them up first; the stroke of a feature is its
    id.  A colour has a feature exactly when a visible segment carries
    it; in particular the collection is empty when no segment meets the
    viewport. *)
Theorem renderLines_features RequestedSpacing viewbox (w : Worker)
    (collection : turf.FeatureCollection) :
  outcome (renderLines RequestedSpacing viewbox w) = JS.Normal collection →
  ∃ viewport,
    turf.polygon [viewbox] = JS.Normal viewport
    ∧ turf.feature_id <$> turf.features collection
      = JS.Set_of (drawn_colors viewport (LineSegments w))
    ∧ Forall (λ feature, turf.feature_stroke feature = turf.feature_id feature)
        (turf.features collection)
    ∧ NoDup (turf.feature_id <$> turf.features collection)
    ∧ ∀ c, c ∈ turf.feature_id <$> turf.features collection
           ↔ ∃ entry, entry ∈ LineSegments w
                      ∧ visible viewbox entry.2 ∧ c ∈ colors entry.2.
Proof.
  intros Hrun.
  apply renderLines_returns in Hrun as (maps & rendered & Hmaps & Hstitch & ->).
  apply maps_after_segments_trace in Hmaps
    as (viewport & records & Hviewport & Hpairs & _ & ->).
  apply stitch_connections_get in Hstitch as [Hkeys _].
  exists viewport. split; [done|]. simpl.
  assert (turf.feature_id
            <$> ((λ entry, turf.multiLineString entry.2 entry.1 entry.1)
                   <$> JsMap.entries rendered)
          = JS.Set_of (drawn_colors viewport (LineSegments w))) as Hids.
  { rewrite <-list_fmap_compose. unfold JsMap.entries.
    change (rendered.*1 = JS.Set_of (drawn_colors viewport (LineSegments w))).
    rewrite Hkeys, record_all_keys, <-drawn_pairs_colors, <-Hpairs.
    by rewrite <-list_fmap_compose. }
  split; [done|]. split; [|split].
  - apply Forall_fmap, Forall_forall. by intros [c lines_] _.
  - rewrite Hids. apply NoDup_Set_of.
  - intros c. rewrite Hids, elem_of_Set_of, elem_of_drawn_colors.
    split; intros (entry & Hentry & Hmeets & Hc); exists entry;
      (split; [done|split; [|done]]); by apply (visible_meets viewbox viewport).
Qed.

(** X16: a connection is stitched only between two segments that are drawn
    with its colour: when the six lookups of a connection of the worker
    all return a value, the segments with the ids of its two ends are
    stored, meet the viewport and carry the colour of the connection.  A
    connection to a segment outside the viewport, to a segment that is
    not stored, or in a colour that the segment does not carry is
    dropped. *)
Theorem stitched_connection_is_drawn (w : Worker) (spacing : float)
    (viewbox : list turf.Position) (connection : LineConnection)
    (maps : RenderMaps) :
  as_ingested w → connection ∈ LineConnections w →
  maps_after_segments w spacing viewbox = JS.Normal maps →
  Forall is_Some (connection_coords (ColourSegmentsEndpoints maps) connection) →
  drawn w viewbox (from connection) (color connection)
  ∧ drawn w viewbox (to connection) (color connection).
Proof.
  intros [Hkeys Htagged] Hconnection Hmaps Hcoords. unfold drawn.
  eapply Forall_forall in Htagged as [Hfrom Hto]; [|exact Hconnection].
  apply maps_after_segments_trace in Hmaps
    as (viewport & records & Hviewport & Hpairs & _ & ->).
  assert (∀ endpoint,
    endpoint.2 ∈ ["top"; "bottom"] →
    is_Some (get_endpoint (ColourSegmentsEndpoints (record_all no_maps records))
               (endpoint_key endpoint (color connection))) →
    ∃ segment, (segment_key endpoint.1, segment) ∈ LineSegments w
               ∧ visible viewbox segment ∧ color connection ∈ colors segment)
    as Hend.
  { intros endpoint Htag Hfound.
    rewrite <-(append_nil_r (endpoint_key _ _)) in Hfound.
    apply lookup_recorded in Hfound;
      [|by eapply drawn_pairs_keys|done|by constructor].
    rewrite Hpairs in Hfound.
    apply elem_of_drawn_pairs in Hfound as (segment & Hentry & Hmeets & Hc).
    exists segment. split; [done|]. split; [|done].
    by apply (visible_meets viewbox viewport). }
  unfold connection_coords in Hcoords.
  apply Forall_cons in Hcoords as [Hfirst Hcoords].
  do 4 apply Forall_cons in Hcoords as [_ Hcoords].
  apply Forall_cons in Hcoords as [Hlast _].
  split; by apply Hend.
Qed.

End whole_render.

(** ** Which connections are not dropped *)

Section completeness.
Context `{JS.Engine} `{turf.API}.

Lemma processed_nonempty flag r :
  (∀ path smoothed,
     turf.smooth path 2 0.75 = JS.Normal smoothed → path ≠ [] → smoothed ≠ []) →
  processed flag r → recorded_processed r ≠ [].
Proof.
  intros Hsmooth [line Hline]. unfold ProcessOffsetLines in Hline.
  destruct flag.
  - by eapply Hsmooth.
  - by injection Hline as <-.
Qed.

(** The lookups of an endpoint of a recorded segment and colour find a
    value when no recorded line is empty. *)
Lemma recorded_lookup_defined records (endpoint : Z * string) color_ variant :
  Forall (λ r, recorded_processed r ≠ []) records →
  endpoint.2 ∈ ["top"; "bottom"] →
  variant ∈ [""; ":buffer"; ":invasive"] →
  (segment_key endpoint.1, color_) ∈ recorded_pair <$> records →
  is_Some (get_endpoint (ColourSegmentsEndpoints (record_all no_maps records))
             (endpoint_key endpoint color_ +:+ variant)).
Proof.
  intros Hrecords Htag Hvariant Hpair.
  apply list_elem_of_fmap in Hpair as (r & Hpair & Hr).
  destruct (endpoint_key_suffix endpoint color_ variant Htag Hvariant)
    as (suffix & Hsuffix & ->).
  pose proof (record_all_has_keys records r no_maps Hr suffix Hsuffix) as Hkey.
  unfold recorded_pair in Hpair. injection Hpair as Hsegment Hcolor.
  rewrite <-Hsegment, <-Hcolor in Hkey. destruct Hkey as [value Hvalue].
  unfold get_endpoint. rewrite Hvalue. simpl.
  eapply (record_all_all_defined records no_maps); [done| |exact Hvalue].
  intros key value'. simpl. by rewrite lookup_empty.
Qed.

(** X17: a connection between two drawn ends is stitched.  Take a render
    that returns, on a worker that holds an ingested topology, with a
    [smooth] that gives a path with points for a path with points.  If
    both ends of a connection of the worker are drawn (their segments are
    stored, meet the viewport and carry the colour of the connection)
    then the six lookups return six points, and the feature of the colour
    in the collection the render returns has the chain of these points
    among its lines, smoothed when the spacing is below 0.11. *)
Theorem drawn_connection_is_stitched (w : Worker) (RequestedSpacing : float)
    (viewbox : list turf.Position) (connection : LineConnection)
    (collection : turf.FeatureCollection) :
  as_ingested w → connection ∈ LineConnections w →
  (∀ path smoothed,
     turf.smooth path 2 0.75 = JS.Normal smoothed → path ≠ [] → smoothed ≠ []) →
  outcome (renderLines RequestedSpacing viewbox w) = JS.Normal collection →
  drawn w viewbox (from connection) (color connection) →
  drawn w viewbox (to connection) (color connection) →
  let spacing := JS.Math_max 0.00005 (JS.Math_min 0.3 RequestedSpacing) in
  ∃ maps feature points line,
    maps_after_segments w spacing viewbox = JS.Normal maps
    ∧ connection_coords (ColourSegmentsEndpoints maps) connection = Some <$> points
    ∧ length points = 6
    ∧ JS.Normal line
      = (if (spacing <? 0.11)%float
         then turf.smooth points 7 0.75 else JS.Normal points)
    ∧ feature ∈ turf.features collection
    ∧ turf.feature_id feature = color connection
    ∧ line ∈ turf.lines feature.
Proof.
  intros [_ Htagged] Hconnection Hsmooth Hrun Hfrom Hto spacing.
  eapply Forall_forall in Htagged as [Hfrom_tag Hto_tag]; [|exact Hconnection].
  apply renderLines_returns in Hrun as (maps & rendered & Hmaps & Hstitch & ->).
  fold spacing in Hmaps, Hstitch. pose proof Hmaps as Htrace.
  apply maps_after_segments_trace in Htrace
    as (viewport & records & Hviewport & Hpairs & Hprocessed & ->).
  assert (Forall (λ r, recorded_processed r ≠ []) records) as Hnonempty.
  { eapply Forall_impl; [exact Hprocessed|]. intros r. by apply processed_nonempty. }
  assert (∀ endpoint,
    drawn w viewbox endpoint (color connection) →
    (segment_key endpoint.1, color connection) ∈ recorded_pair <$> records)
    as Hrecorded.
  { intros endpoint (segment & Hentry & Hvisible & Hc). rewrite Hpairs.
    apply elem_of_drawn_pairs. exists segment. split; [done|]. split; [|done].
    by apply (visible_meets viewbox viewport). }
  set (registry := ColourSegmentsEndpoints (record_all no_maps records)) in *.
  assert (Forall is_Some (connection_coords registry connection)) as Hcoords.
  { unfold connection_coords.
    rewrite <-(append_nil_r (endpoint_key (from connection) _)) at 1.
    rewrite <-(append_nil_r (endpoint_key (to connection) _)) at 3.
    repeat constructor; apply recorded_lookup_defined; auto;
      rewrite !elem_of_cons; tauto. }
  assert (is_Some (JsMap.get (RenderedColourLine (record_all no_maps records))
                     (color connection))) as [lines_ Hlines].
  { apply record_all_rendered. specialize (Hrecorded _ Hfrom).
    apply list_elem_of_fmap in Hrecorded as (r & [= _ ->] & Hr).
    apply list_elem_of_fmap. by exists r. }
  apply stitch_connections_get in Hstitch as [Hkeys Hget].
  destruct (Hget _ _ Hlines) as (chains & Hlines' & Hchains).
  assert (connection ∈ filter (stitches registry (color connection))
                         (LineConnections w)) as Hkept.
  { apply list_elem_of_filter. by split. }
  apply list_elem_of_lookup in Hkept as [i Hi].
  destruct (Forall2_lookup_l _ _ _ _ _ Hchains Hi)
    as (line & Hline & points & Hpoints & Hstitched).
  exists (record_all no_maps records),
    (turf.multiLineString (lines_ ++ chains) (color connection) (color connection)),
    points, line.
  split; [done|]. split; [done|]. split.
  { apply (f_equal length) in Hpoints. rewrite length_fmap in Hpoints.
    by rewrite <-Hpoints. }
  split; [by symmetry|]. split; [|split; [done|]].
  - simpl. apply list_elem_of_fmap. exists (color connection, lines_ ++ chains).
    split; [done|]. unfold JsMap.entries. apply JsMap_get_elem_of; [|done].
    rewrite Hkeys. apply record_all_NoDup.
  - simpl. apply elem_of_app. right. by eapply list_elem_of_lookup_2.
Qed.

End completeness.

(** ** Renders that throw at once *)

Section refusals.
Context `{JS.Engine} `{turf.API}.

Lemma polygon_short_ring viewbox :
  length viewbox < 4 →
  turf.polygon [viewbox]
  = JS.Throw (JS.Error "Each LinearRing of a Polygon must have 4 or more Positions.").
Proof.
  intros Hshort. unfold turf.polygon. simpl. unfold turf.check_ring.
  by rewrite bool_decide_eq_true_2.
Qed.

Lemma lineString_short coords :
  length coords < 2 →
  turf.lineString coords
  = JS.Throw (JS.Error "coordinates must be an array of two or more positions").
Proof. destruct coords as [|first [|second others]]; simpl; [done|done|lia]. Qed.

Lemma render_segments_short_arc spacing viewport entries entry : ∀ maps,
  entry ∈ entries → length (geometry entry.2) < 2 →
  ∃ fault, (render_segments spacing viewport entries maps).2 = JS.Throw fault.
Proof.
  induction entries as [|first entries IH]; intros maps Hentry Hshort.
  { by apply elem_of_nil in Hentry. }
  simpl.
  destruct (render_segment spacing viewport maps first.1 first.2).2
    as [maps1|fault] eqn:Hfirst; simpl; [|by eexists].
  apply elem_of_cons in Hentry as [->|Hlater]; [|by apply IH].
  unfold render_segment in Hfirst. by rewrite lineString_short in Hfirst.
Qed.

(** X19: a viewbox of fewer than 4 positions is refused: the render throws
    the error of [polygon] before it reads a segment, the worker is as
    before, and after [add_loading_item] nothing is posted: the loading
    item is not removed. *)
Theorem renderLines_refuses_short_ring RequestedSpacing viewbox (w : Worker) :
  length viewbox < 4 →
  renderLines RequestedSpacing viewbox w
  = {| this := w; posted := [Msg.add_loading_item];
       outcome :=
         JS.Throw
           (JS.Error "Each LinearRing of a Polygon must have 4 or more Positions.") |}.
Proof.
  intros Hshort. rewrite renderLines_run. simpl.
  by rewrite polygon_short_ring.
Qed.

(** X20: a worker that holds a segment with fewer than 2 coordinates is
    never rendered: every render throws, whatever the spacing and the
    viewbox, and after [add_loading_item] nothing is posted. *)
Theorem renderLines_throws_on_short_arc RequestedSpacing viewbox (w : Worker)
    (entry : string * LineSegment) :
  entry ∈ LineSegments w → length (geometry entry.2) < 2 →
  ∃ fault,
    outcome (renderLines RequestedSpacing viewbox w) = JS.Throw fault
    ∧ posted (renderLines RequestedSpacing viewbox w) = [Msg.add_loading_item].
Proof.
  intros Hentry Hshort. rewrite renderLines_run. simpl.
  destruct (turf.polygon [viewbox]) as [viewport|fault]; simpl; [|by eexists].
  destruct (render_segments_short_arc
              (JS.Math_max 0.00005 (JS.Math_min 0.3 RequestedSpacing)) viewport
              (JsMap.entries (LineSegments w)) entry no_maps Hentry Hshort)
    as [fault Hfault].
  unfold no_maps in Hfault. rewrite Hfault. by eexists.
Qed.

End refusals.

Lemma renderLines_refuses_short_ring_witness :
  outcome (@renderLines Samples.engine Flat.api 1 [] Samples.ingested_two_arcs)
  = JS.Throw (JS.Error "Each LinearRing of a Polygon must have 4 or more Positions.").
Proof.
  rewrite (@renderLines_refuses_short_ring Samples.engine Flat.api 1%float []
             Samples.ingested_two_arcs); [reflexivity|simpl; lia].
Defined.

Lemma renderLines_throws_on_short_arc_witness :
  ∃ fault,
    outcome (@renderLines Samples.engine Flat.api 1 Samples.viewbox
               Samples.ingested_one_point_arc) = JS.Throw fault
    ∧ posted (@renderLines Samples.engine Flat.api 1 Samples.viewbox
                Samples.ingested_one_point_arc) = [Msg.add_loading_item].
Proof.
  apply (@renderLines_throws_on_short_arc Samples.engine Flat.api 1%float
           Samples.viewbox Samples.ingested_one_point_arc
           ("Segment:0",
            {| geometry := [(0, 0)%float]; top := Some (0, 0)%float;
               bottom := Some (0, 0)%float; colors := ["#FF0000"] |})).
  - vm_compute. by left.
  - simpl. lia.
Defined.

(** ** Renders of the sample topology *)

Section sample_renders.
Local Open Scope float_scope.

Lemma Array_sort_single `{JS.Engine} {A} (comparefn : A → A → option R) (x : A) :
  JS.Array_sort comparefn [x] = [x].
Proof. apply Permutation_singleton_r, Array_sort_Permutation. Qed.

(** The body of the first loop on a segment of two positions and one
    colour, with the small geometry interface and no smoothing. *)
Lemma render_segment_single `{JS.Engine} spacing viewport maps segment_id
    (p q : turf.Position) t b c :
  (spacing <? 0.007) = false →
  let line := {| turf.first_position := p; turf.second_position := q;
                 turf.other_positions := [] |} in
  (@render_segment _ Flat.api spacing viewport maps segment_id
     {| geometry := [p; q]; top := t; bottom := b; colors := [c] |}).2
  = JS.Normal
      (record_all maps
         [{| recorded_segment := segment_id; recorded_color := c;
             recorded_processed := [p; q]; recorded_offset := line;
             recorded_buffer := line |}]).
Proof.
  intros Hflag line. unfold render_segment, colors_sorted,
    colors_sorted_by_luminosity. cbn [geometry colors turf.lineString].
  cbn [turf.booleanIntersects Flat.api negb]. rewrite Array_sort_single.
  assert (∀ d, @ClipLine Flat.api line d = JS.Normal line) as Hclip.
  { intros d. unfold ClipLine. cbn [turf.coordinates length].
    rewrite bool_decide_eq_true_2; [|simpl; lia]. by rewrite orb_true_r. }
  destruct (shouldReverseColor _); cbn [reverse rev_append length colors];
    fold line; rewrite Hclip; simpl; unfold render_color;
    cbn [turf.lineOffset Flat.api]; simpl; rewrite !Hclip; simpl;
    unfold ProcessOffsetLines; rewrite ?Hflag, ?Hclip; done.
Qed.

Lemma render_segments_snd_cons `{JS.Engine} `{turf.API} spacing viewport
    entry rest maps maps1 :
  (render_segment spacing viewport maps entry.1 entry.2).2 = JS.Normal maps1 →
  (render_segments spacing viewport (entry :: rest) maps).2
  = (render_segments spacing viewport rest maps1).2.
Proof. simpl. by intros ->. Qed.

Lemma renderLines_outcome `{JS.Engine} `{turf.API} RequestedSpacing viewbox
    (w : Worker) maps rendered :
  let spacing := JS.Math_max 0.00005 (JS.Math_min 0.3 RequestedSpacing) in
  maps_after_segments w spacing viewbox = JS.Normal maps →
  stitch_connections spacing (ColourSegmentsEndpoints maps)
    (RenderedColourLine maps) (LineConnections w) = JS.Normal rendered →
  outcome (renderLines RequestedSpacing viewbox w)
  = JS.Normal
      (turf.featureCollection
         ((λ entry, turf.multiLineString entry.2 entry.1 entry.1)
            <$> JsMap.entries rendered)).
Proof.
  intros spacing. rewrite renderLines_run. simpl. unfold maps_after_segments.
  fold spacing.
  destruct (turf.polygon [viewbox]) as [viewport|fault]; simpl; [|done].
  intros ->. simpl. by intros ->.
Qed.

Lemma ingested_back_and_forth_segments :
  LineSegments Samples.ingested_back_and_forth
  = [("Segment:0",
      {| geometry := [(0, 0); (1, 1)]; top := Some (0, 0);
         bottom := Some (1, 1); colors := ["#FF0000"] |});
     ("Segment:1",
      {| geometry := [(1, 1); (2, 2)]; top := Some (1, 1);
         bottom := Some (2, 2); colors := ["#FF0000"] |})].
Proof. vm_compute. reflexivity. Qed.

Lemma ingested_back_and_forth_connections :
  LineConnections Samples.ingested_back_and_forth
  = [{| from := (0%Z, "bottom"); to := (1%Z, "top"); color := "#FF0000" |};
     {| from := (1%Z, "bottom"); to := (0%Z, "bottom"); color := "#FF0000" |};
     {| from := (0%Z, "top"); to := (0%Z, "top"); color := "#FF0000" |}].
Proof. vm_compute. reflexivity. Qed.

Lemma ingested_back_and_forth_as_ingested :
  as_ingested Samples.ingested_back_and_forth.
Proof.
  apply (@reachable_as_ingested Samples.engine Flat.api). do 2 constructor.
Qed.

(** The render of the sample worker at the requested spacing 0.05: the
    two maps after the first loop, the lookups of the three connections,
    and the collection. *)
Lemma ingested_back_and_forth_render :
  let spacing := JS.Math_max 0.00005 (JS.Math_min 0.3 0.05) in
  ∃ maps,
    @maps_after_segments Samples.engine Flat.api Samples.ingested_back_and_forth
      spacing Samples.viewbox = JS.Normal maps
    ∧ RenderedColourLine maps
      = [("#FF0000", [[(0, 0); (1, 1)]; [(1, 1); (2, 2)]])]
    ∧ Forall2 (λ connection points,
          connection_coords (ColourSegmentsEndpoints maps) connection
          = Some <$> points)
        (LineConnections Samples.ingested_back_and_forth)
        [[(1, 1); (1, 1); (1, 1); (1, 1); (1, 1); (1, 1)];
         [(2, 2); (2, 2); (2, 2); (1, 1); (1, 1); (1, 1)];
         [(0, 0); (0, 0); (0, 0); (0, 0); (0, 0); (0, 0)]]
    ∧ outcome (@renderLines Samples.engine Flat.api 0.05 Samples.viewbox
                 Samples.ingested_back_and_forth)
      = JS.Normal
          (turf.featureCollection
             [turf.multiLineString
                [[(0, 0); (1, 1)]; [(1, 1); (2, 2)];
                 [(1, 1); (1, 1); (1, 1); (1, 1); (1, 1); (1, 1)];
                 [(2, 2); (2, 2); (2, 2); (1, 1); (1, 1); (1, 1)];
                 [(0, 0); (0, 0); (0, 0); (0, 0); (0, 0); (0, 0)]]
                "#FF0000" "#FF0000"]).
Proof.
  intros spacing.
  assert ((spacing <? 0.007) = false) as Hflag by (vm_compute; reflexivity).
  set (record := λ segment_id (p q : turf.Position),
         {| recorded_segment := segment_id; recorded_color := "#FF0000";
            recorded_processed := [p; q];
            recorded_offset :=
              {| turf.first_position := p; turf.second_position := q;
                 turf.other_positions := [] |};
            recorded_buffer :=
              {| turf.first_position := p; turf.second_position := q;
                 turf.other_positions := [] |} |}).
  set (maps := record_all no_maps
                 [record "Segment:0" (0, 0) (1, 1); record "Segment:1" (1, 1) (2, 2)]).
  assert (@maps_after_segments Samples.engine Flat.api
            Samples.ingested_back_and_forth spacing Samples.viewbox
          = JS.Normal maps) as Hmaps.
  { unfold maps_after_segments.
    replace (turf.polygon [Samples.viewbox])
      with (JS.Normal {| turf.rings := [Samples.viewbox] |})
      by (vm_compute; reflexivity).
    rewrite ingested_back_and_forth_segments.
    cbn [mbind completion_bind JS.bind]. unfold JsMap.entries.
    erewrite render_segments_snd_cons by (by apply render_segment_single).
    erewrite render_segments_snd_cons by (by apply render_segment_single).
    reflexivity. }
  exists maps. split; [exact Hmaps|].
  split; [vm_compute; reflexivity|]. split.
  { rewrite ingested_back_and_forth_connections.
    repeat constructor; vm_compute; reflexivity. }
  rewrite (@renderLines_outcome Samples.engine Flat.api 0.05 Samples.viewbox
             Samples.ingested_back_and_forth maps
             [("#FF0000",
               [[(0, 0); (1, 1)]; [(1, 1); (2, 2)];
                [(1, 1); (1, 1); (1, 1); (1, 1); (1, 1); (1, 1)];
                [(2, 2); (2, 2); (2, 2); (1, 1); (1, 1); (1, 1)];
                [(0, 0); (0, 0); (0, 0); (0, 0); (0, 0); (0, 0)]])]).
  - reflexivity.
  - exact Hmaps.
  - rewrite ingested_back_and_forth_connections. vm_compute. reflexivity.
Qed.

End sample_renders.

Lemma ingested_back_and_forth_drawn (id : Z) (tag : string) :
  id = 0%Z ∨ id = 1%Z →
  @drawn Flat.api Samples.ingested_back_and_forth Samples.viewbox (id, tag) "#FF0000".
Proof.
  unfold drawn. rewrite ingested_back_and_forth_segments.
  intros [-> | ->].
  - eexists. split; [by left|]. split; [|by left].
    eexists. split; [vm_compute; reflexivity|reflexivity].
  - eexists. split; [right; by left|]. split; [|by left].
    eexists. split; [vm_compute; reflexivity|reflexivity].
Qed.

Lemma stitched_color_is_rendered_witness :
  let spacing := (JS.Math_max 0.00005 (JS.Math_min 0.3 0.05))%float in
  ∃ maps rendered,
    @maps_after_segments Samples.engine Flat.api Samples.ingested_back_and_forth
      spacing Samples.viewbox = JS.Normal maps
    ∧ @stitch_connections Flat.api spacing (ColourSegmentsEndpoints maps)
        (RenderedColourLine maps)
        [{| from := (0%Z, "bottom"); to := (1%Z, "top"); color := "#FF0000" |};
         {| from := (1%Z, "bottom"); to := (0%Z, "bottom"); color := "#FF0000" |}]
      = JS.Normal rendered
    ∧ JsMap.has rendered "#FF0000" = true.
Proof.
  intros spacing.
  destruct ingested_back_and_forth_render as (maps & Hmaps & Hrendered & Hcoords & _).
  fold spacing in Hmaps. rewrite ingested_back_and_forth_connections in Hcoords.
  apply Forall2_cons in Hcoords as [Hfirst Hcoords].
  apply Forall2_cons in Hcoords as [Hsecond Hcoords].
  apply Forall2_cons in Hcoords as [Hthird _].
  assert (∃ rendered,
    @stitch_connections Flat.api spacing (ColourSegmentsEndpoints maps)
      (RenderedColourLine maps)
      [{| from := (0%Z, "bottom"); to := (1%Z, "top"); color := "#FF0000" |};
       {| from := (1%Z, "bottom"); to := (0%Z, "bottom"); color := "#FF0000" |}]
    = JS.Normal rendered) as [rendered Hdone].
  { cbn [stitch_connections]. unfold stitch_connection.
    rewrite Hfirst, Hsecond, Hrendered. by eexists. }
  exists maps, rendered. split; [exact Hmaps|]. split; [exact Hdone|].
  apply (proj1 (@stitched_color_is_rendered Samples.engine Flat.api
                  Samples.ingested_back_and_forth 0.05%float Samples.viewbox maps
                  ingested_back_and_forth_as_ingested Hmaps)
           [{| from := (0%Z, "bottom"); to := (1%Z, "top"); color := "#FF0000" |};
            {| from := (1%Z, "bottom"); to := (0%Z, "bottom"); color := "#FF0000" |}]
           {| from := (0%Z, "top"); to := (0%Z, "top"); color := "#FF0000" |} []
           rendered ingested_back_and_forth_connections Hdone).
  rewrite Hthird. repeat constructor; by eexists.
Defined.

Lemma stitch_connections_policy_witness :
  let spacing := (JS.Math_max 0.00005 (JS.Math_min 0.3 0.05))%float in
  ∃ collection maps,
    outcome (@renderLines Samples.engine Flat.api 0.05 Samples.viewbox
               Samples.ingested_back_and_forth) = JS.Normal collection
    ∧ @maps_after_segments Samples.engine Flat.api Samples.ingested_back_and_forth
        spacing Samples.viewbox = JS.Normal maps
    ∧ Forall2 (λ entry feature,
          turf.feature_id feature = entry.1
          ∧ ∃ chains,
              turf.lines feature = entry.2 ++ chains
              ∧ Forall2 (λ connection line,
                    ∃ points,
                      connection_coords (ColourSegmentsEndpoints maps) connection
                      = Some <$> points
                      ∧ JS.Normal line
                        = if (spacing <? 0.11)%float
                          then @turf.smooth Flat.api points 7 0.75
                          else JS.Normal points)
                  (filter (λ connection,
                             color connection = entry.1
                             ∧ Forall is_Some
                                 (connection_coords (ColourSegmentsEndpoints maps)
                                    connection))
                          (LineConnections Samples.ingested_back_and_forth))
                  chains)
        (JsMap.entries (RenderedColourLine maps))
        (turf.features collection).
Proof.
  intros spacing.
  destruct ingested_back_and_forth_render as (_ & _ & _ & _ & Hrun).
  destruct (@stitch_connections_policy Samples.engine Flat.api
              Samples.ingested_back_and_forth 0.05%float Samples.viewbox _ Hrun)
    as (maps & Hmaps & Hfeatures).
  eexists _, maps. split; [exact Hrun|]. split; [exact Hmaps|]. exact Hfeatures.
Defined.

Lemma renderLines_features_witness :
  ∃ collection,
    outcome (@renderLines Samples.engine Flat.api 0.05 Samples.viewbox
               Samples.ingested_back_and_forth) = JS.Normal collection
    ∧ turf.feature_id <$> turf.features collection = ["#FF0000"]
    ∧ NoDup (turf.feature_id <$> turf.features collection).
Proof.
  destruct ingested_back_and_forth_render as (_ & _ & _ & _ & Hrun).
  destruct (@renderLines_features Samples.engine Flat.api 0.05%float
              Samples.viewbox Samples.ingested_back_and_forth _ Hrun)
    as (viewport & _ & _ & _ & Hnodup & _).
  eexists. split; [exact Hrun|]. split; [reflexivity|exact Hnodup].
Defined.

Lemma stitched_connection_is_drawn_witness :
  @drawn Flat.api Samples.ingested_back_and_forth Samples.viewbox
    (1%Z, "bottom") "#FF0000"
  ∧ @drawn Flat.api Samples.ingested_back_and_forth Samples.viewbox
      (0%Z, "bottom") "#FF0000".
Proof.
  destruct ingested_back_and_forth_render as (maps & Hmaps & _ & Hcoords & _).
  rewrite ingested_back_and_forth_connections in Hcoords.
  apply Forall2_cons in Hcoords as [_ Hcoords].
  apply Forall2_cons in Hcoords as [Hsecond _].
  apply (@stitched_connection_is_drawn Samples.engine Flat.api
           Samples.ingested_back_and_forth
           (JS.Math_max 0.00005 (JS.Math_min 0.3 0.05))%float Samples.viewbox
           {| from := (1%Z, "bottom"); to := (0%Z, "bottom"); color := "#FF0000" |}
           maps ingested_back_and_forth_as_ingested).
  - rewrite ingested_back_and_forth_connections. right. by left.
  - exact Hmaps.
  - rewrite Hsecond. repeat constructor; by eexists.
Defined.

Lemma drawn_connection_is_stitched_witness :
  let spacing := (JS.Math_max 0.00005 (JS.Math_min 0.3 0.05))%float in
  let connection :=
    {| from := (1%Z, "bottom"); to := (0%Z, "bottom"); color := "#FF0000" |} in
  ∃ collection maps feature points line,
    outcome (@renderLines Samples.engine Flat.api 0.05 Samples.viewbox
               Samples.ingested_back_and_forth) = JS.Normal collection
    ∧ @maps_after_segments Samples.engine Flat.api Samples.ingested_back_and_forth
        spacing Samples.viewbox = JS.Normal maps
    ∧ connection_coords (ColourSegmentsEndpoints maps) connection = Some <$> points
    ∧ length points = 6
    ∧ JS.Normal line
      = (if (spacing <? 0.11)%float
         then @turf.smooth Flat.api points 7 0.75 else JS.Normal points)
    ∧ feature ∈ turf.features collection
    ∧ turf.feature_id feature = "#FF0000"
    ∧ line ∈ turf.lines feature.
Proof.
  intros spacing connection.
  destruct ingested_back_and_forth_render as (_ & _ & _ & _ & Hrun).
  assert (connection ∈ LineConnections Samples.ingested_back_and_forth) as Hin.
  { rewrite ingested_back_and_forth_connections. right. by left. }
  assert (∀ path smoothed,
            @turf.smooth Flat.api path 2 0.75 = JS.Normal smoothed →
            path ≠ [] → smoothed ≠ []) as Hsmooth.
  { intros path smoothed [= <-]. done. }
  destruct (@drawn_connection_is_stitched Samples.engine Flat.api
              Samples.ingested_back_and_forth 0.05%float Samples.viewbox
              connection _ ingested_back_and_forth_as_ingested Hin Hsmooth Hrun
              (ingested_back_and_forth_drawn 1 "bottom" (or_intror eq_refl))
              (ingested_back_and_forth_drawn 0 "bottom" (or_introl eq_refl)))
    as (maps & feature & points & line & Hconclusion).
  eexists _, maps, feature, points, line. split; [exact Hrun|]. exact Hconclusion.
Defined.
